(** * wplace-ar: the geospatial tile grid, the orientation filter and the
      location tracker

    A shallow embedding of [src/config.js], [src/utils.js], [src/controls.js],
    [src/tiles.js], [src/geolocation.js], [src/map.js], the handlers of
    [src/ui.js] and the render loop of [src/main.js].

    JavaScript numbers are read as real numbers ([R]): [Math.sin], [Math.log],
    [Math.sqrt] ... are the functions of the Standard Library's [Reals], and
    rounding is left out.  A value produced by [Math.floor] is an integer
    ([Z]).  Module-level [let] variables become the fields of a state record
    that every operation takes and returns. *)

From Stdlib Require Import Reals Machin Lra Lia ZArith List Bool Zfloor.
Import ListNotations.

#[local] Open Scope R_scope.

(* ================================================================== *)
(** * Part I: the program                                              *)
(* ================================================================== *)

(** ** [Math]: the built-ins the sources call *)

Module JSMath.

Definition floor (x : R) : Z := Zfloor x.
Definition log (x : R) : R := ln x.
Definition pow (b e : R) : R := Rpower b e.
Definition max (a b : R) : R := Rmax a b.
Definition min (a b : R) : R := Rmin a b.
Definition abs (x : R) : R := Rabs x.

(** [Math.atan2(y, x)]: the angle of the point [(x, y)], in [(-PI, PI]]. *)
Definition atan2 (y x : R) : R :=
  if Rlt_dec 0 x then atan (y / x)
  else if Rlt_dec x 0 then
    (if Rle_dec 0 y then atan (y / x) + PI else atan (y / x) - PI)
  else if Rlt_dec 0 y then PI / 2
  else if Rlt_dec y 0 then - (PI / 2)
  else 0.

End JSMath.

(** ** [config.js] *)

Module Config.

Record LatLon : Type := mkLatLon { lat : R; lon : R }.

Definition ZOOM_LEVEL : R := 11.
Definition TILE_SIZE : R := 1000.
Definition SKY_HEIGHT : R := 200.
Definition FALLBACK : LatLon := {| lat := 43.642567; lon := -79.387054 |}.
Definition fogNear : R := 500.
Definition fogFar : R := 1800.
Definition TAU_BASE : R := 0.03.
Definition TAU_SLOW : R := 0.12.
Definition GPS_UPDATE_INTERVAL : R := 25.
Definition GPS_DISTANCE_THRESHOLD : R := 15.

End Config.

(** ** [utils.js] *)

Module Utils.

(** The argument of the square roots in [calculateDistance]. *)
Definition haversine_a (lat1 lon1 lat2 lon2 : R) : R :=
  let phi1 := lat1 * PI / 180 in
  let phi2 := lat2 * PI / 180 in
  let dphi := (lat2 - lat1) * PI / 180 in
  let dlambda := (lon2 - lon1) * PI / 180 in
  sin (dphi / 2) * sin (dphi / 2) +
  cos phi1 * cos phi2 * sin (dlambda / 2) * sin (dlambda / 2).

Definition calculateDistance (lat1 lon1 lat2 lon2 : R) : R :=
  let R_earth := 6371000 in
  let a := haversine_a lat1 lon1 lat2 lon2 in
  let c := 2 * JSMath.atan2 (sqrt a) (sqrt (1 - a)) in
  R_earth * c.

Record TileCoords : Type := mkTileCoords
  { tileX : Z; tileY : Z; pixelX : Z; pixelY : Z }.

Definition latLonToTile (lat lon zoom tileSize : R) : TileCoords :=
  let x := (lon + 180) / 360 in
  let y := (1 - JSMath.log (tan (PI / 4 + (lat * PI / 180) / 2)) / PI) / 2 in
  let n := JSMath.pow 2 zoom in
  let tileX := JSMath.floor (x * n) in
  let tileY := JSMath.floor (y * n) in
  let pixelX := JSMath.floor ((x * n - IZR tileX) * tileSize) in
  let pixelY := JSMath.floor ((y * n - IZR tileY) * tileSize) in
  {| tileX := tileX; tileY := tileY; pixelX := pixelX; pixelY := pixelY |}.

End Utils.

(** ** Objects that are shared and mutated: a store indexed by identity *)

Module Store.

(** [update i f l] replaces the object of identity [i]; an identity that was
    never allocated changes nothing. *)
Fixpoint update {A : Type} (i : nat) (f : A -> A) (l : list A) : list A :=
  match l, i with
  | [], _ => []
  | a :: l', O => f a :: l'
  | a :: l', S i' => a :: update i' f l'
  end.

Definition update_all {A : Type} (ids : list nat) (f : A -> A) (l : list A) : list A :=
  fold_left (fun acc i => update i f acc) ids l.

Definition remove_id (i : nat) (l : list nat) : list nat :=
  filter (fun j => negb (Nat.eqb j i)) l.

End Store.

(** ** [tiles.js] *)

Module Tiles.

(** *** three.js objects *)

Record Material : Type := mkMaterial
  { opacity : R;
    map : option (Z * Z);        (* the texture, named by the tile it shows *)
    transparent : bool;
    mat_disposed : bool }.

Record Plane : Type := mkPlane
  { pl_material : nat;           (* identity of [plane.material] *)
    pl_position : R * R * R;     (* x, y, z *)
    pl_rotation_x : R;
    geometry_disposed : bool }.

(** *** The tile grid: a JavaScript [Map], in insertion order.  The key is
    the string [`${tileX},${tileY}`], which is one-to-one on pairs of
    integers, so the pair itself is the key. *)

Record TileData : Type := mkTileData
  { plane : nat; material : nat;
    tileX : Z; tileY : Z; relativeX : Z; relativeY : Z }.

Definition Key : Type := (Z * Z)%type.
Definition key_eqb (a b : Key) : bool :=
  (fst a =? fst b)%Z && (snd a =? snd b)%Z.
Definition Grid : Type := list (Key * TileData).

(** [Map.prototype.set]: an existing key keeps its place, a new one goes last. *)
Fixpoint grid_set (k : Key) (v : TileData) (m : Grid) : Grid :=
  match m with
  | [] => [(k, v)]
  | (k', v') :: m' =>
      if key_eqb k' k then (k', v) :: m' else (k', v') :: grid_set k v m'
  end.

(** *** What a rebuild's callbacks close over, and the fetches in flight *)

Record Rebuild : Type := mkRebuild
  { oldTileGrid : Grid;
    oldTileGroup : option nat;
    loadedCount : nat;
    totalTiles : nat;
    newTileMaterials : list nat }.

Record Fetch : Type := mkFetch
  { f_tileX : Z; f_tileY : Z; f_material : nat; f_rebuild : nat }.

(** *** Module state, the scene graph and the object store *)

Record State : Type := mkState
  { SKY_HEIGHT : R;
    tileGrid : Grid;
    centerTile : Z * Z;
    currentPixelOffsets : Z * Z;          (* pixelX, pixelY *)
    tileGroup : option nat;
    getOpacityCallback : option R;        (* what the registered callback returns *)
    materials : list Material;
    planes : list Plane;
    groups : list (list nat);             (* children of each THREE.Group *)
    scene : list nat;                     (* the groups added to the scene *)
    rebuilds : list Rebuild;
    fetches : list Fetch }.

Definition initial : State :=
  {| SKY_HEIGHT := Config.SKY_HEIGHT; tileGrid := []; centerTile := (0, 0)%Z;
     currentPixelOffsets := (0, 0)%Z; tileGroup := None;
     getOpacityCallback := None; materials := []; planes := [];
     groups := []; scene := []; rebuilds := []; fetches := [] |}.

Definition with_grid (g : Grid) (st : State) : State :=
  {| SKY_HEIGHT := SKY_HEIGHT st; tileGrid := g; centerTile := centerTile st;
     currentPixelOffsets := currentPixelOffsets st; tileGroup := tileGroup st;
     getOpacityCallback := getOpacityCallback st; materials := materials st;
     planes := planes st; groups := groups st; scene := scene st;
     rebuilds := rebuilds st; fetches := fetches st |}.

Definition with_tileGroup (g : option nat) (st : State) : State :=
  {| SKY_HEIGHT := SKY_HEIGHT st; tileGrid := tileGrid st; centerTile := centerTile st;
     currentPixelOffsets := currentPixelOffsets st; tileGroup := g;
     getOpacityCallback := getOpacityCallback st; materials := materials st;
     planes := planes st; groups := groups st; scene := scene st;
     rebuilds := rebuilds st; fetches := fetches st |}.

Definition with_objects (ms : list Material) (ps : list Plane)
    (gs : list (list nat)) (sc : list nat) (st : State) : State :=
  {| SKY_HEIGHT := SKY_HEIGHT st; tileGrid := tileGrid st; centerTile := centerTile st;
     currentPixelOffsets := currentPixelOffsets st; tileGroup := tileGroup st;
     getOpacityCallback := getOpacityCallback st; materials := ms;
     planes := ps; groups := gs; scene := sc;
     rebuilds := rebuilds st; fetches := fetches st |}.

Definition setGetOpacityCallback (callback : option R) (st : State) : State :=
  {| SKY_HEIGHT := SKY_HEIGHT st; tileGrid := tileGrid st; centerTile := centerTile st;
     currentPixelOffsets := currentPixelOffsets st; tileGroup := tileGroup st;
     getOpacityCallback := callback; materials := materials st;
     planes := planes st; groups := groups st; scene := scene st;
     rebuilds := rebuilds st; fetches := fetches st |}.

Definition set_plane_y (y : R) (p : Plane) : Plane :=
  {| pl_material := pl_material p;
     pl_position := (fst (fst (pl_position p)), y, snd (pl_position p));
     pl_rotation_x := pl_rotation_x p; geometry_disposed := geometry_disposed p |}.

Definition setSkyHeight (height : R) (st : State) : State :=
  {| SKY_HEIGHT := height; tileGrid := tileGrid st; centerTile := centerTile st;
     currentPixelOffsets := currentPixelOffsets st; tileGroup := tileGroup st;
     getOpacityCallback := getOpacityCallback st; materials := materials st;
     planes := Store.update_all (List.map (fun e => plane (snd e)) (tileGrid st))
                 (set_plane_y height) (planes st);
     groups := groups st; scene := scene st;
     rebuilds := rebuilds st; fetches := fetches st |}.

(** [createAlphaFogMaterial]: white, transparent, and invisible until the swap. *)
Definition createAlphaFogMaterial : Material :=
  {| opacity := 0; map := None; transparent := true; mat_disposed := false |}.

Definition calculateTilePosition (relativeX relativeY : Z) (st : State) : R * R :=
  let (pixelX, pixelY) := currentPixelOffsets st in
  if ((relativeX =? 0)%Z && (relativeY =? 0)%Z)%bool then
    (Config.TILE_SIZE / 2 - IZR pixelX, Config.TILE_SIZE / 2 - IZR pixelY)
  else
    let centerOffsetX := Config.TILE_SIZE / 2 - IZR pixelX in
    let centerOffsetZ := Config.TILE_SIZE / 2 - IZR pixelY in
    (centerOffsetX + IZR relativeX * Config.TILE_SIZE,
     centerOffsetZ - IZR relativeY * Config.TILE_SIZE).

(** [if (!tileGroup) { tileGroup = new THREE.Group(); scene.add(tileGroup); }] *)
Definition ensure_group (st : State) : State :=
  match tileGroup st with
  | Some _ => st
  | None =>
      with_tileGroup (Some (length (groups st)))
        (with_objects (materials st) (planes st) (groups st ++ [[]])
           (scene st ++ [length (groups st)]) st)
  end.

(** [createTilePlane]: allocates the material and the mesh, creates the
    group on first use, and returns the two identities. *)
Definition createTilePlane (relativeX relativeY : Z) (st : State) : State * (nat * nat) :=
  let planeMat := length (materials st) in
  let pl := length (planes st) in
  let position := calculateTilePosition relativeX relativeY st in
  let mesh :=
    {| pl_material := planeMat;
       pl_position := (fst position, SKY_HEIGHT st, snd position);
       pl_rotation_x := - PI / 2; geometry_disposed := false |} in
  let st1 := ensure_group st in
  let g := match tileGroup st1 with Some g => g | None => 0%nat end in
  (with_objects (materials st1 ++ [createAlphaFogMaterial]) (planes st1 ++ [mesh])
     (Store.update g (fun children => children ++ [pl]) (groups st1)) (scene st1) st1,
   (pl, planeMat)).

(** The body of the two nested loops of [buildTileGrid]. *)
Definition buildTileGrid_cell (centerTileX centerTileY dx dy : Z) (st : State) : State :=
  let tileX := (centerTileX + dx)%Z in
  let tileY := (centerTileY + dy)%Z in
  let tileKey := (tileX, tileY) in
  let '(st1, (pl, mat)) := createTilePlane dx dy st in
  with_grid
    (grid_set tileKey
       {| plane := pl; material := mat; tileX := tileX; tileY := tileY;
          relativeX := dx; relativeY := dy |}
       (tileGrid st1))
    st1.

Definition minus1_to_1 : list Z := [-1; 0; 1]%Z.

Definition buildTileGrid (centerTileX centerTileY : Z) (st : State) : State :=
  let st0 :=
    {| SKY_HEIGHT := SKY_HEIGHT st; tileGrid := tileGrid st;
       centerTile := (centerTileX, centerTileY);
       currentPixelOffsets := currentPixelOffsets st; tileGroup := tileGroup st;
       getOpacityCallback := getOpacityCallback st; materials := materials st;
       planes := planes st; groups := groups st; scene := scene st;
       rebuilds := rebuilds st; fetches := fetches st |} in
  fold_left
    (fun st dx =>
       fold_left (fun st dy => buildTileGrid_cell centerTileX centerTileY dx dy st)
         minus1_to_1 st)
    minus1_to_1 st0.

(** *** Releasing cells *)

Definition dispose_geometry (p : Plane) : Plane :=
  {| pl_material := pl_material p; pl_position := pl_position p;
     pl_rotation_x := pl_rotation_x p; geometry_disposed := true |}.

Definition dispose_material (m : Material) : Material :=
  {| opacity := opacity m; map := map m; transparent := transparent m;
     mat_disposed := true |}.

(** The body of [grid.forEach(({ plane }) => ...)] in [clearTileGrid] and in
    the swap: detach the mesh from [group], release geometry and material. *)
Definition dispose_cell (group : option nat) (st : State) (e : Key * TileData) : State :=
  let pl := plane (snd e) in
  let gs :=
    match group with
    | Some g => Store.update g (Store.remove_id pl) (groups st)
    | None => groups st
    end in
  let ms :=
    match nth_error (planes st) pl with
    | Some p => Store.update (pl_material p) dispose_material (materials st)
    | None => materials st
    end in
  with_objects ms (Store.update pl dispose_geometry (planes st)) gs (scene st) st.

Definition scene_remove (group : option nat) (st : State) : State :=
  match group with
  | Some g =>
      with_objects (materials st) (planes st) (groups st) (Store.remove_id g (scene st)) st
  | None => st
  end.

Definition clearTileGrid (st : State) : State :=
  let st1 := fold_left (dispose_cell (tileGroup st)) (tileGrid st) st in
  let st2 := with_grid [] st1 in
  match tileGroup st2 with
  | Some _ => with_tileGroup None (scene_remove (tileGroup st2) st2)
  | None => st2
  end.

Definition createTileGrid (centerTileX centerTileY : Z) (st : State) : State :=
  buildTileGrid centerTileX centerTileY (clearTileGrid st).

(** *** Loading textures and swapping grids *)

Definition set_opacity (v : R) (m : Material) : Material :=
  {| opacity := v; map := map m; transparent := transparent m;
     mat_disposed := mat_disposed m |}.

Definition set_texture (t : Z * Z) (m : Material) : Material :=
  {| opacity := opacity m; map := Some t; transparent := true;
     mat_disposed := mat_disposed m |}.

Definition with_rebuilds (rs : list Rebuild) (fs : list Fetch) (st : State) : State :=
  {| SKY_HEIGHT := SKY_HEIGHT st; tileGrid := tileGrid st; centerTile := centerTile st;
     currentPixelOffsets := currentPixelOffsets st; tileGroup := tileGroup st;
     getOpacityCallback := getOpacityCallback st; materials := materials st;
     planes := planes st; groups := groups st; scene := scene st;
     rebuilds := rs; fetches := fs |}.

(** [loadSingleTileTexture(tileX, tileY, material, onLoadCallback)] starts the
    fetch of one tile; the callback it is given is the one of the rebuild
    [rid].  The fetch ends in [settle] below. *)
Definition loadSingleTileTexture (tileX tileY : Z) (material rid : nat) (st : State) : State :=
  with_rebuilds (rebuilds st)
    (fetches st ++ [{| f_tileX := tileX; f_tileY := tileY;
                       f_material := material; f_rebuild := rid |}])
    st.

(** [newTileMaterials.push(material)] *)
Definition push_material (m : nat) (r : Rebuild) : Rebuild :=
  {| oldTileGrid := oldTileGrid r; oldTileGroup := oldTileGroup r;
     loadedCount := loadedCount r; totalTiles := totalTiles r;
     newTileMaterials := newTileMaterials r ++ [m] |}.

(** The body of [tileGrid.forEach] in [loadTileGridTextures]. *)
Definition start_fetch (rid : nat) (st : State) (e : Key * TileData) : State :=
  let st1 :=
    with_rebuilds (Store.update rid (push_material (material (snd e))) (rebuilds st))
      (fetches st) st in
  loadSingleTileTexture (tileX (snd e)) (tileY (snd e)) (material (snd e)) rid st1.

(** [loadTileGridTextures]: the part that runs before any fetch settles.
    Each entry of the new grid starts one fetch; all the callbacks share the
    rebuild's counter, old grid and list of new materials. *)
Definition loadTileGridTextures (lat lon : R) (st : State) : State :=
  let tc := Utils.latLonToTile lat lon Config.ZOOM_LEVEL Config.TILE_SIZE in
  let oldTileGrid := tileGrid st in
  let oldTileGroup := tileGroup st in
  let st1 :=
    {| SKY_HEIGHT := SKY_HEIGHT st; tileGrid := [];
       centerTile := centerTile st;
       currentPixelOffsets := (Utils.pixelX tc, Utils.pixelY tc);
       tileGroup := None;
       getOpacityCallback := getOpacityCallback st; materials := materials st;
       planes := planes st; groups := groups st; scene := scene st;
       rebuilds := rebuilds st; fetches := fetches st |} in
  let st2 := buildTileGrid (Utils.tileX tc) (Utils.tileY tc) st1 in
  let rid := length (rebuilds st2) in
  let closure :=
    {| oldTileGrid := oldTileGrid; oldTileGroup := oldTileGroup;
       loadedCount := 0; totalTiles := length (tileGrid st2);
       newTileMaterials := [] |} in
  let st3 := with_rebuilds (rebuilds st2 ++ [closure]) (fetches st2) st2 in
  fold_left (start_fetch rid) (tileGrid st2) st3.

(** The swap, run by the callback that brings the counter to [totalTiles]. *)
Definition swap (r : Rebuild) (st : State) : State :=
  let st1 := fold_left (dispose_cell (oldTileGroup r)) (oldTileGrid r) st in
  let st2 := scene_remove (oldTileGroup r) st1 in
  let currentOpacity :=
    match getOpacityCallback st2 with Some v => v | None => 0.5 end in
  with_objects
    (Store.update_all (newTileMaterials r) (set_opacity currentOpacity) (materials st2))
    (planes st2) (groups st2) (scene st2) st2.

Definition count_loaded (r : Rebuild) : Rebuild :=
  {| oldTileGrid := oldTileGrid r; oldTileGroup := oldTileGroup r;
     loadedCount := S (loadedCount r); totalTiles := totalTiles r;
     newTileMaterials := newTileMaterials r |}.

(** The callback handed to [loadSingleTileTexture]. *)
Definition onLoadCallback (rid : nat) (st : State) : State :=
  match nth_error (rebuilds st) rid with
  | None => st
  | Some r =>
      let r' := count_loaded r in
      let st1 := with_rebuilds (Store.update rid count_loaded (rebuilds st)) (fetches st) st in
      if Nat.eqb (loadedCount r') (totalTiles r') then swap r' st1 else st1
  end.

(** A fetch settles: the loader calls the success handler (the texture goes
    on the material) or the error handler; both end in the callback. *)
Definition settle (f : nat) (loaded : bool) (st : State) : State :=
  match nth_error (fetches st) f with
  | None => st
  | Some fe =>
      let st1 :=
        if loaded then
          with_objects
            (Store.update (f_material fe) (set_texture (f_tileX fe, f_tileY fe))
               (materials st))
            (planes st) (groups st) (scene st) st
        else st in
      onLoadCallback (f_rebuild fe) st1
  end.

Definition run (evs : list (nat * bool)) (st : State) : State :=
  fold_left (fun st e => settle (fst e) (snd e) st) evs st.

Definition updateTileOpacity (v : R) (st : State) : State :=
  with_objects
    (Store.update_all (List.map (fun e => material (snd e)) (tileGrid st))
       (set_opacity v) (materials st))
    (planes st) (groups st) (scene st) st.

End Tiles.

(** ** three.js: the quaternion operations [controls.js] calls *)

Module Three.

Record Quaternion : Type := mkQuaternion { qx : R; qy : R; qz : R; qw : R }.

Definition identity : Quaternion := {| qx := 0; qy := 0; qz := 0; qw := 1 |}.

Definition dot (a b : Quaternion) : R :=
  qx a * qx b + qy a * qy b + qz a * qz b + qw a * qw b.

(** [MathUtils.clamp] and [MathUtils.lerp]. *)
Definition clamp (value lo hi : R) : R := JSMath.max lo (JSMath.min hi value).
Definition lerp (x y t : R) : R := (1 - t) * x + t * y.

Definition scale (k : R) (q : Quaternion) : Quaternion :=
  {| qx := k * qx q; qy := k * qy q; qz := k * qz q; qw := k * qw q |}.

Definition add (a b : Quaternion) : Quaternion :=
  {| qx := qx a + qx b; qy := qy a + qy b; qz := qz a + qz b; qw := qw a + qw b |}.

(** [Quaternion.slerp] as the library documents it: the point at fraction
    [t] of the shorter great arc from [qa] to [qb].  The library's shortcut
    for nearly equal quaternions (a normalised linear blend) is left out. *)
Definition slerp_shortest_arc (qa qb : Quaternion) (t : R) : Quaternion :=
  let cosHalfTheta := dot qa qb in
  let qb' := if Rlt_dec cosHalfTheta 0 then scale (-1) qb else qb in
  let c := Rabs cosHalfTheta in
  if Rle_dec 1 c then qa
  else
    let halfTheta := acos c in
    let sinHalfTheta := sin halfTheta in
    let ratioA := sin ((1 - t) * halfTheta) / sinHalfTheta in
    let ratioB := sin (t * halfTheta) / sinHalfTheta in
    add (scale ratioA qa) (scale ratioB qb').

End Three.

(** ** [controls.js] *)

Module Controls.
Import Three.

Record State : Type := mkState
  { hasDeviceOrientation : bool;
    controls : bool;                       (* [controls] is not [null] *)
    orientationProxy : Quaternion;         (* [orientationProxy.quaternion] *)
    smoothQ : Quaternion;
    orientationInitialized : bool;
    lastT : R;
    camera_quaternion : Quaternion;
    isMouseDown : bool;
    mouseX : R;
    mouseY : R;
    cameraRotationX : R;
    cameraRotationY : R;
    camera_rotation : R * R }.             (* [camera.rotation.x], [.y] *)

(** The module as loaded at time [now]. *)
Definition initial (now : R) : State :=
  {| hasDeviceOrientation := false; controls := false;
     orientationProxy := identity; smoothQ := identity;
     orientationInitialized := false; lastT := now;
     camera_quaternion := identity;
     isMouseDown := false; mouseX := 0; mouseY := 0;
     cameraRotationX := 0; cameraRotationY := 0; camera_rotation := (0, 0) |}.

Definition initDeviceOrientationControls (st : State) : State :=
  {| hasDeviceOrientation := true; controls := true;
     orientationProxy := orientationProxy st; smoothQ := smoothQ st;
     orientationInitialized := orientationInitialized st; lastT := lastT st;
     camera_quaternion := camera_quaternion st;
     isMouseDown := isMouseDown st; mouseX := mouseX st; mouseY := mouseY st;
     cameraRotationX := cameraRotationX st; cameraRotationY := cameraRotationY st;
     camera_rotation := camera_rotation st |}.

Definition setHasDeviceOrientation (value : bool) (st : State) : State :=
  {| hasDeviceOrientation := value; controls := controls st;
     orientationProxy := orientationProxy st; smoothQ := smoothQ st;
     orientationInitialized := orientationInitialized st; lastT := lastT st;
     camera_quaternion := camera_quaternion st;
     isMouseDown := isMouseDown st; mouseX := mouseX st; mouseY := mouseY st;
     cameraRotationX := cameraRotationX st; cameraRotationY := cameraRotationY st;
     camera_rotation := camera_rotation st |}.

Definition initMouseControls (st : State) : State :=
  {| hasDeviceOrientation := hasDeviceOrientation st; controls := controls st;
     orientationProxy := orientationProxy st; smoothQ := smoothQ st;
     orientationInitialized := orientationInitialized st; lastT := lastT st;
     camera_quaternion := camera_quaternion st;
     isMouseDown := isMouseDown st; mouseX := mouseX st; mouseY := mouseY st;
     cameraRotationX := PI / 2; cameraRotationY := 0;
     camera_rotation := (PI / 2, 0) |}.

Definition onMouseDown (clientX clientY : R) (st : State) : State :=
  {| hasDeviceOrientation := hasDeviceOrientation st; controls := controls st;
     orientationProxy := orientationProxy st; smoothQ := smoothQ st;
     orientationInitialized := orientationInitialized st; lastT := lastT st;
     camera_quaternion := camera_quaternion st;
     isMouseDown := true; mouseX := clientX; mouseY := clientY;
     cameraRotationX := cameraRotationX st; cameraRotationY := cameraRotationY st;
     camera_rotation := camera_rotation st |}.

Definition onMouseUp (st : State) : State :=
  {| hasDeviceOrientation := hasDeviceOrientation st; controls := controls st;
     orientationProxy := orientationProxy st; smoothQ := smoothQ st;
     orientationInitialized := orientationInitialized st; lastT := lastT st;
     camera_quaternion := camera_quaternion st;
     isMouseDown := false; mouseX := mouseX st; mouseY := mouseY st;
     cameraRotationX := cameraRotationX st; cameraRotationY := cameraRotationY st;
     camera_rotation := camera_rotation st |}.

Definition onMouseMove (clientX clientY : R) (st : State) : State :=
  if (negb (isMouseDown st) || hasDeviceOrientation st)%bool then st
  else
    let deltaX := clientX - mouseX st in
    let deltaY := clientY - mouseY st in
    let sensitivity := 0.002 in
    let yaw := cameraRotationY st - deltaX * sensitivity in
    let pitch :=
      JSMath.max (- PI / 2) (JSMath.min (PI / 2) (cameraRotationX st - deltaY * sensitivity)) in
    {| hasDeviceOrientation := hasDeviceOrientation st; controls := controls st;
       orientationProxy := orientationProxy st; smoothQ := smoothQ st;
       orientationInitialized := orientationInitialized st; lastT := lastT st;
       camera_quaternion := camera_quaternion st;
       isMouseDown := isMouseDown st; mouseX := clientX; mouseY := clientY;
       cameraRotationX := pitch; cameraRotationY := yaw;
       camera_rotation := (pitch, yaw) |}.

Section WithSlerp.

(** [Quaternion.prototype.slerp], from three.js. *)
Variable slerp : Quaternion -> Quaternion -> R -> Quaternion.

(** [updateControls(currentTime)]; [sample] is what [controls.update()]
    writes to [orientationProxy.quaternion] on this frame. *)
Definition updateControls (currentTime : R) (sample : Quaternion) (st : State) : State :=
  let dt := JSMath.max 0.001 ((currentTime - lastT st) / 1000) in
  if (hasDeviceOrientation st && controls st)%bool then
    let smoothQ0 := if orientationInitialized st then smoothQ st else sample in
    let targetQ := sample in
    let dot := clamp (Three.dot smoothQ0 targetQ) (-1) 1 in
    let ang := 2 * acos (JSMath.abs dot) in
    let k := clamp (ang / 0.25) 0 1 in
    let tau := lerp Config.TAU_SLOW Config.TAU_BASE k in
    let alpha := dt / (tau + dt) in
    let smoothQ1 := slerp smoothQ0 targetQ alpha in
    {| hasDeviceOrientation := hasDeviceOrientation st; controls := controls st;
       orientationProxy := sample; smoothQ := smoothQ1;
       orientationInitialized := true; lastT := currentTime;
       camera_quaternion := smoothQ1;
       isMouseDown := isMouseDown st; mouseX := mouseX st; mouseY := mouseY st;
       cameraRotationX := cameraRotationX st; cameraRotationY := cameraRotationY st;
       camera_rotation := camera_rotation st |}
  else
    {| hasDeviceOrientation := hasDeviceOrientation st; controls := controls st;
       orientationProxy := orientationProxy st; smoothQ := smoothQ st;
       orientationInitialized := orientationInitialized st; lastT := currentTime;
       camera_quaternion := camera_quaternion st;
       isMouseDown := isMouseDown st; mouseX := mouseX st; mouseY := mouseY st;
       cameraRotationX := cameraRotationX st; cameraRotationY := cameraRotationY st;
       camera_rotation := camera_rotation st |}.

(** The render loop with the raw orientation held at [raw]: frame [i]
    runs at time [times i]. *)
Fixpoint steady_frames (raw : Quaternion) (times : nat -> R) (n : nat) (st : State) : State :=
  match n with
  | O => st
  | S n' => updateControls (times n') raw (steady_frames raw times n' st)
  end.

End WithSlerp.

End Controls.

(** ** The orientation filter as the specification words it *)

Module OrientationSpec.
Import Three.

Definition unit (q : Quaternion) : Prop := dot q q = 1.

(** Shortest-arc angle between two rotations. *)
Definition angularDelta (q raw : Quaternion) : R :=
  2 * acos (Rabs (clamp (dot q raw) (-1) 1)).

Definition frame_dt (currentTime lastT : R) : R :=
  Rmax 0.001 ((currentTime - lastT) / 1000).

Definition blend_factor (q raw : Quaternion) : R :=
  clamp (angularDelta q raw / 0.25) 0 1.

Definition time_constant (q raw : Quaternion) : R :=
  lerp Config.TAU_SLOW Config.TAU_BASE (blend_factor q raw).

Definition blend_weight (dt : R) (q raw : Quaternion) : R :=
  dt / (time_constant q raw + dt).

Definition device_mode (st : Controls.State) : Prop :=
  Controls.hasDeviceOrientation st = true /\ Controls.controls st = true.

(** What the filter relies on from [Quaternion.slerp]: it maps unit
    quaternions to unit quaternions and leaves the fraction [1 - t] of the
    angle to the target. *)
Definition slerp_contract (slerp : Quaternion -> Quaternion -> R -> Quaternion) : Prop :=
  forall qa qb t, unit qa -> unit qb -> 0 <= t <= 1 ->
    unit (slerp qa qb t) /\
    angularDelta (slerp qa qb t) qb = (1 - t) * angularDelta qa qb.

(** A device held still, seen by a filter that has already run: the
    smoothed rotation is the identity, the raw one a half turn about x. *)
Definition half_turn : Quaternion := {| qx := 1; qy := 0; qz := 0; qw := 0 |}.

Definition running_filter : Controls.State :=
  {| Controls.hasDeviceOrientation := true; Controls.controls := true;
     Controls.orientationProxy := identity; Controls.smoothQ := identity;
     Controls.orientationInitialized := true; Controls.lastT := 0;
     Controls.camera_quaternion := identity;
     Controls.isMouseDown := false; Controls.mouseX := 0; Controls.mouseY := 0;
     Controls.cameraRotationX := 0; Controls.cameraRotationY := 0;
     Controls.camera_rotation := (0, 0) |}.

End OrientationSpec.

(** ** [geolocation.js] *)

Module Geolocation.
Import Config.

(** What the module does to the outside, in order. *)
Inductive Effect : Type :=
| Alert                          (* [showFallbackLocationAlert] *)
| PositionQueryOnce              (* [getCurrentPosition] from [getLatLonOnce] *)
| PositionCheck                  (* [getCurrentPosition] from the polling timer *)
| RefreshTiles (loc : LatLon)    (* [refreshTilesCallback(lat, lon)] *)
| LoadTiles (loc : LatLon)       (* [loadTileGridTextures(lat, lon)] from [startAR] *)
| UpdateDisplay.                 (* [updateCurrentLocationDisplayCallback()] *)

Record Settings : Type := mkSettings
  { s_isLiveTrackingEnabled : bool;
    s_gpsUpdateInterval : R;
    s_selectedLocation : option LatLon }.

Record State : Type := mkState
  { gpsOverride : option LatLon;
    currentLocation : option LatLon;
    selectedLocation : option LatLon;
    isLiveTrackingEnabled : bool;
    gpsUpdateInterval : R;
    gpsDistanceThreshold : R;
    gpsTrackingIntervalId : option nat;
    lastKnownPosition : option LatLon;
    modalOriginalSettings : Settings;
    (* the browser *)
    geolocationAvailable : bool;           (* [navigator.geolocation] *)
    timers : list (nat * R);               (* intervals set and not cleared, with their period *)
    nextTimerId : nat;                     (* [setInterval] returns positive integers *)
    effects : list Effect }.               (* newest last *)

Definition initial (available : bool) : State :=
  {| gpsOverride := None; currentLocation := None; selectedLocation := None;
     isLiveTrackingEnabled := true; gpsUpdateInterval := GPS_UPDATE_INTERVAL;
     gpsDistanceThreshold := GPS_DISTANCE_THRESHOLD;
     gpsTrackingIntervalId := None; lastKnownPosition := None;
     modalOriginalSettings :=
       {| s_isLiveTrackingEnabled := true; s_gpsUpdateInterval := GPS_UPDATE_INTERVAL;
          s_selectedLocation := None |};
     geolocationAvailable := available; timers := []; nextTimerId := 1;
     effects := [] |}.

(** *** Setters *)

Definition setGpsOverride (override : option LatLon) (st : State) : State :=
  {| gpsOverride := override; currentLocation := currentLocation st;
     selectedLocation := selectedLocation st;
     isLiveTrackingEnabled := isLiveTrackingEnabled st;
     gpsUpdateInterval := gpsUpdateInterval st;
     gpsDistanceThreshold := gpsDistanceThreshold st;
     gpsTrackingIntervalId := gpsTrackingIntervalId st;
     lastKnownPosition := lastKnownPosition st;
     modalOriginalSettings := modalOriginalSettings st;
     geolocationAvailable := geolocationAvailable st; timers := timers st;
     nextTimerId := nextTimerId st; effects := effects st |}.

Definition setCurrentLocation (location : option LatLon) (st : State) : State :=
  {| gpsOverride := gpsOverride st; currentLocation := location;
     selectedLocation := selectedLocation st;
     isLiveTrackingEnabled := isLiveTrackingEnabled st;
     gpsUpdateInterval := gpsUpdateInterval st;
     gpsDistanceThreshold := gpsDistanceThreshold st;
     gpsTrackingIntervalId := gpsTrackingIntervalId st;
     lastKnownPosition := lastKnownPosition st;
     modalOriginalSettings := modalOriginalSettings st;
     geolocationAvailable := geolocationAvailable st; timers := timers st;
     nextTimerId := nextTimerId st; effects := effects st |}.

Definition setSelectedLocation (location : option LatLon) (st : State) : State :=
  {| gpsOverride := gpsOverride st; currentLocation := currentLocation st;
     selectedLocation := location;
     isLiveTrackingEnabled := isLiveTrackingEnabled st;
     gpsUpdateInterval := gpsUpdateInterval st;
     gpsDistanceThreshold := gpsDistanceThreshold st;
     gpsTrackingIntervalId := gpsTrackingIntervalId st;
     lastKnownPosition := lastKnownPosition st;
     modalOriginalSettings := modalOriginalSettings st;
     geolocationAvailable := geolocationAvailable st; timers := timers st;
     nextTimerId := nextTimerId st; effects := effects st |}.

Definition setIsLiveTrackingEnabled (enabled : bool) (st : State) : State :=
  {| gpsOverride := gpsOverride st; currentLocation := currentLocation st;
     selectedLocation := selectedLocation st;
     isLiveTrackingEnabled := enabled;
     gpsUpdateInterval := gpsUpdateInterval st;
     gpsDistanceThreshold := gpsDistanceThreshold st;
     gpsTrackingIntervalId := gpsTrackingIntervalId st;
     lastKnownPosition := lastKnownPosition st;
     modalOriginalSettings := modalOriginalSettings st;
     geolocationAvailable := geolocationAvailable st; timers := timers st;
     nextTimerId := nextTimerId st; effects := effects st |}.

Definition setGpsUpdateInterval (interval : R) (st : State) : State :=
  {| gpsOverride := gpsOverride st; currentLocation := currentLocation st;
     selectedLocation := selectedLocation st;
     isLiveTrackingEnabled := isLiveTrackingEnabled st;
     gpsUpdateInterval := interval;
     gpsDistanceThreshold := gpsDistanceThreshold st;
     gpsTrackingIntervalId := gpsTrackingIntervalId st;
     lastKnownPosition := lastKnownPosition st;
     modalOriginalSettings := modalOriginalSettings st;
     geolocationAvailable := geolocationAvailable st; timers := timers st;
     nextTimerId := nextTimerId st; effects := effects st |}.

Definition setLastKnownPosition (position : option LatLon) (st : State) : State :=
  {| gpsOverride := gpsOverride st; currentLocation := currentLocation st;
     selectedLocation := selectedLocation st;
     isLiveTrackingEnabled := isLiveTrackingEnabled st;
     gpsUpdateInterval := gpsUpdateInterval st;
     gpsDistanceThreshold := gpsDistanceThreshold st;
     gpsTrackingIntervalId := gpsTrackingIntervalId st;
     lastKnownPosition := position;
     modalOriginalSettings := modalOriginalSettings st;
     geolocationAvailable := geolocationAvailable st; timers := timers st;
     nextTimerId := nextTimerId st; effects := effects st |}.

Definition setModalOriginalSettings (settings : Settings) (st : State) : State :=
  {| gpsOverride := gpsOverride st; currentLocation := currentLocation st;
     selectedLocation := selectedLocation st;
     isLiveTrackingEnabled := isLiveTrackingEnabled st;
     gpsUpdateInterval := gpsUpdateInterval st;
     gpsDistanceThreshold := gpsDistanceThreshold st;
     gpsTrackingIntervalId := gpsTrackingIntervalId st;
     lastKnownPosition := lastKnownPosition st;
     modalOriginalSettings := settings;
     geolocationAvailable := geolocationAvailable st; timers := timers st;
     nextTimerId := nextTimerId st; effects := effects st |}.

Definition with_timer (id : option nat) (ts : list (nat * R)) (next : nat) (st : State) : State :=
  {| gpsOverride := gpsOverride st; currentLocation := currentLocation st;
     selectedLocation := selectedLocation st;
     isLiveTrackingEnabled := isLiveTrackingEnabled st;
     gpsUpdateInterval := gpsUpdateInterval st;
     gpsDistanceThreshold := gpsDistanceThreshold st;
     gpsTrackingIntervalId := id;
     lastKnownPosition := lastKnownPosition st;
     modalOriginalSettings := modalOriginalSettings st;
     geolocationAvailable := geolocationAvailable st; timers := ts;
     nextTimerId := next; effects := effects st |}.

Definition emit (e : Effect) (st : State) : State :=
  {| gpsOverride := gpsOverride st; currentLocation := currentLocation st;
     selectedLocation := selectedLocation st;
     isLiveTrackingEnabled := isLiveTrackingEnabled st;
     gpsUpdateInterval := gpsUpdateInterval st;
     gpsDistanceThreshold := gpsDistanceThreshold st;
     gpsTrackingIntervalId := gpsTrackingIntervalId st;
     lastKnownPosition := lastKnownPosition st;
     modalOriginalSettings := modalOriginalSettings st;
     geolocationAvailable := geolocationAvailable st; timers := timers st;
     nextTimerId := nextTimerId st; effects := effects st ++ [e] |}.

(** *** [getLatLonOnce]

    The promise either resolves during the call, or waits for the
    geolocation query it started; the query ends in one of the two
    callbacks, [getLatLonOnce_success] or [getLatLonOnce_error]. *)

Inductive Settled : Type :=
| Resolved (loc : LatLon)
| Rejected.

Inductive Outcome : Type :=
| Now (r : Settled)
| Awaiting.

Definition showFallbackLocationAlert (st : State) : State := emit Alert st.

Definition getLatLonOnce (st : State) : State * Outcome :=
  match gpsOverride st with
  | Some override => (st, Now (Resolved override))
  | None =>
      if negb (geolocationAvailable st) then
        let st1 := showFallbackLocationAlert st in
        let location := FALLBACK in
        (setCurrentLocation (Some location) st1, Now (Resolved location))
      else (emit PositionQueryOnce st, Awaiting)
  end.

Definition getLatLonOnce_success (p : LatLon) (st : State) : State * Settled :=
  let location := {| lat := lat p; lon := lon p |} in
  (setLastKnownPosition (Some location) (setCurrentLocation (Some location) st),
   Resolved location).

Definition getLatLonOnce_error (st : State) : State * Settled :=
  let st1 := showFallbackLocationAlert st in
  let location := FALLBACK in
  (setLastKnownPosition (Some location) (setCurrentLocation (Some location) st1),
   Resolved location).

(** *** Periodic tracking *)

(** [if (gpsOverride)]: an object is truthy, [null] is falsy. *)
Definition is_set {A : Type} (o : option A) : bool :=
  match o with Some _ => true | None => false end.

(** [if (gpsTrackingIntervalId)]: [null] and [0] are falsy. *)
Definition truthy (id : option nat) : bool :=
  match id with
  | Some (S _) => true
  | _ => false
  end.

Definition clearInterval (id : nat) (ts : list (nat * R)) : list (nat * R) :=
  filter (fun t => negb (Nat.eqb (fst t) id)) ts.

Definition stopGPSTracking (st : State) : State :=
  match gpsTrackingIntervalId st with
  | Some id =>
      if truthy (Some id) then with_timer None (clearInterval id (timers st)) (nextTimerId st) st
      else st
  | None => st
  end.

Definition startGPSTracking (st : State) : State :=
  match gpsOverride st with
  | Some _ => st
  | None =>
      let st1 := stopGPSTracking st in
      let id := nextTimerId st1 in
      with_timer (Some id) (timers st1 ++ [(id, gpsUpdateInterval st1 * 1000)]) (S id) st1
  end.

(** The [.then] of [refreshLocationAndTiles]. *)
Definition refresh_located (loc : LatLon) (st : State) : State :=
  emit UpdateDisplay (emit (RefreshTiles loc) st).

Definition refreshLocationAndTiles (st : State) : State :=
  match getLatLonOnce st with
  | (st1, Now (Resolved loc)) => refresh_located loc st1
  | (st1, _) => st1
  end.

(** The function handed to [setInterval], for the interval [id]. *)
Definition tracking_tick (id : nat) (st : State) : State :=
  if existsb (fun t => Nat.eqb (fst t) id) (timers st) then
    match gpsOverride st with
    | Some _ => stopGPSTracking st
    | None =>
        if negb (geolocationAvailable st) then st
        else emit PositionCheck st
    end
  else st.

(** The success callback of the polling query. *)
Definition tracking_position (p : LatLon) (st : State) : State :=
  let newLat := lat p in
  let newLon := lon p in
  match lastKnownPosition st with
  | Some last =>
      let distance := Utils.calculateDistance (lat last) (lon last) newLat newLon in
      if Rlt_dec (gpsDistanceThreshold st) distance then
        refreshLocationAndTiles
          (setCurrentLocation (Some {| lat := newLat; lon := newLon |})
             (setLastKnownPosition (Some {| lat := newLat; lon := newLon |}) st))
      else st
  | None =>
      setCurrentLocation (Some {| lat := newLat; lon := newLon |})
        (setLastKnownPosition (Some {| lat := newLat; lon := newLon |}) st)
  end.

Definition tracking_error (st : State) : State := st.

End Geolocation.

(** ** [ui.js]: the handlers that start, suspend and resume tracking *)

Module UI.
Import Config Geolocation.

Record State : Type := mkState
  { geo : Geolocation.State;
    started : bool }.

Definition initial (available : bool) : State :=
  {| geo := Geolocation.initial available; started := false |}.

Definition on_geo (f : Geolocation.State -> Geolocation.State) (st : State) : State :=
  {| geo := f (geo st); started := started st |}.

(** [startAR], from the point where the location is known. *)
Definition startAR_located (loc : LatLon) (st : State) : State :=
  let g := emit (LoadTiles loc) (geo st) in
  let g1 :=
    if (isLiveTrackingEnabled g && negb (is_set (gpsOverride g)))%bool
    then startGPSTracking g else g in
  {| geo := g1; started := true |}.

(** [startAR] with controls available, up to the location query. *)
Definition startAR (st : State) : State :=
  if started st then st
  else
    match getLatLonOnce (geo st) with
    | (g, Now (Resolved loc)) => startAR_located loc {| geo := g; started := started st |}
    | (g, _) => {| geo := g; started := started st |}
    end.

(** [startAR] on a mobile device that refused motion access. *)
Definition startAR_denied (st : State) : State :=
  {| geo := geo st; started := true |}.

Definition openGPSModal (st : State) : State :=
  on_geo (fun g =>
            setModalOriginalSettings
              {| s_isLiveTrackingEnabled := isLiveTrackingEnabled g;
                 s_gpsUpdateInterval := gpsUpdateInterval g;
                 s_selectedLocation := selectedLocation g |} g) st.

Definition closeGPSModal (st : State) : State :=
  on_geo (fun g =>
            let original := modalOriginalSettings g in
            setSelectedLocation (s_selectedLocation original)
              (setGpsUpdateInterval (s_gpsUpdateInterval original)
                 (setIsLiveTrackingEnabled (s_isLiveTrackingEnabled original) g))) st.

(** The [change] handler of the live-tracking toggle. *)
Definition onLiveTrackingToggle (checked : bool) (st : State) : State :=
  let g := setIsLiveTrackingEnabled checked (geo st) in
  let settings := modalOriginalSettings g in
  let g1 :=
    setModalOriginalSettings
      {| s_isLiveTrackingEnabled := checked;
         s_gpsUpdateInterval := s_gpsUpdateInterval settings;
         s_selectedLocation := s_selectedLocation settings |} g in
  let g2 :=
    if (started st && negb (is_set (gpsOverride g1)))%bool then
      if checked then startGPSTracking g1 else stopGPSTracking g1
    else g1 in
  {| geo := g2; started := started st |}.

(** The [change] handler of the update-frequency selector. *)
Definition onUpdateFrequency (interval : R) (st : State) : State :=
  let g := setGpsUpdateInterval interval (geo st) in
  let settings := modalOriginalSettings g in
  let g1 :=
    setModalOriginalSettings
      {| s_isLiveTrackingEnabled := s_isLiveTrackingEnabled settings;
         s_gpsUpdateInterval := interval;
         s_selectedLocation := s_selectedLocation settings |} g in
  let g2 :=
    if (started st && isLiveTrackingEnabled g1
        && negb (is_set (gpsOverride g1)))%bool
    then startGPSTracking g1 else g1 in
  {| geo := g2; started := started st |}.

Definition useCurrentGPS (st : State) : State :=
  let g := setSelectedLocation None (setGpsOverride None (geo st)) in
  let g1 := setIsLiveTrackingEnabled true g in
  let g2 :=
    setModalOriginalSettings
      {| s_isLiveTrackingEnabled := true;
         s_gpsUpdateInterval := gpsUpdateInterval g1;
         s_selectedLocation := None |} g1 in
  let g3 := if started st then startGPSTracking g2 else g2 in
  {| geo := refreshLocationAndTiles g3; started := started st |}.

Definition applySelectedLocation (st : State) : State :=
  match selectedLocation (geo st) with
  | None => st                                  (* an alert, and nothing else *)
  | Some sel =>
      let g := setGpsOverride (Some {| lat := lat sel; lon := lon sel |}) (geo st) in
      let g1 := stopGPSTracking g in
      let g2 := setIsLiveTrackingEnabled false g1 in
      let g3 :=
        setModalOriginalSettings
          {| s_isLiveTrackingEnabled := false;
             s_gpsUpdateInterval := gpsUpdateInterval g2;
             s_selectedLocation := Some sel |} g2 in
      {| geo := refreshLocationAndTiles g3; started := started st |}
  end.

(** *** Everything that can happen to the tracker *)

Inductive Waiter : Type :=
| ForStartAR      (* the [await getLatLonOnce()] of [startAR] *)
| ForRefresh.     (* the [.then] of [refreshLocationAndTiles] *)

Inductive Event : Type :=
| StartAR
| StartARDenied
| OnceSucceeds (w : Waiter) (p : LatLon)   (* a [getLatLonOnce] query succeeds *)
| OnceFails (w : Waiter)                   (* ... or fails *)
| Tick (id : nat)                          (* the interval [id] fires *)
| CheckSucceeds (p : LatLon)               (* a polling query succeeds *)
| CheckFails
| RefreshRequested                         (* [refreshLocationAndTiles] from elsewhere *)
| SelectLocation (loc : LatLon)            (* a click on the map *)
| OpenModal
| CloseModal
| LiveTrackingToggled (checked : bool)
| UpdateFrequencyChanged (interval : R)
| UseCurrentGPS
| ApplySelectedLocation.

Definition resume (w : Waiter) (r : Geolocation.State * Settled) (st : State) : State :=
  match w, snd r with
  | ForStartAR, Resolved loc => startAR_located loc {| geo := fst r; started := started st |}
  | ForRefresh, Resolved loc => {| geo := refresh_located loc (fst r); started := started st |}
  | _, Rejected => {| geo := fst r; started := started st |}
  end.

Definition step (st : State) (e : Event) : State :=
  match e with
  | StartAR => startAR st
  | StartARDenied => startAR_denied st
  | OnceSucceeds w p => resume w (getLatLonOnce_success p (geo st)) st
  | OnceFails w => resume w (getLatLonOnce_error (geo st)) st
  | Tick id => on_geo (tracking_tick id) st
  | CheckSucceeds p => on_geo (tracking_position p) st
  | CheckFails => on_geo tracking_error st
  | RefreshRequested => on_geo refreshLocationAndTiles st
  | SelectLocation loc => on_geo (setSelectedLocation (Some loc)) st
  | OpenModal => openGPSModal st
  | CloseModal => closeGPSModal st
  | LiveTrackingToggled checked => onLiveTrackingToggle checked st
  | UpdateFrequencyChanged interval => onUpdateFrequency interval st
  | UseCurrentGPS => useCurrentGPS st
  | ApplySelectedLocation => applySelectedLocation st
  end.

Definition run (evs : list Event) (st : State) : State := fold_left step evs st.

End UI.

(** ** The tracker as the specification words it *)

Module TrackerSpec.
Import Geolocation UI.

Definition is_check (e : Effect) : bool :=
  match e with PositionCheck => true | _ => false end.

(** How many position checks the polling timer has made so far. *)
Definition position_checks (st : UI.State) : nat :=
  length (filter is_check (effects (geo st))).

Definition override_set (st : UI.State) : Prop := gpsOverride (geo st) <> None.

(** Live tracking is running: the session has started and the interval
    [id], the only one set, is the tracker's. *)
Definition tracking_running (st : UI.State) (id : nat) : Prop :=
  started st = true /\ gpsOverride (geo st) = None /\
  gpsTrackingIntervalId (geo st) = Some id /\
  List.map fst (timers (geo st)) = [id] /\
  (0 < id < nextTimerId (geo st))%nat.

Definition clears_override (e : Event) : bool :=
  match e with UseCurrentGPS => true | _ => false end.

(** A session on a device with geolocation: the viewer started it, was
    located, and picked a place on the map. *)
Definition paris : Config.LatLon := {| Config.lat := 48; Config.lon := 2 |}.

Definition live_session : UI.State :=
  run [StartAR; OnceSucceeds ForStartAR Config.FALLBACK; SelectLocation paris]
    (UI.initial true).

(** The part of the state the timer discipline is about. *)
Definition timer_view (g : Geolocation.State)
  : option Config.LatLon * option nat * list (nat * R) * nat :=
  (gpsOverride g, gpsTrackingIntervalId g, timers g, nextTimerId g).

(** What holds of the tracker at all times: interval identifiers are
    positive; the tracker's interval, if any, is the only one set, and then
    the session has started and no override is set. *)
Definition timer_ok (started : bool)
    (v : option Config.LatLon * option nat * list (nat * R) * nat) : Prop :=
  let '(override, tid, ts, next) := v in
  (1 <= next)%nat /\
  match tid with
  | Some id =>
      List.map fst ts = [id] /\ (0 < id < next)%nat /\
      started = true /\ override = None
  | None => ts = []
  end.

Definition tracker_inv (st : UI.State) : Prop :=
  timer_ok (started st) (timer_view (geo st)).

(** Polling is suspended: the override is set and no interval is. *)
Definition suspended (st : UI.State) : Prop :=
  override_set st /\ timers (geo st) = [] /\ gpsTrackingIntervalId (geo st) = None.

End TrackerSpec.

(** ** The grid a rebuild is expected to produce *)

Module GridSpec.
Import Tiles.

(** The 9 relative offsets, in the order the loops visit them. *)
Definition offsets9 : list (Z * Z) := list_prod minus1_to_1 minus1_to_1.

(** World position of the cell at relative offset [(dx, dy)]: the centre
    cell's position, moved by [dx] tiles along x and by [-dy] tiles along z. *)
Definition center_position (po : Z * Z) : R * R :=
  (Config.TILE_SIZE / 2 - IZR (fst po), Config.TILE_SIZE / 2 - IZR (snd po)).

Definition cell_position (po : Z * Z) (dx dy : Z) : R * R :=
  (fst (center_position po) + IZR dx * Config.TILE_SIZE,
   snd (center_position po) - IZR dy * Config.TILE_SIZE).

Definition cell_key (cx cy : Z) (o : Z * Z) : Key := ((cx + fst o)%Z, (cy + snd o)%Z).

Fixpoint new_planes (nm : nat) (sky : R) (po : Z * Z) (offs : list (Z * Z)) : list Plane :=
  match offs with
  | [] => []
  | o :: t =>
      {| pl_material := nm;
         pl_position := (fst (cell_position po (fst o) (snd o)), sky,
                         snd (cell_position po (fst o) (snd o)));
         pl_rotation_x := - PI / 2; geometry_disposed := false |}
      :: new_planes (S nm) sky po t
  end.

Fixpoint new_entries (np nm : nat) (cx cy : Z) (offs : list (Z * Z)) : Grid :=
  match offs with
  | [] => []
  | o :: t =>
      (cell_key cx cy o,
       {| plane := np; material := nm;
          tileX := (cx + fst o)%Z; tileY := (cy + snd o)%Z;
          relativeX := fst o; relativeY := snd o |})
      :: new_entries (S np) (S nm) cx cy t
  end.

Definition build_cells (cx cy : Z) (offs : list (Z * Z)) (st : State) : State :=
  fold_left (fun st o => buildTileGrid_cell cx cy (fst o) (snd o) st) offs st.

(** The state after the cells of [offs] were added to a state whose group
    [g] exists. *)
Definition built (cx cy : Z) (offs : list (Z * Z)) (g : nat) (st : State) : State :=
  {| SKY_HEIGHT := SKY_HEIGHT st;
     tileGrid := tileGrid st
                 ++ new_entries (length (planes st)) (length (materials st)) cx cy offs;
     centerTile := centerTile st;
     currentPixelOffsets := currentPixelOffsets st;
     tileGroup := Some g;
     getOpacityCallback := getOpacityCallback st;
     materials := materials st ++ repeat createAlphaFogMaterial (length offs);
     planes := planes st
               ++ new_planes (length (materials st)) (SKY_HEIGHT st)
                    (currentPixelOffsets st) offs;
     groups := Store.update g
                 (fun children => children ++ seq (length (planes st)) (length offs))
                 (groups st);
     scene := scene st; rebuilds := rebuilds st; fetches := fetches st |}.

(** The state in which [loadTileGridTextures] leaves the fetches running:
    the old objects are all still there, followed by the new ones. *)
Definition loaded (lat lon : R) (st : State) : State :=
  let tc := Utils.latLonToTile lat lon Config.ZOOM_LEVEL Config.TILE_SIZE in
  let np := length (planes st) in
  let nm := length (materials st) in
  let entries := new_entries np nm (Utils.tileX tc) (Utils.tileY tc) offsets9 in
  {| SKY_HEIGHT := SKY_HEIGHT st;
     tileGrid := entries;
     centerTile := (Utils.tileX tc, Utils.tileY tc);
     currentPixelOffsets := (Utils.pixelX tc, Utils.pixelY tc);
     tileGroup := Some (length (groups st));
     getOpacityCallback := getOpacityCallback st;
     materials := materials st ++ repeat createAlphaFogMaterial 9;
     planes := planes st
               ++ new_planes nm (SKY_HEIGHT st) (Utils.pixelX tc, Utils.pixelY tc) offsets9;
     groups := groups st ++ [seq np 9];
     scene := scene st ++ [length (groups st)];
     rebuilds := rebuilds st
                 ++ [{| oldTileGrid := tileGrid st; oldTileGroup := tileGroup st;
                        loadedCount := 0; totalTiles := 9;
                        newTileMaterials := seq nm 9 |}];
     fetches := fetches st
                ++ List.map
                     (fun e => {| f_tileX := tileX (snd e); f_tileY := tileY (snd e);
                                  f_material := material (snd e);
                                  f_rebuild := length (rebuilds st) |})
                     entries |}.

(** The rebuild's closure once [k] callbacks have run. *)
Definition closure (st : State) (k : nat) : Rebuild :=
  {| oldTileGrid := tileGrid st; oldTileGroup := tileGroup st;
     loadedCount := k; totalTiles := 9;
     newTileMaterials := seq (length (materials st)) 9 |}.

(** The state while fetches are in flight: [k] callbacks have run and the
    new materials are [ms]. *)
Definition pending (lat lon : R) (st : State) (k : nat) (ms : list Material) : State :=
  let l := loaded lat lon st in
  with_rebuilds (rebuilds st ++ [closure st k]) (fetches l)
    (with_objects (materials st ++ ms) (planes l) (groups l) (scene l) l).

(** The material identities behind the meshes of a grid, and the group
    after the meshes of a grid were detached from it. *)
Definition cell_material_ids (ps : list Plane) (L : Grid) : list nat :=
  flat_map (fun e => match nth_error ps (plane (snd e)) with
                     | Some p => [pl_material p]
                     | None => []
                     end) L.

Definition detach_all (og : option nat) (L : Grid) (gs : list (list nat)) : list (list nat) :=
  match og with
  | Some g => fold_left (fun gs e => Store.update g (Store.remove_id (plane (snd e))) gs) L gs
  | None => gs
  end.

(** *** What an observer of the scene can tell *)

(** Every object allocated before the rebuild is as it was, and every group
    that was on the scene still is. *)
Definition old_untouched (st s : State) : Prop :=
  (exists ms, materials s = materials st ++ ms) /\
  (exists ps, planes s = planes st ++ ps) /\
  (exists gs, groups s = groups st ++ gs) /\
  (exists sc, scene s = scene st ++ sc).

Definition cell_opacity (s : State) (v : R) (e : Key * TileData) : Prop :=
  exists m, nth_error (materials s) (material (snd e)) = Some m /\ opacity m = v.

(** The mesh of the cell was detached from the group [og] and its geometry
    and material were disposed of. *)
Definition cell_released (og : option nat) (s : State) (e : Key * TileData) : Prop :=
  (exists p, nth_error (planes s) (plane (snd e)) = Some p /\
             geometry_disposed p = true /\
             exists m, nth_error (materials s) (pl_material p) = Some m /\
                       mat_disposed m = true) /\
  (forall g children, og = Some g -> nth_error (groups s) g = Some children ->
                      ~ In (plane (snd e)) children).

Definition group_off_scene (og : option nat) (s : State) : Prop :=
  forall g, og = Some g -> ~ In g (scene s).

(** The fetches a rebuild from [st] starts, and a trace of settlements of
    these fetches: each fetch settles at most once, loaded or failed. *)
Definition fetch_of_rebuild (st : State) (f : nat) : Prop :=
  (length (fetches st) <= f < length (fetches st) + 9)%nat.

Definition settlements (st : State) (evs : list (nat * bool)) : Prop :=
  Forall (fun e => fetch_of_rebuild st (fst e)) evs /\ NoDup (List.map fst evs).

Definition all_settled (st : State) (evs : list (nat * bool)) : Prop :=
  forall f, fetch_of_rebuild st f -> In f (List.map fst evs).

Definition hidden (m : Material) : Prop := opacity m = 0.

Definition callback_opacity (st : State) : R :=
  match getOpacityCallback st with Some v => v | None => 0.5 end.

(** What no callback changes. *)
Definition same_frame (s s' : State) : Prop :=
  tileGrid s' = tileGrid s /\ tileGroup s' = tileGroup s /\
  centerTile s' = centerTile s /\ currentPixelOffsets s' = currentPixelOffsets s /\
  SKY_HEIGHT s' = SKY_HEIGHT s /\ getOpacityCallback s' = getOpacityCallback s /\
  List.map pl_material (planes s') = List.map pl_material (planes s) /\
  List.map pl_position (planes s') = List.map pl_position (planes s) /\
  length (materials s') = length (materials s) /\
  length (groups s') = length (groups s) /\
  fetches s' = fetches s.

(** Well-formed references: every cell of the grid names an allocated mesh
    whose material is the cell's, and that material is allocated. *)
Definition wf (st : State) : Prop :=
  (forall e, In e (tileGrid st) ->
     exists p, nth_error (planes st) (plane (snd e)) = Some p /\
               pl_material p = material (snd e) /\
               (material (snd e) < length (materials st))%nat) /\
  (forall g, tileGroup st = Some g -> (g < length (groups st))%nat).

End GridSpec.

(** ** The projection as the specification words it *)

Module ProjectionSpec.

Definition norm_x (lon : R) : R := (lon + 180) / 360.
Definition norm_y (lat : R) : R :=
  (1 - ln (tan (PI / 4 + lat * PI / 360)) / PI) / 2.
Definition scale (zoom : R) : R := Rpower 2 zoom.

Definition tile_index (u zoom : R) : Z := Zfloor (u * scale zoom).
Definition pixel_offset (u zoom tileSize : R) : Z :=
  Zfloor ((u * scale zoom - IZR (tile_index u zoom)) * tileSize).




End ProjectionSpec.

(** ** [controls.js]: the mouse listeners [initMouseControls] installs *)

Module MouseLook.
Import Controls.

Inductive MouseEvent : Type :=
| MouseDown (clientX clientY : R)
| MouseUp
| MouseMove (clientX clientY : R).

Definition handle (st : State) (e : MouseEvent) : State :=
  match e with
  | MouseDown x y => onMouseDown x y st
  | MouseUp => onMouseUp st
  | MouseMove x y => onMouseMove x y st
  end.

Definition dispatch (evs : list MouseEvent) (st : State) : State :=
  fold_left handle evs st.

(** A drag: the button goes down at [start] and the pointer visits [path]. *)
Definition drag (start : R * R) (path : list (R * R)) : list MouseEvent :=
  MouseDown (fst start) (snd start) :: List.map (fun p => MouseMove (fst p) (snd p)) path.

End MouseLook.

(** ** Two rebuilds under way at once *)

Module OverlapSpec.
Import Tiles GridSpec.

(** Nothing comes back: from [s] to [s'] every mesh and material is still
    there, a mesh keeps its material, what was disposed of stays so, and
    groups and the scene only lose members. *)
Definition fades (s s' : State) : Prop :=
  (forall i p, nth_error (planes s) i = Some p ->
     exists p', nth_error (planes s') i = Some p' /\ pl_material p' = pl_material p /\
                (geometry_disposed p = true -> geometry_disposed p' = true)) /\
  (forall i m, nth_error (materials s) i = Some m ->
     exists m', nth_error (materials s') i = Some m' /\
                (mat_disposed m = true -> mat_disposed m' = true)) /\
  (forall g children', nth_error (groups s') g = Some children' ->
     exists children, nth_error (groups s) g = Some children /\ incl children' children) /\
  incl (scene s') (scene s).

Definition opacity_at (s : State) (i : nat) : option R :=
  option_map opacity (nth_error (materials s) i).

(** A grid is gone: its cells are released and its group is off the scene. *)
Definition grid_released (og : option nat) (L : Grid) (s : State) : Prop :=
  (forall e, In e L -> cell_released og s e) /\ group_off_scene og s.

(** Every cell of [L] refers to a mesh of [s] whose material is allocated. *)
Definition refs_valid (L : Grid) (s : State) : Prop :=
  forall e, In e L ->
    exists p, nth_error (planes s) (plane (snd e)) = Some p /\
              (pl_material p < length (materials s))%nat.

(** A fetch of the first of two rebuilds started from [st]. *)
Definition first_rebuild (st : State) (e : nat * bool) : bool :=
  (fst e <? length (fetches st) + 9)%nat.

(** The state of two rebuilds, the first started from [st0], the second
    from [P] and leaving [L], after [n1] and [n2] of their callbacks. *)
Definition overlap_inv (st0 P L s : State) (n1 n2 : nat) : Prop :=
  same_frame L s /\
  nth_error (rebuilds s) (length (rebuilds st0)) = Some (closure st0 n1) /\
  nth_error (rebuilds s) (S (length (rebuilds st0))) = Some (closure P n2) /\
  ((9 <= n1)%nat -> grid_released (tileGroup st0) (tileGrid st0) s) /\
  ((9 <= n2)%nat ->
     grid_released (tileGroup P) (tileGrid P) s /\
     forall i, In i (seq (length (materials P)) 9) ->
               opacity_at s i = Some (callback_opacity st0)).

End OverlapSpec.

(** ** The tracker's settings, as a session keeps them *)

Module SessionSpec.
Import Geolocation UI TrackerSpec.

(** The part of the state the settings discipline is about. *)
Definition settings_view (g : Geolocation.State)
  : bool * R * Settings * list (nat * R) :=
  (isLiveTrackingEnabled g, gpsUpdateInterval g, modalOriginalSettings g, timers g).

(** The saved settings are the settings in force, and an interval that is
    set polls with the period in force, live tracking being enabled. *)
Definition settings_ok (v : bool * R * Settings * list (nat * R)) : Prop :=
  let '(live, interval, original, ts) := v in
  s_isLiveTrackingEnabled original = live /\
  s_gpsUpdateInterval original = interval /\
  forall t, In t ts -> live = true /\ snd t = interval * 1000.

Definition session_inv (st : UI.State) : Prop :=
  tracker_inv st /\ settings_ok (settings_view (geo st)).

(** The tile refreshes requested so far, oldest first. *)
Definition refreshed_at (g : Geolocation.State) : list Config.LatLon :=
  flat_map (fun e => match e with RefreshTiles loc => [loc] | _ => [] end) (effects g).

End SessionSpec.

(** ** [map.js]: the map of the location modal

    The page's elements are taken to exist.  A coordinate display holds the
    location it shows ([toFixed] is left out), an input field the number
    [parseFloat] reads in it. *)

Module LocationMap.
Import Config Geolocation.

Record State : Type := mkState
  { locationMap : option (LatLon * R);        (* the Leaflet map: view centre and zoom *)
    locationMarker : option LatLon;
    listeners : nat;                          (* [click] listeners registered on the map *)
    selectedCoordsDisplay : option LatLon;    (* [None]: 'Click on map to select' *)
    toggle_checked : bool;                    (* [liveTrackingToggle.checked] *)
    toggle_disabled : bool;                   (* [liveTrackingToggle.disabled] *)
    frequency_disabled : bool;                (* [updateFrequencySelect.disabled] *)
    manualInputs_hidden : bool;
    gpsLatInput : option R;                   (* [None]: not a number *)
    gpsLonInput : option R }.

Definition initial : State :=
  {| locationMap := None; locationMarker := None; listeners := 0;
     selectedCoordsDisplay := None; toggle_checked := true; toggle_disabled := false;
     frequency_disabled := false; manualInputs_hidden := true;
     gpsLatInput := None; gpsLonInput := None |}.

(** [a || b] on numbers that may be [undefined]: [undefined] and [0] are
    falsy. *)
Definition or_undefined (a b : option R) : option R :=
  match a with
  | Some v => if Req_dec_T v 0 then b else Some v
  | None => b
  end.

Definition or_number (a : option R) (b : R) : R :=
  match a with
  | Some v => if Req_dec_T v 0 then b else v
  | None => b
  end.

Definition updateSelectedLocationDisplay (g : Geolocation.State) (m : State) : State :=
  {| locationMap := locationMap m; locationMarker := locationMarker m;
     listeners := listeners m;
     selectedCoordsDisplay := selectedLocation g;
     toggle_checked := toggle_checked m; toggle_disabled := toggle_disabled m;
     frequency_disabled := frequency_disabled m;
     manualInputs_hidden := manualInputs_hidden m;
     gpsLatInput := gpsLatInput m; gpsLonInput := gpsLonInput m |}.

(** [locationMarker.setLatLng] and [locationMap.setView]. *)
Definition place (marker : option LatLon) (view : option (LatLon * R)) (m : State) : State :=
  {| locationMap := view; locationMarker := marker; listeners := listeners m;
     selectedCoordsDisplay := selectedCoordsDisplay m;
     toggle_checked := toggle_checked m; toggle_disabled := toggle_disabled m;
     frequency_disabled := frequency_disabled m;
     manualInputs_hidden := manualInputs_hidden m;
     gpsLatInput := gpsLatInput m; gpsLonInput := gpsLonInput m |}.

(** The toggle and the frequency selector, switched off on the page as soon
    as a place is picked. *)
Definition disable_tracking_controls (m : State) : State :=
  {| locationMap := locationMap m; locationMarker := locationMarker m;
     listeners := listeners m;
     selectedCoordsDisplay := selectedCoordsDisplay m;
     toggle_checked := false; toggle_disabled := true;
     frequency_disabled := true;
     manualInputs_hidden := manualInputs_hidden m;
     gpsLatInput := gpsLatInput m; gpsLonInput := gpsLonInput m |}.

Definition with_manual (hidden : bool) (latInput lonInput : option R) (m : State) : State :=
  {| locationMap := locationMap m; locationMarker := locationMarker m;
     listeners := listeners m;
     selectedCoordsDisplay := selectedCoordsDisplay m;
     toggle_checked := toggle_checked m; toggle_disabled := toggle_disabled m;
     frequency_disabled := frequency_disabled m;
     manualInputs_hidden := hidden;
     gpsLatInput := latInput; gpsLonInput := lonInput |}.

Definition add_listener (m : State) : State :=
  {| locationMap := locationMap m; locationMarker := locationMarker m;
     listeners := S (listeners m);
     selectedCoordsDisplay := selectedCoordsDisplay m;
     toggle_checked := toggle_checked m; toggle_disabled := toggle_disabled m;
     frequency_disabled := frequency_disabled m;
     manualInputs_hidden := manualInputs_hidden m;
     gpsLatInput := gpsLatInput m; gpsLonInput := gpsLonInput m |}.

(** The centre [initializeMap] computes: override, then real position, then
    fallback, coordinate by coordinate. *)
Definition map_center (g : Geolocation.State) : LatLon :=
  let currentLat :=
    or_number (or_undefined (option_map lat (gpsOverride g))
                            (option_map lat (currentLocation g)))
              (lat FALLBACK) in
  let currentLon :=
    or_number (or_undefined (option_map lon (gpsOverride g))
                            (option_map lon (currentLocation g)))
              (lon FALLBACK) in
  {| lat := currentLat; lon := currentLon |}.

Definition initializeMap (g : Geolocation.State) (m : State) : Geolocation.State * State :=
  let center := map_center g in
  let m1 :=
    match locationMap m with
    | None => place (Some center) (Some (center, 10)) m
    | Some (_, zoom) => place (Some center) (Some (center, zoom)) m
    end in
  let g1 := setSelectedLocation (Some center) g in
  (g1, add_listener (updateSelectedLocationDisplay g1 m1)).

(** One run of the [click] listener. *)
Definition on_click (lat lon : R) (g : Geolocation.State) (m : State)
  : Geolocation.State * State :=
  let m1 := place (Some {| lat := lat; lon := lon |}) (locationMap m) m in
  let g1 := setSelectedLocation (Some {| lat := lat; lon := lon |}) g in
  (g1, disable_tracking_controls (updateSelectedLocationDisplay g1 m1)).

(** The [dragend] listener; the marker is already where it was dropped, at
    [position]. *)
Definition on_dragend (position : LatLon) (g : Geolocation.State) (m : State)
  : Geolocation.State * State :=
  let m0 := place (Some position) (locationMap m) m in
  let g1 := setSelectedLocation (Some {| lat := lat position; lon := lon position |}) g in
  (g1, disable_tracking_controls (updateSelectedLocationDisplay g1 m0)).

(** A click on the map runs every listener registered so far. *)
Definition click (lat lon : R) (g : Geolocation.State) (m : State)
  : Geolocation.State * State :=
  Nat.iter (listeners m) (fun gm => on_click lat lon (fst gm) (snd gm)) (g, m).

Definition toggleManualInput (g : Geolocation.State) (m : State) : State :=
  if manualInputs_hidden m then
    match selectedLocation g with
    | Some sel => with_manual false (Some (lat sel)) (Some (lon sel)) m
    | None => with_manual false (gpsLatInput m) (gpsLonInput m) m
    end
  else with_manual true (gpsLatInput m) (gpsLonInput m) m.

Inductive ManualAlert : Type :=
| InvalidNumbers        (* 'Please enter valid latitude and longitude values.' *)
| LatitudeOutOfRange    (* 'Latitude must be between -90 and 90 degrees.' *)
| LongitudeOutOfRange.  (* 'Longitude must be between -180 and 180 degrees.' *)

Definition applyManualCoordinates (g : Geolocation.State) (m : State)
  : Geolocation.State * State * option ManualAlert :=
  match gpsLatInput m, gpsLonInput m with
  | Some lat, Some lon =>
      if Rlt_dec lat (-90) then (g, m, Some LatitudeOutOfRange)
      else if Rlt_dec 90 lat then (g, m, Some LatitudeOutOfRange)
      else if Rlt_dec lon (-180) then (g, m, Some LongitudeOutOfRange)
      else if Rlt_dec 180 lon then (g, m, Some LongitudeOutOfRange)
      else
        let loc := {| lat := lat; lon := lon |} in
        let m1 :=
          match locationMap m, locationMarker m with
          | Some (_, zoom), Some _ => place (Some loc) (Some (loc, zoom)) m
          | _, _ => m
          end in
        let g1 := setSelectedLocation (Some loc) g in
        let m2 := disable_tracking_controls (updateSelectedLocationDisplay g1 m1) in
        (g1, with_manual true (gpsLatInput m2) (gpsLonInput m2) m2, None)
  | _, _ => (g, m, Some InvalidNumbers)
  end.

End LocationMap.

(** ** [ui.js] and [main.js]: saving a photo from the render loop *)

Module Capture.

Record State : Type := mkState
  { snap : bool;
    captured : nat }.      (* calls of [performCapture] so far *)

Definition initial : State := {| snap := false; captured := 0 |}.

Definition capturePhoto (st : State) : State :=
  {| snap := true; captured := captured st |}.

Definition performCapture (st : State) : State :=
  {| snap := snap st; captured := S (captured st) |}.

Definition checkAndCapture (st : State) : State :=
  if snap st then
    let st1 := performCapture st in
    {| snap := false; captured := captured st1 |}
  else st.

Inductive Event : Type :=
| Click      (* the photo button *)
| Frame.     (* one turn of the render loop, which ends in [checkAndCapture] *)

Definition step (st : State) (e : Event) : State :=
  match e with
  | Click => capturePhoto st
  | Frame => checkAndCapture st
  end.

Definition run (evs : list Event) (st : State) : State := fold_left step evs st.

End Capture.

(** ** [utils.js] and [ui.js]: choosing the controls when the session starts *)

Module Device.

(** What [requestPermission] resolves to. *)
Inductive PermissionState : Type := granted | denied.

(** [DeviceMotionEvent.requestPermission] or
    [DeviceOrientationEvent.requestPermission], as the page finds it. *)
Inductive Request : Type :=
| NoFunction                              (* the class or the method is missing *)
| Throws                                  (* the call throws *)
| Settles (r : option PermissionState).   (* the promise is fulfilled, or rejected *)

Record Browser : Type := mkBrowser
  { https : bool;                 (* [location.protocol === 'https:'] *)
    localhost : bool;             (* [location.hostname] is 'localhost' or '127.0.0.1' *)
    userAgentMobile : bool;       (* the user agent matches the mobile pattern *)
    maxTouchPoints : nat;
    pointerFine : bool;           (* [matchMedia('(pointer: fine)').matches] *)
    DM : Request;
    DO : Request }.

Definition isSecure (b : Browser) : bool := https b || localhost b.

Definition isMobileDevice (b : Browser) : bool :=
  let touchOnlyDevice := (0 <? maxTouchPoints b)%nat && negb (pointerFine b) in
  userAgentMobile b || touchOnlyDevice.

(** [asks.push(X.requestPermission())] inside the [try]: [None] when the
    call throws. *)
Definition ask (r : Request) (asks : list (option PermissionState))
  : option (list (option PermissionState)) :=
  match r with
  | NoFunction => Some asks
  | Throws => None
  | Settles s => Some (asks ++ [s])
  end.

Definition is_granted (s : option PermissionState) : bool :=
  match s with Some granted => true | _ => false end.

Definition ensureMotionPermission (b : Browser) : bool :=
  if negb (isMobileDevice b) then false
  else
    match ask (DM b) [] with
    | None => false
    | Some asks1 =>
        match ask (DO b) asks1 with
        | None => false
        | Some [] => true
        | Some asks => existsb is_granted asks
        end
    end.

(** [startAR], from the motion permission to the choice of controls; the
    boolean tells whether the full setup follows. *)
Definition startAR_controls (b : Browser) (c : Controls.State) : Controls.State * bool :=
  let motionPermissionGranted := ensureMotionPermission b in
  let c1 := Controls.setHasDeviceOrientation motionPermissionGranted c in
  let isActuallyMobile := isMobileDevice b in
  let c2 :=
    if motionPermissionGranted && isActuallyMobile then Controls.initDeviceOrientationControls c1
    else if isActuallyMobile && negb motionPermissionGranted then c1
    else Controls.initMouseControls c1 in
  (c2, motionPermissionGranted || negb isActuallyMobile).

End Device.

(* ================================================================== *)
(** * Part II: the properties                                          *)
(* ================================================================== *)

Module UtilsFacts.
Import JSMath Utils ProjectionSpec.

Lemma scale_nat (k : nat) : scale (INR k) = 2 ^ k.
Proof. unfold scale. apply Rpower_pow. lra. Qed.

Lemma latitude_angle (lat : R) :
  PI / 4 + (lat * PI / 180) / 2 = PI / 4 + lat * PI / 360.
Proof. field. Qed.



(** *** The haversine distance *)

Lemma haversine_a_sym (lat1 lon1 lat2 lon2 : R) :
  haversine_a lat1 lon1 lat2 lon2 = haversine_a lat2 lon2 lat1 lon1.
Proof.
  unfold haversine_a; cbv zeta.
  replace ((lat1 - lat2) * PI / 180 / 2) with (- ((lat2 - lat1) * PI / 180 / 2)) by field.
  replace ((lon1 - lon2) * PI / 180 / 2) with (- ((lon2 - lon1) * PI / 180 / 2)) by field.
  rewrite !sin_neg. ring.
Qed.

Lemma haversine_a_same (lat lon : R) : haversine_a lat lon lat lon = 0.
Proof.
  unfold haversine_a; cbv zeta.
  replace ((lat - lat) * PI / 180 / 2) with 0 by field.
  replace ((lon - lon) * PI / 180 / 2) with 0 by field.
  rewrite sin_0. ring.
Qed.

Lemma convex_unit (u w s : R) :
  0 <= u <= 1 -> 0 <= w <= 1 -> 0 <= s <= 1 -> 0 <= u * (1 - s) + w * s <= 1.
Proof. intros Hu Hw Hs. split; nra. Qed.

(** The haversine term is a convex combination of two squares, so the
    square roots of [calculateDistance] are taken of numbers in [[0,1]]. *)
Lemma haversine_a_range (lat1 lon1 lat2 lon2 : R) :
  0 <= haversine_a lat1 lon1 lat2 lon2 <= 1.
Proof.
  unfold haversine_a; cbv zeta.
  set (A := lat1 * PI / 180 / 2).
  set (B := lat2 * PI / 180 / 2).
  set (L := (lon2 - lon1) * PI / 180 / 2).
  replace ((lat2 - lat1) * PI / 180 / 2) with (B - A) by (unfold A, B; field).
  replace (lat1 * PI / 180) with (2 * A) by (unfold A; field).
  replace (lat2 * PI / 180) with (2 * B) by (unfold B; field).
  rewrite sin_minus, !cos_2a.
  pose proof (sin2_cos2 A) as HA. pose proof (sin2_cos2 B) as HB.
  pose proof (sin2_cos2 L) as HL. unfold Rsqr in HA, HB, HL.
  set (sa := sin A) in *. set (ca := cos A) in *.
  set (sb := sin B) in *. set (cb := cos B) in *.
  set (sl := sin L) in *. set (cl := cos L) in *.
  clearbody sa ca sb cb sl cl. clear A B L.
  pose proof (Rle_0_sqr (sb * ca - cb * sa)) as Hu0.
  pose proof (Rle_0_sqr (ca * cb + sa * sb)) as Hu1.
  pose proof (Rle_0_sqr (ca * cb - sa * sb)) as Hw0.
  pose proof (Rle_0_sqr (sa * cb + ca * sb)) as Hw1.
  pose proof (Rle_0_sqr sl) as Hs0. pose proof (Rle_0_sqr cl) as Hs1.
  unfold Rsqr in *.
  assert (Hu : (sb * ca - cb * sa) * (sb * ca - cb * sa)
               + (ca * cb + sa * sb) * (ca * cb + sa * sb) = 1).
  { transitivity ((sa * sa + ca * ca) * (sb * sb + cb * cb)); [ring|].
    rewrite HA, HB. ring. }
  assert (Hw : (ca * cb - sa * sb) * (ca * cb - sa * sb)
               + (sa * cb + ca * sb) * (sa * cb + ca * sb) = 1).
  { transitivity ((sa * sa + ca * ca) * (sb * sb + cb * cb)); [ring|].
    rewrite HA, HB. ring. }
  set (u := (sb * ca - cb * sa) * (sb * ca - cb * sa)) in *.
  set (w := (ca * cb - sa * sb) * (ca * cb - sa * sb)) in *.
  set (s := sl * sl) in *.
  replace (u + (ca * ca - sa * sa) * (cb * cb - sb * sb) * sl * sl)
    with (u * (1 - s) + w * s) by (unfold u, w, s; ring).
  assert (0 <= u <= 1) by lra. assert (0 <= w <= 1) by lra.
  assert (0 <= s <= 1) by lra.
  apply convex_unit; assumption.
Qed.

Lemma atan2_nonneg (y x : R) : 0 <= y -> 0 <= x -> 0 <= atan2 y x.
Proof.
  intros Hy Hx. unfold atan2.
  destruct (Rlt_dec 0 x) as [Hpos | Hnpos].
  - destruct Hy as [Hy | <-].
    + left. rewrite <- atan_0. apply atan_increasing. now apply Rdiv_lt_0_compat.
    + unfold Rdiv. rewrite Rmult_0_l, atan_0. lra.
  - destruct (Rlt_dec x 0) as [Hneg | _]; [lra|].
    pose proof PI_RGT_0.
    destruct (Rlt_dec 0 y); [lra|].
    destruct (Rlt_dec y 0); lra.
Qed.

Lemma atan2_0_1 : atan2 0 1 = 0.
Proof.
  unfold atan2. destruct (Rlt_dec 0 1) as [_ | H]; [|lra].
  unfold Rdiv. now rewrite Rmult_0_l, atan_0.
Qed.

(** C10: [calculateDistance] is symmetric in its two coordinates, never
    negative, and 0 between a coordinate and itself. *)
Theorem calculateDistance_metric_like (lat1 lon1 lat2 lon2 : R) :
  calculateDistance lat1 lon1 lat2 lon2 = calculateDistance lat2 lon2 lat1 lon1 /\
  0 <= calculateDistance lat1 lon1 lat2 lon2 /\
  calculateDistance lat1 lon1 lat1 lon1 = 0.
Proof.
  unfold calculateDistance; cbv zeta.
  split; [|split].
  - now rewrite (haversine_a_sym lat1 lon1 lat2 lon2).
  - pose proof (atan2_nonneg (sqrt (haversine_a lat1 lon1 lat2 lon2))
                  (sqrt (1 - haversine_a lat1 lon1 lat2 lon2))
                  (sqrt_pos _) (sqrt_pos _)).
    lra.
  - rewrite haversine_a_same, Rminus_0_r, sqrt_0, sqrt_1, atan2_0_1. ring.
Qed.

(** *** Bounds of the projection *)




(** *** The Mercator limit in degrees

    The limit lies between 85.05 and 90 degrees: latitudes clamped to
    [[-85.05, 85.05]] are safe.  The bound on [exp PI] squares
    [1 + x <= exp x] sixteen times from [x = 3.14155 / 2^16]. *)













Lemma latLonToTile_spec (lat lon z s : R) :
  latLonToTile lat lon z s =
  {| tileX := tile_index (norm_x lon) z;
     tileY := tile_index (norm_y lat) z;
     pixelX := pixel_offset (norm_x lon) z s;
     pixelY := pixel_offset (norm_y lat) z s |}.
Proof.
  unfold latLonToTile, pixel_offset, tile_index, scale, norm_x, norm_y, floor, log, pow.
  now rewrite latitude_angle.
Qed.



(** The fallback coordinate at zoom 11: tile column 572, 375 units into it. *)
Example latLonToTile_fallback_column :
  tileX (latLonToTile 43.642567 (-79.387054) 11 1000) = 572%Z /\
  pixelX (latLonToTile 43.642567 (-79.387054) 11 1000) = 375%Z.
Proof.
  rewrite latLonToTile_spec; cbn [tileX pixelX].
  assert (E11 : scale 11 = 2048).
  { replace 11 with (INR 11) by (simpl; lra). rewrite scale_nat. lra. }
  assert (Et : tile_index (norm_x (-79.387054)) 11 = 572%Z).
  { unfold tile_index, norm_x. rewrite E11. apply Zfloor_eq. lra. }
  split; [exact Et|].
  unfold pixel_offset. rewrite Et. unfold norm_x. rewrite E11.
  apply Zfloor_eq. lra.
Qed.

(** On the antimeridian the tile index is [2^zoom] itself. *)
Lemma latLonToTile_antimeridian (lat s : R) (k : nat) :
  tileX (latLonToTile lat 180 (INR k) s) = (2 ^ Z.of_nat k)%Z.
Proof.
  rewrite latLonToTile_spec; cbn. unfold tile_index, norm_x.
  rewrite scale_nat.
  replace ((180 + 180) / 360 * 2 ^ k) with (IZR (2 ^ Z.of_nat k)).
  - apply ZfloorZ.
  - rewrite <- pow_IZR. lra.
Qed.


End UtilsFacts.

Module StoreFacts.
Import Store.

Section Update.
Context {A : Type}.
Implicit Types (l : list A) (f : A -> A).

Lemma update_length i f l : length (update i f l) = length l.
Proof.
  revert i; induction l as [|a l IH]; intros [|i]; cbn; auto.
Qed.

Lemma update_nth_same i f l a :
  nth_error l i = Some a -> nth_error (update i f l) i = Some (f a).
Proof.
  revert i; induction l as [|b l IH]; intros [|i]; cbn; try discriminate.
  - now intros [= ->].
  - apply IH.
Qed.

Lemma update_nth_other i j f l :
  i <> j -> nth_error (update i f l) j = nth_error l j.
Proof.
  revert i j; induction l as [|b l IH]; intros [|i] [|j] Hij; cbn; auto;
    try congruence.
Qed.

(** How one update acts on the object of any identity. *)
Lemma update_nth i j f l :
  nth_error (update i f l) j =
  if Nat.eqb i j then option_map f (nth_error l j) else nth_error l j.
Proof.
  destruct (Nat.eqb_spec i j) as [-> | Hne].
  - destruct (nth_error l j) as [a|] eqn:E.
    + now apply update_nth_same.
    + cbn. apply nth_error_None. rewrite update_length.
      now apply nth_error_None.
  - now apply update_nth_other.
Qed.

Lemma update_app_l i f l1 l2 :
  (i < length l1)%nat -> update i f (l1 ++ l2) = update i f l1 ++ l2.
Proof.
  revert i; induction l1 as [|a l1 IH]; intros [|i] Hi; cbn in *; try lia; auto.
  f_equal. apply IH. lia.
Qed.

Lemma update_app_r i f l1 l2 :
  update (length l1 + i) f (l1 ++ l2) = l1 ++ update i f l2.
Proof.
  induction l1 as [|a l1 IH]; cbn; [reflexivity|]. now rewrite IH.
Qed.

Lemma update_all_length ids f l : length (update_all ids f l) = length l.
Proof.
  unfold update_all. revert l; induction ids as [|i ids IH]; intros l; cbn; auto.
  now rewrite IH, update_length.
Qed.

(** A property that [f] keeps is kept by any number of updates. *)
Lemma update_all_keeps (P : A -> Prop) ids f l j a :
  (forall x, P x -> P (f x)) ->
  nth_error l j = Some a -> P a ->
  exists a', nth_error (update_all ids f l) j = Some a' /\ P a'.
Proof.
  intros Hf. unfold update_all.
  revert l a; induction ids as [|i ids IH]; intros l a Hj Pa; cbn.
  - eauto.
  - destruct (Nat.eq_dec i j) as [-> | Hne].
    + apply (IH _ (f a)); [now apply update_nth_same | now apply Hf].
    + apply (IH _ a); [now rewrite update_nth_other | assumption].
Qed.

(** A property that [f] establishes and keeps holds of every updated object. *)
Lemma update_all_sets (P : A -> Prop) ids f l j :
  (forall x, P (f x)) ->
  In j ids -> (j < length l)%nat ->
  exists a', nth_error (update_all ids f l) j = Some a' /\ P a'.
Proof.
  intros Hf. unfold update_all.
  revert l; induction ids as [|i ids IH]; intros l Hin Hj; cbn; [contradiction|].
  destruct (Nat.eq_dec i j) as [-> | Hne].
  - destruct (nth_error l j) as [a|] eqn:E; [|apply nth_error_None in E; lia].
    apply (update_all_keeps P ids f _ j (f a)); auto using update_nth_same.
  - destruct Hin as [-> | Hin]; [congruence|].
    apply IH; [assumption | now rewrite update_length].
Qed.

Lemma update_all_app_r ids f l1 l2 :
  Forall (fun i => (length l1 <= i)%nat) ids ->
  exists l2', update_all ids f (l1 ++ l2) = l1 ++ l2' /\ length l2' = length l2 /\
              l2' = update_all (List.map (fun i => (i - length l1)%nat) ids) f l2.
Proof.
  unfold update_all. revert l2; induction ids as [|i ids IH]; intros l2 Hall; cbn.
  - eauto.
  - inversion Hall as [|? ? Hi Hrest]; subst.
    assert (E0 : update i f (l1 ++ l2) = l1 ++ update (i - length l1) f l2).
    { rewrite <- update_app_r. f_equal. lia. }
    rewrite E0.
    destruct (IH (update (i - length l1) f l2) Hrest) as (l2' & E & Hlen & Hl2').
    exists l2'. rewrite E, Hlen, update_length. auto.
Qed.

End Update.

Lemma remove_id_not_in i l : ~ In i (remove_id i l).
Proof.
  unfold remove_id. rewrite filter_In. intros [_ H].
  now rewrite Nat.eqb_refl in H.
Qed.

Lemma remove_id_subset i j l : In j (remove_id i l) -> In j l.
Proof. unfold remove_id. rewrite filter_In. tauto. Qed.

Lemma remove_id_other i j l : i <> j -> In j l -> In j (remove_id i l).
Proof.
  unfold remove_id. rewrite filter_In. intros Hne Hin. split; [assumption|].
  apply negb_true_iff, Nat.eqb_neq. congruence.
Qed.

End StoreFacts.

Module TilesFacts.
Import Store StoreFacts Tiles GridSpec.

Lemma key_eqb_eq (a b : Key) : key_eqb a b = true <-> a = b.
Proof.
  destruct a as [a1 a2], b as [b1 b2]; unfold key_eqb; cbn.
  rewrite andb_true_iff, !Z.eqb_eq. split; [intros [-> ->]; reflexivity | now intros [= -> ->]].
Qed.

Lemma grid_set_fresh (k : Key) (v : TileData) (m : Grid) :
  ~ In k (List.map fst m) -> grid_set k v m = m ++ [(k, v)].
Proof.
  induction m as [|[k' v'] m IH]; cbn; intros Hk; [reflexivity|].
  destruct (key_eqb k' k) eqn:E.
  - apply key_eqb_eq in E. tauto.
  - f_equal. apply IH. tauto.
Qed.

Lemma calculateTilePosition_spec (dx dy : Z) (st : State) :
  calculateTilePosition dx dy st = cell_position (currentPixelOffsets st) dx dy.
Proof.
  unfold calculateTilePosition, cell_position, center_position.
  destruct (currentPixelOffsets st) as [px py]; cbn [fst snd].
  destruct ((dx =? 0)%Z && (dy =? 0)%Z) eqn:E; [|reflexivity].
  apply andb_true_iff in E as [Ex Ey].
  apply Z.eqb_eq in Ex, Ey. subst. f_equal; ring.
Qed.

Lemma ensure_group_some (st : State) (g : nat) :
  tileGroup st = Some g -> ensure_group st = st.
Proof. unfold ensure_group. now intros ->. Qed.

Lemma update_ext {A} (i : nat) (f g : A -> A) (l : list A) :
  (forall a, f a = g a) -> update i f l = update i g l.
Proof.
  intros H. revert i; induction l as [|a l IH]; intros [|i]; cbn; auto.
  - now rewrite H.
  - now rewrite IH.
Qed.

Lemma update_update {A} (i : nat) (f g : A -> A) (l : list A) :
  update i g (update i f l) = update i (fun a => g (f a)) l.
Proof.
  revert i; induction l as [|a l IH]; intros [|i]; cbn; auto. now rewrite IH.
Qed.

Lemma update_id {A} (i : nat) (f : A -> A) (l : list A) :
  (forall a, f a = a) -> update i f l = l.
Proof.
  intros H. revert i; induction l as [|a l IH]; intros [|i]; cbn; auto.
  - now rewrite H.
  - now rewrite IH.
Qed.

Lemma update_snoc {A} (f : A -> A) (l : list A) (a : A) :
  update (length l) f (l ++ [a]) = l ++ [f a].
Proof.
  rewrite <- (Nat.add_0_r (length l)). now rewrite update_app_r.
Qed.

(** One pass of the loop body, in a state whose group exists. *)
Lemma buildTileGrid_cell_built (cx cy : Z) (o : Z * Z) (g : nat) (st : State) :
  tileGroup st = Some g ->
  ~ In (cell_key cx cy o) (List.map fst (tileGrid st)) ->
  buildTileGrid_cell cx cy (fst o) (snd o) st = built cx cy [o] g st.
Proof.
  intros Hg Hfresh.
  unfold buildTileGrid_cell, createTilePlane, built.
  rewrite (ensure_group_some st g Hg), Hg, calculateTilePosition_spec.
  unfold with_grid, with_objects; cbn.
  change ((cx + fst o)%Z, (cy + snd o)%Z) with (cell_key cx cy o).
  rewrite grid_set_fresh by exact Hfresh. rewrite Hg. reflexivity.
Qed.

Lemma built_nil (cx cy : Z) (g : nat) (st : State) :
  tileGroup st = Some g -> built cx cy [] g st = st.
Proof.
  intros Hg. unfold built; cbn. rewrite !app_nil_r, <- Hg.
  rewrite update_id by (intros; apply app_nil_r).
  now destruct st.
Qed.

Lemma built_cons (cx cy : Z) (o : Z * Z) (offs : list (Z * Z)) (g : nat) (st : State) :
  built cx cy offs g (built cx cy [o] g st) = built cx cy (o :: offs) g st.
Proof.
  unfold built; cbn [SKY_HEIGHT tileGrid centerTile currentPixelOffsets tileGroup
                     getOpacityCallback materials planes groups scene rebuilds fetches
                     new_entries new_planes length repeat seq].
  rewrite !length_app; cbn [length]. rewrite !Nat.add_1_r.
  rewrite <- !app_assoc; cbn [app].
  rewrite update_update.
  rewrite (update_ext g _
             (fun children => children ++ length (planes st)
                              :: seq (S (length (planes st))) (length offs)))
    by (intros; now rewrite <- app_assoc).
  reflexivity.
Qed.

Lemma build_cells_built (cx cy : Z) (offs : list (Z * Z)) (g : nat) (st : State) :
  tileGroup st = Some g ->
  NoDup (List.map fst (tileGrid st) ++ List.map (cell_key cx cy) offs) ->
  build_cells cx cy offs st = built cx cy offs g st.
Proof.
  revert st. induction offs as [|o offs IH]; intros st Hg Hnd.
  - cbn. symmetry. now apply built_nil.
  - change (build_cells cx cy (o :: offs) st)
      with (build_cells cx cy offs (buildTileGrid_cell cx cy (fst o) (snd o) st)).
    cbn [List.map] in Hnd.
    assert (Hfresh : ~ In (cell_key cx cy o) (List.map fst (tileGrid st))).
    { apply NoDup_remove_2 in Hnd. intros Hin. apply Hnd, in_or_app. now left. }
    rewrite (buildTileGrid_cell_built cx cy o g st Hg Hfresh).
    rewrite IH.
    + apply built_cons.
    + reflexivity.
    + cbn [built tileGrid new_entries]. rewrite map_app; cbn [List.map fst].
      rewrite <- app_assoc; cbn [app].
      apply NoDup_Add with (a := cell_key cx cy o)
                           (l := List.map fst (tileGrid st) ++ List.map (cell_key cx cy) offs).
      * apply Add_app.
      * split; [now apply NoDup_remove_1 in Hnd | now apply NoDup_remove_2 in Hnd].
Qed.

Lemma createTilePlane_ensure (dx dy : Z) (st : State) :
  createTilePlane dx dy (ensure_group st) = createTilePlane dx dy st.
Proof.
  destruct (tileGroup st) as [g|] eqn:Hg.
  - now rewrite (ensure_group_some st g Hg).
  - unfold createTilePlane, calculateTilePosition, ensure_group.
    rewrite Hg; cbn. reflexivity.
Qed.

Lemma build_cells_ensure (cx cy : Z) (o : Z * Z) (offs : list (Z * Z)) (st : State) :
  build_cells cx cy (o :: offs) st = build_cells cx cy (o :: offs) (ensure_group st).
Proof.
  unfold build_cells; cbn [fold_left]. f_equal.
  unfold buildTileGrid_cell. now rewrite createTilePlane_ensure.
Qed.

Lemma cell_key_injective (cx cy : Z) (o1 o2 : Z * Z) :
  cell_key cx cy o1 = cell_key cx cy o2 -> o1 = o2.
Proof.
  destruct o1 as [a1 b1], o2 as [a2 b2]; unfold cell_key; cbn.
  intros [= Ha Hb]. f_equal; lia.
Qed.

Lemma offsets9_NoDup : NoDup offsets9.
Proof.
  unfold offsets9; cbn.
  repeat (constructor; [cbn; intuition congruence|]). constructor.
Qed.

Lemma NoDup_map_injective {A B} (f : A -> B) (l : list A) :
  (forall x y, f x = f y -> x = y) -> NoDup l -> NoDup (List.map f l).
Proof.
  intros Hinj. induction 1 as [|a l Hnotin Hnd IH]; cbn; constructor; auto.
  rewrite in_map_iff. intros (x & Hx & Hin). apply Hinj in Hx. now subst.
Qed.

Lemma offsets9_keys_NoDup (cx cy : Z) : NoDup (List.map (cell_key cx cy) offsets9).
Proof.
  apply NoDup_map_injective; [|exact offsets9_NoDup].
  intros o1 o2. apply cell_key_injective.
Qed.

Lemma new_entries_length np nm cx cy offs :
  length (new_entries np nm cx cy offs) = length offs.
Proof.
  revert np nm; induction offs as [|o offs IH]; intros; cbn; auto.
Qed.

Lemma new_entries_materials np nm cx cy offs :
  List.map (fun e => material (snd e)) (new_entries np nm cx cy offs)
  = seq nm (length offs).
Proof.
  revert np nm; induction offs as [|o offs IH]; intros; cbn; [reflexivity|].
  now rewrite IH.
Qed.

Lemma new_entries_planes np nm cx cy offs :
  List.map (fun e => plane (snd e)) (new_entries np nm cx cy offs)
  = seq np (length offs).
Proof.
  revert np nm; induction offs as [|o offs IH]; intros; cbn; [reflexivity|].
  now rewrite IH.
Qed.

(** The [forEach] that starts the fetches: one fetch and one pushed material
    per entry, in the order of the grid. *)
Lemma start_fetches_closed (L : Grid) (s : State) (rs : list Rebuild) (c : Rebuild) :
  rebuilds s = rs ++ [c] ->
  fold_left (start_fetch (length rs)) L s =
  with_rebuilds
    (rs ++ [{| oldTileGrid := oldTileGrid c; oldTileGroup := oldTileGroup c;
               loadedCount := loadedCount c; totalTiles := totalTiles c;
               newTileMaterials :=
                 newTileMaterials c ++ List.map (fun e => material (snd e)) L |}])
    (fetches s ++
     List.map (fun e => {| f_tileX := tileX (snd e); f_tileY := tileY (snd e);
                           f_material := material (snd e); f_rebuild := length rs |}) L)
    s.
Proof.
  revert s c. induction L as [|e L IH]; intros s c Hr.
  - cbn. rewrite !app_nil_r. unfold with_rebuilds.
    destruct c; cbn in *. rewrite <- Hr. now destruct s.
  - cbn [fold_left]. rewrite (IH _ (push_material (material (snd e)) c)).
    + unfold start_fetch, loadSingleTileTexture, with_rebuilds, push_material; cbn.
      rewrite <- !app_assoc. reflexivity.
    + unfold start_fetch, loadSingleTileTexture, with_rebuilds; cbn.
      rewrite Hr. apply update_snoc.
Qed.

(** [loadTileGridTextures], up to the point where it returns. *)
Lemma loadTileGridTextures_loaded (lat lon : R) (st : State) :
  loadTileGridTextures lat lon st = loaded lat lon st.
Proof.
  unfold loadTileGridTextures, loaded.
  generalize (Utils.latLonToTile lat lon Config.ZOOM_LEVEL Config.TILE_SIZE).
  intros tc. cbv zeta.
  match goal with
  | |- context [buildTileGrid ?cx ?cy ?s] =>
      change (buildTileGrid cx cy s)
        with (build_cells cx cy offsets9
                {| SKY_HEIGHT := SKY_HEIGHT st; tileGrid := [];
                   centerTile := (cx, cy);
                   currentPixelOffsets := (Utils.pixelX tc, Utils.pixelY tc);
                   tileGroup := None;
                   getOpacityCallback := getOpacityCallback st;
                   materials := materials st; planes := planes st;
                   groups := groups st; scene := scene st;
                   rebuilds := rebuilds st; fetches := fetches st |})
  end.
  change offsets9 with ((-1, -1)%Z :: tl offsets9).
  rewrite build_cells_ensure.
  change ((-1, -1)%Z :: tl offsets9) with offsets9.
  rewrite (build_cells_built _ _ _ (length (groups st)));
    [| reflexivity | cbn [ensure_group tileGroup tileGrid with_tileGroup with_objects List.map app];
                     apply offsets9_keys_NoDup].
  match goal with
  | |- fold_left (start_fetch ?n) ?L ?s0 = _ =>
      change n with (length (rebuilds st));
      rewrite (start_fetches_closed L s0 (rebuilds st) _ eq_refl)
  end.
  unfold built, with_rebuilds, ensure_group, with_tileGroup, with_objects.
  cbn [SKY_HEIGHT tileGrid centerTile currentPixelOffsets tileGroup
       getOpacityCallback materials planes groups scene rebuilds fetches app
       oldTileGrid oldTileGroup loadedCount totalTiles newTileMaterials].
  rewrite new_entries_length, new_entries_materials.
  change (length offsets9) with 9%nat.
  rewrite update_snoc. reflexivity.
Qed.

(** *** Releasing a grid: what [forEach (dispose ...)] does to each store *)

Lemma update_dispose_geometry_material (i j : nat) (ps : list Plane) :
  option_map pl_material (nth_error (update i dispose_geometry ps) j)
  = option_map pl_material (nth_error ps j).
Proof.
  rewrite update_nth. destruct (Nat.eqb i j); [|reflexivity].
  now destruct (nth_error ps j).
Qed.

Lemma cell_material_ids_dispose (i : nat) (ps : list Plane) (L : Grid) :
  cell_material_ids (update i dispose_geometry ps) L = cell_material_ids ps L.
Proof.
  unfold cell_material_ids. induction L as [|e L IH]; cbn; [reflexivity|].
  rewrite IH. f_equal.
  pose proof (update_dispose_geometry_material i (plane (snd e)) ps) as H.
  destruct (nth_error (update i dispose_geometry ps) (plane (snd e))),
           (nth_error ps (plane (snd e))); cbn in H; congruence.
Qed.

Lemma dispose_all_closed (og : option nat) (L : Grid) (s : State) :
  fold_left (dispose_cell og) L s =
  with_objects
    (update_all (cell_material_ids (planes s) L) dispose_material (materials s))
    (update_all (List.map (fun e => plane (snd e)) L) dispose_geometry (planes s))
    (detach_all og L (groups s))
    (scene s) s.
Proof.
  revert s. induction L as [|e L IH]; intros s.
  - unfold detach_all, with_objects; cbn. destruct og; now destruct s.
  - cbn [fold_left]. rewrite IH. unfold dispose_cell at 2 3 4 5 6.
    unfold with_objects;
      cbn [SKY_HEIGHT tileGrid centerTile currentPixelOffsets tileGroup
           getOpacityCallback materials planes groups scene rebuilds fetches].
    change (planes (dispose_cell og s e))
      with (update (plane (snd e)) dispose_geometry (planes s)).
    rewrite cell_material_ids_dispose.
    unfold update_all, cell_material_ids, detach_all; cbn [flat_map List.map fold_left].
    rewrite fold_left_app.
    f_equal.
    + destruct (nth_error (planes s) (plane (snd e))); reflexivity.
    + destruct og; reflexivity.
Qed.

(** *** The callbacks of one rebuild *)

Lemma Forall_update {A} (P : A -> Prop) (i : nat) (f : A -> A) (l : list A) :
  (forall a, P a -> P (f a)) -> Forall P l -> Forall P (update i f l).
Proof.
  intros Hf Hl. revert i; induction Hl as [|a l Ha Hl IH]; intros [|i]; cbn;
    constructor; auto.
Qed.

Lemma new_entries_nth np nm cx cy offs i :
  (i < length offs)%nat ->
  exists e, nth_error (new_entries np nm cx cy offs) i = Some e /\
            plane (snd e) = (np + i)%nat /\ material (snd e) = (nm + i)%nat.
Proof.
  revert np nm i; induction offs as [|o offs IH]; intros np nm [|i] Hi; cbn in *; try lia.
  - eexists; split; [reflexivity|]. cbn. lia.
  - destruct (IH (S np) (S nm) i ltac:(lia)) as (e & He & Hp & Hm).
    exists e. rewrite He, Hp, Hm. repeat split; lia.
Qed.

Lemma loaded_pending (lat lon : R) (st : State) :
  loaded lat lon st = pending lat lon st 0 (repeat createAlphaFogMaterial 9).
Proof. reflexivity. Qed.

Lemma fetch_lookup (lat lon : R) (st : State) (k : nat) (ms : list Material) (f : nat) :
  fetch_of_rebuild st f ->
  exists fe, nth_error (fetches (pending lat lon st k ms)) f = Some fe /\
             f_rebuild fe = length (rebuilds st) /\
             f_material fe = (length (materials st) + (f - length (fetches st)))%nat.
Proof.
  intros [Hlo Hhi]. unfold pending, loaded, with_rebuilds, with_objects; cbn [fetches].
  rewrite nth_error_app2 by exact Hlo. rewrite nth_error_map.
  destruct (new_entries_nth (length (planes st)) (length (materials st))
              (Utils.tileX (Utils.latLonToTile lat lon Config.ZOOM_LEVEL Config.TILE_SIZE))
              (Utils.tileY (Utils.latLonToTile lat lon Config.ZOOM_LEVEL Config.TILE_SIZE))
              offsets9 (f - length (fetches st)))
    as (e & He & _ & Hm).
  { change (length offsets9) with 9%nat. lia. }
  rewrite He. cbn. eexists; split; [reflexivity|]. cbn. auto.
Qed.

(** One callback: the counter goes up by one; the swap runs if and only if
    the counter reaches 9. *)
Lemma settle_pending (lat lon : R) (st : State) (k : nat) (ms : list Material)
      (f : nat) (loaded_ok : bool) :
  fetch_of_rebuild st f ->
  exists ms', length ms' = length ms /\ (Forall hidden ms -> Forall hidden ms') /\
    settle f loaded_ok (pending lat lon st k ms) =
    if Nat.eqb (S k) 9 then swap (closure st (S k)) (pending lat lon st (S k) ms')
    else pending lat lon st (S k) ms'.
Proof.
  intros Hf. destruct (fetch_lookup lat lon st k ms f Hf) as (fe & Hfe & Hr & Hm).
  unfold settle. rewrite Hfe.
  exists (if loaded_ok
          then update (f - length (fetches st)) (set_texture (f_tileX fe, f_tileY fe)) ms
          else ms).
  split; [destruct loaded_ok; [apply update_length | reflexivity]|].
  split.
  { intros H. destruct loaded_ok; [|exact H].
    apply Forall_update; [|exact H]. intros a Ha. exact Ha. }
  assert (E : (if loaded_ok
               then with_objects
                      (update (f_material fe) (set_texture (f_tileX fe, f_tileY fe))
                         (materials (pending lat lon st k ms)))
                      (planes (pending lat lon st k ms)) (groups (pending lat lon st k ms))
                      (scene (pending lat lon st k ms)) (pending lat lon st k ms)
               else pending lat lon st k ms)
              = pending lat lon st k
                  (if loaded_ok
                   then update (f - length (fetches st))
                          (set_texture (f_tileX fe, f_tileY fe)) ms
                   else ms)).
  { destruct loaded_ok; [|reflexivity].
    unfold pending, with_rebuilds, with_objects; cbn [materials]. rewrite Hm.
    rewrite update_app_r. reflexivity. }
  rewrite E. clear E.
  set (ms' := if loaded_ok then _ else ms).
  unfold onLoadCallback. rewrite Hr.
  assert (Hn : nth_error (rebuilds (pending lat lon st k ms')) (length (rebuilds st))
               = Some (closure st k)).
  { unfold pending, with_rebuilds; cbn [rebuilds].
    rewrite nth_error_app2 by lia. now rewrite Nat.sub_diag. }
  rewrite Hn.
  cbn [count_loaded closure loadedCount totalTiles oldTileGrid oldTileGroup newTileMaterials].
  assert (E : with_rebuilds
                (update (length (rebuilds st)) count_loaded
                   (rebuilds (pending lat lon st k ms')))
                (fetches (pending lat lon st k ms')) (pending lat lon st k ms')
              = pending lat lon st (S k) ms').
  { unfold pending, with_rebuilds, with_objects; cbn.
    rewrite update_snoc. reflexivity. }
  rewrite E. reflexivity.
Qed.

Lemma run_pending (lat lon : R) (st : State) (evs : list (nat * bool)) :
  forall (k : nat) (ms : list Material),
  Forall (fun e => fetch_of_rebuild st (fst e)) evs ->
  (k + length evs < 9)%nat -> Forall hidden ms ->
  exists ms', length ms' = length ms /\ Forall hidden ms' /\
    run evs (pending lat lon st k ms) = pending lat lon st (k + length evs) ms'.
Proof.
  induction evs as [|[f b] evs IH]; intros k ms Hall Hk Hms.
  - exists ms. rewrite Nat.add_0_r. auto.
  - inversion Hall as [|? ? Hf Hrest]; subst. cbn [length] in Hk. cbn [fst] in Hf.
    destruct (settle_pending lat lon st k ms f b Hf) as (ms1 & Hlen1 & Hhid1 & E1).
    assert (Hne : Nat.eqb (S k) 9 = false) by (apply Nat.eqb_neq; lia).
    rewrite Hne in E1.
    destruct (IH (S k) ms1 Hrest ltac:(lia) (Hhid1 Hms)) as (ms' & Hlen & Hhid & E).
    exists ms'. split; [congruence|]. split; [assumption|].
    unfold run in *; cbn [fold_left fst snd length]. rewrite E1, E. f_equal. lia.
Qed.

(** *** The swap *)

Lemma swap_fields (c : Rebuild) (s : State) :
  planes (swap c s)
    = update_all (List.map (fun e => plane (snd e)) (oldTileGrid c)) dispose_geometry (planes s) /\
  materials (swap c s)
    = update_all (newTileMaterials c) (set_opacity (callback_opacity s))
        (update_all (cell_material_ids (planes s) (oldTileGrid c)) dispose_material
           (materials s)) /\
  groups (swap c s) = detach_all (oldTileGroup c) (oldTileGrid c) (groups s) /\
  scene (swap c s)
    = match oldTileGroup c with Some g => remove_id g (scene s) | None => scene s end /\
  tileGrid (swap c s) = tileGrid s /\ tileGroup (swap c s) = tileGroup s /\
  SKY_HEIGHT (swap c s) = SKY_HEIGHT s /\
  currentPixelOffsets (swap c s) = currentPixelOffsets s /\
  centerTile (swap c s) = centerTile s /\
  getOpacityCallback (swap c s) = getOpacityCallback s /\
  rebuilds (swap c s) = rebuilds s /\ fetches (swap c s) = fetches s.
Proof.
  unfold swap. rewrite dispose_all_closed.
  unfold callback_opacity, scene_remove, with_objects.
  destruct (oldTileGroup c); cbn; repeat split; reflexivity.
Qed.

Lemma map_update_invariant {A B} (g : A -> B) (i : nat) (f : A -> A) (l : list A) :
  (forall a, g (f a) = g a) -> List.map g (update i f l) = List.map g l.
Proof.
  intros H. revert i; induction l as [|a l IH]; intros [|i]; cbn; auto.
  - now rewrite H.
  - now rewrite IH.
Qed.

Lemma map_update_all_invariant {A B} (g : A -> B) ids (f : A -> A) (l : list A) :
  (forall a, g (f a) = g a) -> List.map g (update_all ids f l) = List.map g l.
Proof.
  intros H. unfold update_all. revert l; induction ids as [|i ids IH]; intros l; cbn; auto.
  now rewrite IH, map_update_invariant.
Qed.

Lemma detach_all_length og L gs : length (detach_all og L gs) = length gs.
Proof.
  destruct og as [g|]; cbn; [|reflexivity].
  revert gs; induction L as [|e L IH]; intros gs; cbn; auto.
  now rewrite IH, update_length.
Qed.

(** Detaching only ever shrinks the children of a group. *)
Lemma detach_all_shrinks g L gs h children :
  nth_error (detach_all (Some g) L gs) h = Some children ->
  exists before, nth_error gs h = Some before /\ incl children before.
Proof.
  cbn. revert gs children; induction L as [|e L IH]; intros gs children; cbn.
  - intros H. exists children. split; [assumption | apply incl_refl].
  - intros H. destruct (IH _ _ H) as (mid & Hmid & Hincl).
    rewrite update_nth in Hmid. destruct (Nat.eqb g h).
    + destruct (nth_error gs h) as [before|]; cbn in Hmid; [|discriminate].
      injection Hmid as <-. exists before. split; [reflexivity|].
      intros x Hx. apply Hincl in Hx. now apply remove_id_subset in Hx.
    + exists mid. auto.
Qed.

Lemma detach_all_detaches g L gs e children :
  In e L -> nth_error (detach_all (Some g) L gs) g = Some children ->
  ~ In (plane (snd e)) children.
Proof.
  cbn. revert gs children; induction L as [|e0 L IH]; intros gs children; cbn;
    [contradiction|].
  intros [-> | Hin] H.
  - destruct (detach_all_shrinks g L _ g children H) as (mid & Hmid & Hincl).
    rewrite update_nth, Nat.eqb_refl in Hmid.
    destruct (nth_error gs g) as [before|]; cbn in Hmid; [|discriminate].
    injection Hmid as <-. intros Hx. apply Hincl in Hx.
    now apply remove_id_not_in in Hx.
  - now apply (IH _ _ Hin H).
Qed.

Lemma cell_material_ids_in (ps : list Plane) (L : Grid) e p :
  In e L -> nth_error ps (plane (snd e)) = Some p -> In (pl_material p) (cell_material_ids ps L).
Proof.
  intros Hin Hp. unfold cell_material_ids. apply in_flat_map.
  exists e. split; [assumption|]. rewrite Hp. now left.
Qed.

(** After the swap, every cell of the old grid is released, the old group
    is off the scene and every new material has the callback's opacity. *)
Lemma swap_pending (lat lon : R) (st : State) (ms : list Material) :
  wf st -> length ms = 9%nat ->
  let s := swap (closure st 9) (pending lat lon st 9 ms) in
  (forall e, In e (tileGrid st) -> cell_released (tileGroup st) s e) /\
  group_off_scene (tileGroup st) s /\
  (forall e, In e (tileGrid s) -> cell_opacity s (callback_opacity st) e).
Proof.
  intros [Hcells Hgroup] Hlen s.
  destruct (swap_fields (closure st 9) (pending lat lon st 9 ms))
    as (Epl & Emat & Egr & Esc & Etg & _).
  fold s in Epl, Emat, Egr, Esc, Etg.
  cbn [closure oldTileGrid oldTileGroup newTileMaterials] in *.
  assert (Epp : planes (pending lat lon st 9 ms)
                = planes st ++ new_planes (length (materials st)) (SKY_HEIGHT st)
                    (currentPixelOffsets (loaded lat lon st)) offsets9) by reflexivity.
  assert (Epm : materials (pending lat lon st 9 ms) = materials st ++ ms) by reflexivity.
  split; [|split].
  - intros e He. destruct (Hcells e He) as (p & Hp & Hpm & Hmlt).
    assert (Hp' : nth_error (planes (pending lat lon st 9 ms)) (plane (snd e)) = Some p).
    { rewrite Epp, nth_error_app1; [assumption|]. apply nth_error_Some. congruence. }
    split.
    + destruct (update_all_keeps (fun q => pl_material q = pl_material p)
                  (List.map (fun e => plane (snd e)) (tileGrid st)) dispose_geometry
                  _ _ p ltac:(intros x Hx; exact Hx) Hp' eq_refl) as (p1 & Hp1 & Hp1m).
      destruct (update_all_sets (fun q => geometry_disposed q = true)
                  (List.map (fun e => plane (snd e)) (tileGrid st)) dispose_geometry
                  (planes (pending lat lon st 9 ms)) (plane (snd e))
                  ltac:(reflexivity)) as (p2 & Hp2 & Hp2d).
      { apply in_map_iff. exists e. auto. }
      { apply nth_error_Some. congruence. }
      rewrite <- Epl in Hp1, Hp2. exists p1. split; [assumption|].
      split; [congruence|].
      rewrite Hp1m, Hpm.
      destruct (update_all_sets (fun m => mat_disposed m = true)
                  (cell_material_ids (planes (pending lat lon st 9 ms)) (tileGrid st))
                  dispose_material (materials (pending lat lon st 9 ms))
                  (material (snd e)) ltac:(reflexivity)) as (m1 & Hm1 & Hm1d).
      { rewrite <- Hpm. now apply (cell_material_ids_in _ _ e p). }
      { rewrite Epm, length_app. lia. }
      destruct (update_all_keeps (fun m => mat_disposed m = true)
                  (seq (length (materials st)) 9)
                  (set_opacity (callback_opacity (pending lat lon st 9 ms)))
                  _ _ m1 ltac:(intros x Hx; exact Hx) Hm1 Hm1d) as (m2 & Hm2 & Hm2d).
      rewrite <- Emat in Hm2. eauto.
    + intros g children Hg Hch. rewrite Egr, Hg in Hch.
      exact (detach_all_detaches g (tileGrid st) _ e children He Hch).
  - intros g Hg. rewrite Esc, Hg. apply remove_id_not_in.
  - intros e He. rewrite Etg in He.
    change (tileGrid (pending lat lon st 9 ms))
      with (new_entries (length (planes st)) (length (materials st))
              (Utils.tileX (Utils.latLonToTile lat lon Config.ZOOM_LEVEL Config.TILE_SIZE))
              (Utils.tileY (Utils.latLonToTile lat lon Config.ZOOM_LEVEL Config.TILE_SIZE))
              offsets9) in He.
    assert (Hin : In (material (snd e)) (seq (length (materials st)) 9)).
    { change 9%nat with (length offsets9).
      erewrite <- new_entries_materials. apply in_map_iff. exists e. eauto. }
    destruct (update_all_sets (fun m => opacity m = callback_opacity st)
                (seq (length (materials st)) 9)
                (set_opacity (callback_opacity (pending lat lon st 9 ms)))
                (update_all
                   (cell_material_ids (planes (pending lat lon st 9 ms)) (tileGrid st))
                   dispose_material (materials (pending lat lon st 9 ms)))
                (material (snd e)) ltac:(reflexivity) Hin) as (m & Hm & Hmo).
    { rewrite update_all_length, Epm, length_app. apply in_seq in Hin. lia. }
    rewrite <- Emat in Hm. exists m. auto.
Qed.

(** *** Counting settlements *)

Lemma settlements_fetches_incl (st : State) (evs : list (nat * bool)) :
  settlements st evs -> incl (List.map fst evs) (seq (length (fetches st)) 9).
Proof.
  intros [Hall _] f Hf. apply in_map_iff in Hf as (e & <- & He).
  rewrite Forall_forall in Hall. specialize (Hall e He).
  apply in_seq. exact Hall.
Qed.

Lemma settlements_at_most_9 (st : State) (evs : list (nat * bool)) :
  settlements st evs -> (length evs <= 9)%nat.
Proof.
  intros H. pose proof (settlements_fetches_incl st evs H) as Hincl.
  destruct H as [_ Hnd].
  apply NoDup_incl_length in Hincl; [|assumption].
  now rewrite length_map, length_seq in Hincl.
Qed.

Lemma all_settled_iff (st : State) (evs : list (nat * bool)) :
  settlements st evs -> (all_settled st evs <-> length evs = 9%nat).
Proof.
  intros H. pose proof (settlements_at_most_9 st evs H) as Hle.
  pose proof (settlements_fetches_incl st evs H) as Hincl.
  destruct H as [_ Hnd]. split.
  - intros Hall.
    assert (Hge : incl (seq (length (fetches st)) 9) (List.map fst evs)).
    { intros f Hf. apply Hall. apply in_seq in Hf. exact Hf. }
    apply NoDup_incl_length in Hge; [|apply seq_NoDup].
    rewrite length_map, length_seq in Hge. lia.
  - intros Hlen f Hf.
    apply (NoDup_length_incl Hnd (l' := seq (length (fetches st)) 9)).
    + rewrite length_map, length_seq. lia.
    + exact Hincl.
    + apply in_seq. exact Hf.
Qed.

(** *** Before the last callback *)

Lemma pending_untouched (lat lon : R) (st : State) (k : nat) (ms : list Material) :
  length ms = 9%nat -> Forall hidden ms ->
  old_untouched st (pending lat lon st k ms) /\
  (forall e, In e (tileGrid (pending lat lon st k ms)) ->
             cell_opacity (pending lat lon st k ms) 0 e).
Proof.
  intros Hlen Hhid. split.
  - unfold old_untouched, pending, loaded, with_rebuilds, with_objects; cbn.
    repeat split; eexists; reflexivity.
  - intros e He.
    change (tileGrid (pending lat lon st k ms))
      with (new_entries (length (planes st)) (length (materials st))
              (Utils.tileX (Utils.latLonToTile lat lon Config.ZOOM_LEVEL Config.TILE_SIZE))
              (Utils.tileY (Utils.latLonToTile lat lon Config.ZOOM_LEVEL Config.TILE_SIZE))
              offsets9) in He.
    assert (Hin : In (material (snd e)) (seq (length (materials st)) 9)).
    { change 9%nat with (length offsets9).
      erewrite <- new_entries_materials. apply in_map_iff. exists e. eauto. }
    apply in_seq in Hin. unfold cell_opacity.
    change (materials (pending lat lon st k ms)) with (materials st ++ ms).
    rewrite nth_error_app2 by lia.
    destruct (nth_error ms (material (snd e) - length (materials st))) as [m|] eqn:E.
    + exists m. split; [reflexivity|].
      rewrite Forall_forall in Hhid. apply Hhid. eapply nth_error_In, E.
    + apply nth_error_None in E. lia.
Qed.

Lemma run_snoc (evs : list (nat * bool)) (e : nat * bool) (s : State) :
  run (evs ++ [e]) s = settle (fst e) (snd e) (run evs s).
Proof. unfold run. now rewrite fold_left_app. Qed.

Lemma fresh_materials_hidden (n : nat) : Forall hidden (repeat createAlphaFogMaterial n).
Proof. apply Forall_forall. intros m Hm. apply repeat_spec in Hm. now subst. Qed.

(** C1: during one rebuild the swap waits for the last of the 9 fetches,
    loaded or failed.  As long as a fetch of the rebuild has not settled,
    every object that existed before the rebuild is untouched and still on
    the scene, and every new cell has opacity 0; once all 9 have settled,
    every old cell is detached and disposed of, the old group is off the
    scene, and every new cell has the opacity the callback returns. *)
Theorem rebuild_swaps_after_all_fetches_settle
    (lat lon : R) (st : State) (evs : list (nat * bool)) :
  wf st -> settlements st evs ->
  let s := run evs (loadTileGridTextures lat lon st) in
  (~ all_settled st evs ->
     old_untouched st s /\
     (forall e, In e (tileGrid s) -> cell_opacity s 0 e)) /\
  (all_settled st evs ->
     (forall e, In e (tileGrid st) -> cell_released (tileGroup st) s e) /\
     group_off_scene (tileGroup st) s /\
     (forall e, In e (tileGrid s) -> cell_opacity s (callback_opacity st) e)).
Proof.
  intros Hwf Hev s. subst s.
  rewrite loadTileGridTextures_loaded, loaded_pending.
  pose proof (all_settled_iff st evs Hev) as Hiff.
  pose proof (settlements_at_most_9 st evs Hev) as Hle.
  split.
  - intros Hnot.
    assert (Hlt : (length evs < 9)%nat).
    { destruct (Nat.eq_dec (length evs) 9) as [E|E]; [|lia].
      exfalso. apply Hnot, Hiff, E. }
    destruct (run_pending lat lon st evs 0 (repeat createAlphaFogMaterial 9)
                (proj1 Hev) Hlt (fresh_materials_hidden 9)) as (ms & Hlen & Hhid & E).
    rewrite E. rewrite repeat_length in Hlen.
    now apply pending_untouched.
  - intros Hall. apply Hiff in Hall.
    destruct (exists_last (l := evs)) as (evs' & e & ->).
    { intros ->. discriminate. }
    rewrite length_app in Hall; cbn in Hall.
    destruct Hev as [Hrange Hnd].
    apply Forall_app in Hrange as [Hrange' Hlast].
    inversion Hlast as [|? ? Hf _]; subst.
    destruct (run_pending lat lon st evs' 0 (repeat createAlphaFogMaterial 9)
                Hrange' ltac:(lia) (fresh_materials_hidden 9)) as (ms & Hlen & Hhid & E).
    rewrite run_snoc, E.
    destruct (settle_pending lat lon st (0 + length evs') ms (fst e) (snd e) Hf)
      as (ms' & Hlen' & _ & E').
    rewrite E'.
    replace (S (0 + length evs')) with 9%nat by lia. cbn [Nat.eqb].
    apply swap_pending; [assumption|].
    rewrite Hlen', Hlen. apply repeat_length.
Qed.

(** *** What no callback changes *)

Lemma same_frame_refl (s : State) : same_frame s s.
Proof. unfold same_frame; repeat split; reflexivity. Qed.

Lemma same_frame_trans (s1 s2 s3 : State) :
  same_frame s1 s2 -> same_frame s2 s3 -> same_frame s1 s3.
Proof.
  unfold same_frame. intros H12 H23.
  decompose [and] H12; decompose [and] H23. repeat split; congruence.
Qed.

Lemma swap_frame (c : Rebuild) (s : State) : same_frame s (swap c s).
Proof.
  destruct (swap_fields c s)
    as (Epl & Emat & Egr & Esc & Etg & Etgr & Esky & Epo & Ect & Eop & _ & Efe).
  unfold same_frame. rewrite Epl, Emat, Egr, Etg, Etgr, Esky, Epo, Ect, Eop, Efe.
  rewrite !map_update_all_invariant by reflexivity.
  rewrite !update_all_length, detach_all_length.
  repeat split; reflexivity.
Qed.

Lemma onLoadCallback_frame (rid : nat) (s : State) : same_frame s (onLoadCallback rid s).
Proof.
  unfold onLoadCallback. destruct (nth_error (rebuilds s) rid) as [r|];
    [|apply same_frame_refl].
  destruct (Nat.eqb _ _).
  - eapply same_frame_trans; [|apply swap_frame].
    unfold same_frame, with_rebuilds; cbn. repeat split; reflexivity.
  - unfold same_frame, with_rebuilds; cbn. repeat split; reflexivity.
Qed.

Lemma settle_frame (f : nat) (b : bool) (s : State) : same_frame s (settle f b s).
Proof.
  unfold settle. destruct (nth_error (fetches s) f) as [fe|]; [|apply same_frame_refl].
  eapply same_frame_trans; [|apply onLoadCallback_frame].
  destruct b; [|apply same_frame_refl].
  unfold same_frame, with_objects; cbn. rewrite update_length. repeat split; reflexivity.
Qed.

Lemma run_frame (evs : list (nat * bool)) (s : State) : same_frame s (run evs s).
Proof.
  revert s. induction evs as [|e evs IH]; intros s; [apply same_frame_refl|].
  unfold run; cbn [fold_left]. eapply same_frame_trans; [apply settle_frame|].
  apply IH.
Qed.

(** *** The cells of a new grid, one by one *)

Lemma new_cells_nth np nm cx cy sky po offs i o :
  nth_error offs i = Some o ->
  nth_error (new_entries np nm cx cy offs) i
    = Some (cell_key cx cy o,
            {| plane := (np + i)%nat; material := (nm + i)%nat;
               tileX := (cx + fst o)%Z; tileY := (cy + snd o)%Z;
               relativeX := fst o; relativeY := snd o |}) /\
  nth_error (new_planes nm sky po offs) i
    = Some {| pl_material := (nm + i)%nat;
              pl_position := (fst (cell_position po (fst o) (snd o)), sky,
                              snd (cell_position po (fst o) (snd o)));
              pl_rotation_x := - PI / 2; geometry_disposed := false |}.
Proof.
  revert np nm i; induction offs as [|o0 offs IH]; intros np nm [|i] Hi; cbn in Hi;
    try discriminate.
  - injection Hi as ->. cbn. rewrite !Nat.add_0_r. auto.
  - cbn. rewrite <- !Nat.add_succ_comm. now apply IH.
Qed.

Lemma new_entries_in np nm cx cy offs e :
  In e (new_entries np nm cx cy offs) ->
  exists i o, nth_error offs i = Some o /\
    e = (cell_key cx cy o,
         {| plane := (np + i)%nat; material := (nm + i)%nat;
            tileX := (cx + fst o)%Z; tileY := (cy + snd o)%Z;
            relativeX := fst o; relativeY := snd o |}).
Proof.
  intros He. apply In_nth_error in He as (i & Hi).
  assert (Hlt : (i < length offs)%nat).
  { rewrite <- (new_entries_length np nm cx cy). apply nth_error_Some. congruence. }
  destruct (nth_error offs i) as [o|] eqn:Ho; [|apply nth_error_None in Ho; lia].
  exists i, o. split; [exact Ho|].
  destruct (new_cells_nth np nm cx cy 0 (0, 0)%Z offs i o Ho) as [E _]. congruence.
Qed.



(** *** Well-formedness is an invariant *)

Lemma wf_initial : wf initial.
Proof. split; cbn; [contradiction | discriminate]. Qed.

Lemma wf_loaded (lat lon : R) (st : State) : wf (loaded lat lon st).
Proof.
  split.
  - intros e He. cbn [loaded tileGrid] in He.
    apply new_entries_in in He as (i & o & Ho & ->). cbn [snd plane material].
    destruct (new_cells_nth (length (planes st)) (length (materials st)) 0 0
                (SKY_HEIGHT st) (currentPixelOffsets (loaded lat lon st)) offsets9 i o Ho)
      as [_ Hp].
    eexists. split; [|split].
    + cbn [loaded planes]. rewrite nth_error_app2 by lia.
      replace (length (planes st) + i - length (planes st))%nat with i by lia.
      exact Hp.
    + reflexivity.
    + cbn [loaded materials]. rewrite length_app, repeat_length.
      assert (i < length offsets9)%nat by (apply nth_error_Some; congruence).
      change (length offsets9) with 9%nat in *. lia.
  - intros g [= <-]. cbn [loaded groups]. rewrite length_app; cbn. lia.
Qed.

Lemma wf_frame (s s' : State) : same_frame s s' -> wf s -> wf s'.
Proof.
  intros (Etg & Etgr & _ & _ & _ & _ & Epm & _ & Elm & Elg & _) [Hcells Hgroup]. split.
  - intros e He. rewrite Etg in He. destruct (Hcells e He) as (p & Hp & Hpm & Hlt).
    assert (Hn : nth_error (List.map pl_material (planes s')) (plane (snd e))
                 = Some (pl_material p)).
    { rewrite Epm, nth_error_map, Hp. reflexivity. }
    rewrite nth_error_map in Hn.
    destruct (nth_error (planes s') (plane (snd e))) as [p'|]; [|discriminate].
    injection Hn as Hn. exists p'. repeat split; congruence || lia.
  - intros g Hg. rewrite Etgr in Hg. rewrite Elg. now apply Hgroup.
Qed.

Lemma wf_rebuild (lat lon : R) (st : State) (evs : list (nat * bool)) :
  wf (run evs (loadTileGridTextures lat lon st)).
Proof.
  apply (wf_frame (loaded lat lon st)).
  - rewrite loadTileGridTextures_loaded. apply run_frame.
  - apply wf_loaded.
Qed.

Lemma rebuild_witness_fetches :
  length (fetches (run [(0, true); (1, true); (2, false); (3, true); (4, true);
                        (5, true); (6, true); (7, false); (8, true)]%nat
                     (loadTileGridTextures 0 0 initial))) = 9%nat.
Proof.
  destruct (run_frame [(0, true); (1, true); (2, false); (3, true); (4, true);
                       (5, true); (6, true); (7, false); (8, true)]%nat
              (loadTileGridTextures 0 0 initial)) as (_ & _ & _ & _ & _ & _ & _ & _ & _ & _ & E).
  rewrite E, loadTileGridTextures_loaded. reflexivity.
Qed.

Lemma rebuild_swaps_after_all_fetches_settle_witness :
  let st := run [(0, true); (1, true); (2, false); (3, true); (4, true);
                 (5, true); (6, true); (7, false); (8, true)]%nat
              (loadTileGridTextures 0 0 initial) in
  let evs := [(17, true); (9, false); (10, true); (11, true); (12, true);
              (13, true); (14, true); (15, true); (16, true)]%nat in
  let s := run evs (loadTileGridTextures 43 (-79) st) in
  (~ all_settled st evs ->
     old_untouched st s /\
     (forall e, In e (tileGrid s) -> cell_opacity s 0 e)) /\
  (all_settled st evs ->
     (forall e, In e (tileGrid st) -> cell_released (tileGroup st) s e) /\
     group_off_scene (tileGroup st) s /\
     (forall e, In e (tileGrid s) -> cell_opacity s (callback_opacity st) e)).
Proof.
  intros st evs.
  apply (rebuild_swaps_after_all_fetches_settle 43 (-79) st evs).
  - apply wf_rebuild.
  - split.
    + unfold fetch_of_rebuild. subst st. rewrite rebuild_witness_fetches.
      repeat (constructor; [cbn; lia|]). constructor.
    + cbn. repeat (constructor; [cbn; intuition lia|]). constructor.
Defined.


(** C5: the centre cell is placed at [x = TILE_SIZE/2 - pixelX],
    [z = TILE_SIZE/2 - pixelY]; the cell at relative offset [(dx, dy)] is
    placed at the centre cell's position plus [dx * TILE_SIZE] along x and
    minus [dy * TILE_SIZE] along z; and after a rebuild every cell of the
    grid is a mesh at that position, for the pixel offset of the rebuild. *)
Theorem cells_placed_around_center (lat lon : R) (st : State) (evs : list (nat * bool)) :
  (forall (s : State) (dx dy : Z),
     let center := calculateTilePosition 0 0 s in
     center = (Config.TILE_SIZE / 2 - IZR (fst (currentPixelOffsets s)),
               Config.TILE_SIZE / 2 - IZR (snd (currentPixelOffsets s))) /\
     calculateTilePosition dx dy s
       = (fst center + IZR dx * Config.TILE_SIZE, snd center - IZR dy * Config.TILE_SIZE)) /\
  (let s := run evs (loadTileGridTextures lat lon st) in
   let tc := Utils.latLonToTile lat lon Config.ZOOM_LEVEL Config.TILE_SIZE in
   let centerX := Config.TILE_SIZE / 2 - IZR (Utils.pixelX tc) in
   let centerZ := Config.TILE_SIZE / 2 - IZR (Utils.pixelY tc) in
   currentPixelOffsets s = (Utils.pixelX tc, Utils.pixelY tc) /\
   forall e, In e (tileGrid s) ->
     exists p, nth_error (planes s) (plane (snd e)) = Some p /\
       pl_position p = (centerX + IZR (relativeX (snd e)) * Config.TILE_SIZE,
                        SKY_HEIGHT st,
                        centerZ - IZR (relativeY (snd e)) * Config.TILE_SIZE) /\
       (relativeX (snd e) = 0%Z -> relativeY (snd e) = 0%Z ->
        pl_position p = (centerX, SKY_HEIGHT st, centerZ))).
Proof.
  split.
  - intros s dx dy center. subst center.
    rewrite !calculateTilePosition_spec. unfold cell_position, center_position; cbn [fst snd].
    split; [|f_equal; ring].
    f_equal; ring.
  - intros s tc centerX centerZ. subst s.
    rewrite loadTileGridTextures_loaded.
    destruct (run_frame evs (loaded lat lon st))
      as (Etg & _ & _ & Epo & _ & _ & _ & Epos & _).
    rewrite Etg, Epo.
    split; [reflexivity|].
    intros e He. cbn [loaded tileGrid] in He. fold tc in He.
    apply new_entries_in in He as (i & o & Ho & ->). cbn [snd plane relativeX relativeY].
    destruct (new_cells_nth (length (planes st)) (length (materials st)) 0 0
                (SKY_HEIGHT st) (Utils.pixelX tc, Utils.pixelY tc) offsets9 i o Ho)
      as [_ Hp].
    assert (Hn : nth_error (List.map pl_position (planes (run evs (loaded lat lon st))))
                   (length (planes st) + i)
                 = Some (centerX + IZR (fst o) * Config.TILE_SIZE, SKY_HEIGHT st,
                         centerZ - IZR (snd o) * Config.TILE_SIZE)).
    { rewrite Epos, nth_error_map.
      cbn [loaded planes]. fold tc. rewrite nth_error_app2 by lia.
      replace (length (planes st) + i - length (planes st))%nat with i by lia.
      rewrite Hp. reflexivity. }
    rewrite nth_error_map in Hn.
    destruct (nth_error (planes (run evs (loaded lat lon st)))
                (length (planes st) + i)) as [p|]; [|discriminate].
    injection Hn as Hn. exists p. split; [reflexivity|]. split; [exact Hn|].
    intros Hx Hy. rewrite Hn, Hx, Hy. f_equal; [f_equal|]; ring.
Qed.

End TilesFacts.

Module ControlsFacts.
Import Three Controls OrientationSpec.

(** *** Clamping and blending *)

Lemma clamp_bounds (v lo hi : R) : lo <= hi -> lo <= clamp v lo hi <= hi.
Proof.
  intros Hle. unfold clamp, JSMath.max, JSMath.min. split.
  - apply Rmax_l.
  - apply Rmax_lub; [assumption | apply Rmin_l].
Qed.

Lemma clamp_inside (v lo hi : R) : lo <= v <= hi -> clamp v lo hi = v.
Proof.
  intros [Hlo Hhi]. unfold clamp, JSMath.max, JSMath.min.
  rewrite Rmin_right by assumption. now apply Rmax_right.
Qed.

Lemma acos_first_quadrant (x : R) : 0 <= x <= 1 -> 0 <= acos x <= PI / 2.
Proof.
  intros [H0 H1]. pose proof (acos_bound x) as [Hlo Hhi].
  split; [assumption|].
  destruct (Rle_dec (acos x) (PI / 2)) as [Hle | Hgt]; [assumption|].
  exfalso. apply Rnot_le_lt in Hgt.
  pose proof (cos_lt_0 (acos x) Hgt ltac:(pose proof PI_RGT_0; lra)) as Hneg.
  rewrite cos_acos in Hneg by lra. lra.
Qed.

Lemma abs_clamp_unit (v : R) : 0 <= Rabs (clamp v (-1) 1) <= 1.
Proof.
  pose proof (clamp_bounds v (-1) 1 ltac:(lra)) as [Hlo Hhi].
  split; [apply Rabs_pos | apply Rabs_le; lra].
Qed.

Lemma angularDelta_bounds (q raw : Quaternion) : 0 <= angularDelta q raw <= PI.
Proof.
  unfold angularDelta.
  pose proof (acos_first_quadrant _ (abs_clamp_unit (dot q raw))). lra.
Qed.

Lemma time_constant_bounds (q raw : Quaternion) :
  Config.TAU_BASE <= time_constant q raw <= Config.TAU_SLOW.
Proof.
  unfold time_constant, lerp, blend_factor, Config.TAU_BASE, Config.TAU_SLOW.
  pose proof (clamp_bounds (angularDelta q raw / 0.25) 0 1 ltac:(lra)) as [Hlo Hhi].
  set (k := clamp _ 0 1) in *. lra.
Qed.

Lemma frame_dt_min (t t0 : R) : 0.001 <= frame_dt t t0.
Proof. apply Rmax_l. Qed.

(** The blend weight is a proper fraction, never below 1/121: the slowest
    time constant against the shortest frame. *)
Lemma blend_weight_bounds (dt : R) (q raw : Quaternion) :
  0.001 <= dt -> 1 / 121 <= blend_weight dt q raw < 1.
Proof.
  intros Hdt. unfold blend_weight.
  pose proof (time_constant_bounds q raw) as [Hlo Hhi].
  unfold Config.TAU_BASE, Config.TAU_SLOW in *.
  set (tau := time_constant q raw) in *.
  assert (Hpos : 0 < tau + dt) by lra.
  assert (E : dt / (tau + dt) * (tau + dt) = dt) by (field; lra).
  split.
  - apply Rmult_le_reg_r with (tau + dt); [assumption|]. rewrite E. lra.
  - apply Rmult_lt_reg_r with (tau + dt); [assumption|]. rewrite E. lra.
Qed.

(** The frame in the words of the specification. *)
Lemma updateControls_device_mode
    (slerp : Quaternion -> Quaternion -> R -> Quaternion)
    (currentTime : R) (raw : Quaternion) (st : State) :
  device_mode st ->
  let previous := if orientationInitialized st then smoothQ st else raw in
  let st' := updateControls slerp currentTime raw st in
  smoothQ st'
    = slerp previous raw (blend_weight (frame_dt currentTime (lastT st)) previous raw) /\
  orientationInitialized st' = true /\ device_mode st'.
Proof.
  intros [Hmode Hctl]. cbv zeta. unfold updateControls, device_mode.
  rewrite Hmode, Hctl. cbn [andb smoothQ orientationInitialized hasDeviceOrientation controls].
  repeat split.
Qed.

(** C6: one frame of the orientation filter in device-orientation mode.
    With [dt] the elapsed seconds clamped below by 0.001, the angle
    [2 * acos |clamp (dot smoothed raw) (-1) 1|] is mapped by
    [clamp (angle / 0.25) 0 1] to [k], [tau = lerp TAU_SLOW TAU_BASE k],
    [alpha = dt / (tau + dt)], and the new smoothed rotation, which is also
    the camera's, is the slerp of the previous one toward the raw sample by
    [alpha]; on the first frame the previous one is the raw sample itself. *)
Theorem updateControls_filter_step
    (slerp : Quaternion -> Quaternion -> R -> Quaternion)
    (currentTime : R) (raw : Quaternion) (st : State) :
  hasDeviceOrientation st = true -> controls st = true ->
  let st' := updateControls slerp currentTime raw st in
  let previous := if orientationInitialized st then smoothQ st else raw in
  let dt := Rmax 0.001 ((currentTime - lastT st) / 1000) in
  let angularDelta := 2 * acos (Rabs (clamp (dot previous raw) (-1) 1)) in
  let k := clamp (angularDelta / 0.25) 0 1 in
  let tau := lerp Config.TAU_SLOW Config.TAU_BASE k in
  let alpha := dt / (tau + dt) in
  smoothQ st' = slerp previous raw alpha /\
  camera_quaternion st' = smoothQ st' /\
  (orientationInitialized st = false -> previous = raw) /\
  orientationInitialized st' = true /\
  lastT st' = currentTime /\
  0.001 <= dt.
Proof.
  intros Hmode Hctl. cbv zeta. unfold updateControls.
  rewrite Hmode, Hctl. cbn [andb smoothQ camera_quaternion orientationInitialized lastT].
  unfold JSMath.max, JSMath.abs.
  repeat split.
  - now intros ->.
  - apply Rmax_l.
Qed.

(** *** The contract of [slerp], met by the shortest-arc interpolation *)

Lemma dot_comm (a b : Quaternion) : dot a b = dot b a.
Proof. unfold dot. ring. Qed.

Lemma dot_add_l (a b c : Quaternion) : dot (add a b) c = dot a c + dot b c.
Proof. unfold dot, add; cbn. ring. Qed.

Lemma dot_scale_l (k : R) (a c : Quaternion) : dot (scale k a) c = k * dot a c.
Proof. unfold dot, scale; cbn. ring. Qed.

Lemma dot_scale_r (k : R) (a c : Quaternion) : dot a (scale k c) = k * dot a c.
Proof. unfold dot, scale; cbn. ring. Qed.

Lemma sin_arc_identity (a b : R) :
  sin a * cos (a + b) + sin b = cos a * sin (a + b).
Proof.
  rewrite cos_plus, sin_plus. apply Rminus_diag_uniq.
  replace (sin a * (cos a * cos b - sin a * sin b) + sin b
           - cos a * (sin a * cos b + cos a * sin b))
    with (sin b * (1 - (sin a * sin a + cos a * cos a))) by ring.
  pose proof (sin2_cos2 a) as H. unfold Rsqr in H. rewrite H. ring.
Qed.

Lemma sin_arc_norm (a b : R) :
  sin a * sin a + sin b * sin b + 2 * (sin a * sin b) * cos (a + b)
  = sin (a + b) * sin (a + b).
Proof.
  rewrite cos_plus, sin_plus. apply Rminus_diag_uniq.
  replace (sin a * sin a + sin b * sin b
           + 2 * (sin a * sin b) * (cos a * cos b - sin a * sin b)
           - (sin a * cos b + cos a * sin b) * (sin a * cos b + cos a * sin b))
    with (sin a * sin a * (1 - (sin b * sin b + cos b * cos b))
          + sin b * sin b * (1 - (sin a * sin a + cos a * cos a))) by ring.
  pose proof (sin2_cos2 a) as Ha. pose proof (sin2_cos2 b) as Hb.
  unfold Rsqr in Ha, Hb. rewrite Ha, Hb. ring.
Qed.

Lemma sin_acos_pos (c : R) : 0 <= c < 1 -> 0 < sin (acos c).
Proof.
  intros [H0 H1]. rewrite sin_acos by lra. apply sqrt_lt_R0.
  unfold Rsqr. nra.
Qed.

(** The interpolated point is a unit quaternion at angle [(1 - t) * omega]
    from the target when the source is at angle [omega]. *)
Lemma slerp_arc (qa qb : Quaternion) (c t : R) :
  unit qa -> unit qb -> dot qa qb = c -> 0 <= c < 1 ->
  let omega := acos c in
  let res := add (scale (sin ((1 - t) * omega) / sin omega) qa)
                 (scale (sin (t * omega) / sin omega) qb) in
  unit res /\ dot res qb = cos ((1 - t) * omega).
Proof.
  intros Ha Hb Hab Hc omega res. unfold unit in *.
  pose proof (sin_acos_pos c Hc) as Hs. fold omega in Hs.
  assert (Hcos : cos omega = c) by (apply cos_acos; lra).
  assert (Hsplit : omega = (1 - t) * omega + t * omega) by ring.
  set (a := (1 - t) * omega) in *. set (b := t * omega) in *.
  pose proof (sin_arc_identity a b) as I1. pose proof (sin_arc_norm a b) as I2.
  rewrite <- Hsplit, Hcos in I1, I2.
  set (s := sin omega) in *.
  split.
  - subst res. rewrite dot_add_l, !dot_scale_l, !(dot_comm _ (add _ _)).
    rewrite !dot_add_l, !dot_scale_l, Ha, Hb, (dot_comm qb qa), Hab.
    replace (sin a / s * (sin a / s * 1 + sin b / s * c)
             + sin b / s * (sin a / s * c + sin b / s * 1))
      with ((sin a * sin a + sin b * sin b + 2 * (sin a * sin b) * c) / (s * s))
      by (field; lra).
    rewrite I2. field. lra.
  - subst res. rewrite dot_add_l, !dot_scale_l, Hab, Hb.
    replace (sin a / s * c + sin b / s * 1) with ((sin a * c + sin b) / s)
      by (field; lra).
    rewrite I1. field. lra.
Qed.

Lemma unit_negate (q : Quaternion) : unit q -> unit (scale (-1) q).
Proof.
  unfold unit. intros H. rewrite dot_scale_l, dot_scale_r, H. ring.
Qed.

Lemma angularDelta_of_cos (q raw : Quaternion) (x : R) :
  0 <= x <= PI / 2 -> Rabs (dot q raw) = cos x -> angularDelta q raw = 2 * x.
Proof.
  intros Hx Habs. unfold angularDelta.
  assert (Hc : 0 <= cos x <= 1).
  { split; [apply cos_ge_0; lra | apply COS_bound]. }
  assert (Hd : -1 <= dot q raw <= 1).
  { rewrite <- Habs in Hc. destruct Hc as [_ Hc].
    unfold Rabs in Hc. destruct (Rcase_abs (dot q raw)); lra. }
  rewrite clamp_inside by exact Hd. rewrite Habs.
  rewrite acos_cos; [reflexivity|]. pose proof PI_RGT_0. lra.
Qed.

Lemma angularDelta_aligned (q raw : Quaternion) :
  1 <= Rabs (dot q raw) -> angularDelta q raw = 0.
Proof.
  intros H. unfold angularDelta.
  assert (E : Rabs (clamp (dot q raw) (-1) 1) = 1).
  { unfold clamp, JSMath.max, JSMath.min.
    destruct (Rle_dec 0 (dot q raw)) as [Hpos | Hneg].
    - rewrite Rabs_right in H by lra.
      rewrite Rmin_left by assumption. rewrite Rmax_right by lra.
      apply Rabs_right. lra.
    - apply Rnot_le_lt in Hneg. rewrite Rabs_left in H by assumption.
      rewrite Rmin_right by lra. rewrite Rmax_left by lra.
      rewrite Rabs_left by lra. lra. }
  rewrite E, acos_1. ring.
Qed.

Lemma slerp_shortest_arc_contract : slerp_contract slerp_shortest_arc.
Proof.
  intros qa qb t Ha Hb Ht. unfold slerp_shortest_arc; cbv zeta.
  destruct (Rle_dec 1 (Rabs (dot qa qb))) as [Hal | Hnal].
  - split; [assumption|]. rewrite (angularDelta_aligned qa qb Hal). ring.
  - apply Rnot_le_lt in Hnal.
    assert (Hc : 0 <= Rabs (dot qa qb) < 1) by (split; [apply Rabs_pos | assumption]).
    set (c := Rabs (dot qa qb)) in *. set (omega := acos c).
    pose proof (acos_first_quadrant c ltac:(lra)) as Hom. fold omega in Hom.
    assert (Harc : 0 <= (1 - t) * omega <= PI / 2).
    { split; [apply Rmult_le_pos; lra|].
      assert ((1 - t) * omega <= 1 * omega) by (apply Rmult_le_compat_r; lra). lra. }
    assert (Hfull : angularDelta qa qb = 2 * omega).
    { apply angularDelta_of_cos; [exact Hom|]. symmetry. apply cos_acos.
      unfold c in *. lra. }
    rewrite Hfull.
    destruct (Rlt_dec (dot qa qb) 0) as [Hneg | Hpos].
    + destruct (slerp_arc qa (scale (-1) qb) c t Ha (unit_negate qb Hb)) as [Hu Hd].
      { rewrite dot_scale_r. unfold c. rewrite Rabs_left by assumption. ring. }
      { exact Hc. }
      fold omega in Hu, Hd. split; [exact Hu|].
      rewrite (angularDelta_of_cos _ qb ((1 - t) * omega) Harc); [ring|].
      rewrite dot_scale_r in Hd.
      assert (Hc0 : 0 <= cos ((1 - t) * omega)) by (apply cos_ge_0; lra).
      rewrite <- (Rabs_right (cos ((1 - t) * omega))) by lra.
      rewrite <- Hd. rewrite Rabs_mult, (Rabs_left (-1)) by lra. ring.
    + destruct (slerp_arc qa qb c t Ha Hb) as [Hu Hd].
      { unfold c. apply Rnot_lt_le in Hpos. rewrite Rabs_right by lra. reflexivity. }
      { exact Hc. }
      fold omega in Hu, Hd. split; [exact Hu|].
      rewrite (angularDelta_of_cos _ qb ((1 - t) * omega) Harc); [ring|].
      rewrite Hd. apply Rabs_right. apply Rle_ge, cos_ge_0; lra.
Qed.

Lemma updateControls_filter_step_witness :
  let st' := updateControls slerp_shortest_arc 16 half_turn running_filter in
  let dt := Rmax 0.001 ((16 - 0) / 1000) in
  let angularDelta := 2 * acos (Rabs (clamp (dot identity half_turn) (-1) 1)) in
  let k := clamp (angularDelta / 0.25) 0 1 in
  let tau := lerp Config.TAU_SLOW Config.TAU_BASE k in
  let alpha := dt / (tau + dt) in
  smoothQ st' = slerp_shortest_arc identity half_turn alpha /\
  camera_quaternion st' = smoothQ st' /\
  (true = false -> identity = half_turn) /\
  orientationInitialized st' = true /\
  lastT st' = 16 /\
  0.001 <= dt.
Proof.
  exact (updateControls_filter_step slerp_shortest_arc 16 half_turn running_filter
           eq_refl eq_refl).
Defined.

(** *** Convergence under a steady input *)

Section Convergence.

Variable slerp : Quaternion -> Quaternion -> R -> Quaternion.
Hypothesis slerp_ok : slerp_contract slerp.

Variable raw : Quaternion.
Hypothesis raw_unit : unit raw.

Lemma angularDelta_self : angularDelta raw raw = 0.
Proof.
  apply angularDelta_aligned. rewrite raw_unit, Rabs_R1. lra.
Qed.

(** One frame keeps the mode, leaves a unit smoothed rotation and takes
    at least 1/121 off the angle to the raw rotation. *)
Lemma steady_frame (t : R) (st : State) :
  device_mode st ->
  (orientationInitialized st = true -> unit (smoothQ st)) ->
  let previous := if orientationInitialized st then smoothQ st else raw in
  let st' := updateControls slerp t raw st in
  device_mode st' /\ orientationInitialized st' = true /\ unit (smoothQ st') /\
  angularDelta (smoothQ st') raw <= 120 / 121 * angularDelta previous raw.
Proof.
  intros [Hmode Hctl] Hunit previous st'.
  assert (Hprev : unit previous).
  { subst previous. destruct (orientationInitialized st); auto. }
  destruct (updateControls_device_mode slerp t raw st (conj Hmode Hctl))
    as (Hs & Hinit & _).
  fold st' previous in Hs, Hinit.
  pose proof (frame_dt_min t (lastT st)) as Hdt.
  pose proof (blend_weight_bounds (frame_dt t (lastT st)) previous raw Hdt) as [Hlo Hhi].
  set (alpha := blend_weight (frame_dt t (lastT st)) previous raw) in *.
  destruct (slerp_ok previous raw alpha Hprev raw_unit ltac:(lra)) as [Hu Hang].
  split; [|split; [|split]].
  - apply (updateControls_device_mode slerp t raw st (conj Hmode Hctl)).
  - exact Hinit.
  - now rewrite Hs.
  - rewrite Hs, Hang.
    pose proof (angularDelta_bounds previous raw) as [Hpos _].
    apply Rmult_le_compat_r; [assumption | lra].
Qed.

Lemma steady_frames_decay (times : nat -> R) (st : State) (n : nat) :
  device_mode st ->
  (orientationInitialized st = true -> unit (smoothQ st)) ->
  let s := steady_frames slerp raw times (S n) st in
  device_mode s /\ orientationInitialized s = true /\ unit (smoothQ s) /\
  angularDelta (smoothQ s) raw <= (120 / 121) ^ n * PI.
Proof.
  intros Hmode Hunit. induction n as [|n IH]; cbv zeta.
  - cbn [steady_frames].
    destruct (steady_frame (times 0%nat) st Hmode Hunit) as (Hm & Hi & Hu & Hd).
    repeat split; try assumption; try apply Hm.
    eapply Rle_trans; [exact Hd|].
    pose proof (angularDelta_bounds
                  (if orientationInitialized st then smoothQ st else raw) raw).
    cbn [pow]. lra.
  - destruct IH as (Hm & Hi & Hu & Hd).
    set (s := steady_frames slerp raw times (S n) st) in *.
    change (steady_frames slerp raw times (S (S n)) st)
      with (updateControls slerp (times (S n)) raw s).
    destruct (steady_frame (times (S n)) s Hm (fun _ => Hu)) as (Hm' & Hi' & Hu' & Hd').
    rewrite Hi in Hd'.
    repeat split; try assumption; try apply Hm'.
    eapply Rle_trans; [exact Hd'|]. cbn [pow]. rewrite Rmult_assoc.
    apply Rmult_le_compat_l; [lra | exact Hd].
Qed.

(** C7: with the raw orientation held constant, whatever the frame
    times, the angle between the smoothed and the raw rotation is below
    any [eps > 0] from some frame on. *)
Theorem filter_converges_under_steady_input
    (eps : R) (times : nat -> R) (st : State) :
  0 < eps -> device_mode st ->
  (orientationInitialized st = true -> unit (smoothQ st)) ->
  exists N : nat, forall n : nat, (N <= n)%nat ->
    angularDelta (smoothQ (steady_frames slerp raw times n st)) raw < eps.
Proof.
  intros Heps Hmode Hunit.
  pose proof PI_RGT_0 as Hpi.
  destruct (pow_lt_1_zero (120 / 121) ltac:(rewrite Rabs_right; lra)
              (eps / PI) ltac:(apply Rdiv_lt_0_compat; lra)) as [N HN].
  exists (S N). intros [|n] Hn; [lia|].
  destruct (steady_frames_decay times st n Hmode Hunit) as (_ & _ & _ & Hd).
  eapply Rle_lt_trans; [exact Hd|].
  specialize (HN n ltac:(lia)).
  rewrite Rabs_right in HN by (apply Rle_ge, pow_le; lra).
  apply Rmult_lt_compat_r with (r := PI) in HN; [|assumption].
  replace (eps / PI * PI) with eps in HN by (field; lra).
  exact HN.
Qed.

End Convergence.

Lemma half_turn_unit : unit half_turn.
Proof. unfold unit, dot, half_turn; cbn. ring. Qed.

Lemma identity_unit : unit identity.
Proof. unfold unit, dot, identity; cbn. ring. Qed.

Lemma filter_converges_under_steady_input_witness :
  exists N : nat, forall n : nat, (N <= n)%nat ->
    angularDelta
      (smoothQ (steady_frames slerp_shortest_arc half_turn
                  (fun i => 16 * INR i) n running_filter))
      half_turn < 1 / 100.
Proof.
  apply (filter_converges_under_steady_input slerp_shortest_arc
           slerp_shortest_arc_contract half_turn half_turn_unit
           (1 / 100) (fun i => 16 * INR i) running_filter).
  - lra.
  - split; reflexivity.
  - intros _. exact identity_unit.
Defined.

End ControlsFacts.

Module GeolocationFacts.
Import Config Geolocation UI TrackerSpec.

(** *** [getLatLonOnce] *)

Lemma getLatLonOnce_override (g : Geolocation.State) (o : LatLon) :
  gpsOverride g = Some o -> getLatLonOnce g = (g, Now (Resolved o)).
Proof. unfold getLatLonOnce. now intros ->. Qed.

Lemma getLatLonOnce_never_rejects (g : Geolocation.State) (p : LatLon) :
  snd (getLatLonOnce g) <> Now Rejected /\
  snd (getLatLonOnce_success p g) <> Rejected /\
  snd (getLatLonOnce_error g) <> Rejected.
Proof.
  unfold getLatLonOnce, getLatLonOnce_success, getLatLonOnce_error.
  destruct (gpsOverride g); [|destruct (negb (geolocationAvailable g))];
    cbn; repeat split; discriminate.
Qed.

(** A failed query falls back, after the alert, and the fallback becomes
    both the current and the last known position. *)
Lemma getLatLonOnce_error_fallback (g : Geolocation.State) :
  let r := getLatLonOnce_error g in
  snd r = Resolved FALLBACK /\
  effects (fst r) = effects g ++ [Alert] /\
  currentLocation (fst r) = Some FALLBACK /\
  lastKnownPosition (fst r) = Some FALLBACK /\
  gpsOverride (fst r) = gpsOverride g.
Proof. cbn. repeat split. Qed.

(** Without geolocation the promise resolves to the fallback during the
    call, after the alert; the fallback becomes the current position and
    the last known position stays what it was. *)
Lemma getLatLonOnce_unavailable_fallback (g : Geolocation.State) :
  gpsOverride g = None -> geolocationAvailable g = false ->
  let r := getLatLonOnce g in
  snd r = Now (Resolved FALLBACK) /\
  effects (fst r) = effects g ++ [Alert] /\
  currentLocation (fst r) = Some FALLBACK /\
  lastKnownPosition (fst r) = lastKnownPosition g.
Proof.
  intros Ho Ha. unfold getLatLonOnce. rewrite Ho, Ha. cbn. repeat split.
Qed.

(** C9, at the input where the code departs from it: with no override and
    no geolocation, [getLatLonOnce] resolves to the fallback after the
    alert and stores it as the current position, but the last known
    position is still unset; the error callback of a failed query, the
    sibling path, does store it. *)
Theorem getLatLonOnce_unavailable_leaves_last_known_unset :
  let r := getLatLonOnce (Geolocation.initial false) in
  snd r = Now (Resolved FALLBACK) /\
  effects (fst r) = [Alert] /\
  currentLocation (fst r) = Some FALLBACK /\
  lastKnownPosition (fst r) = None /\
  lastKnownPosition (fst (getLatLonOnce_error (Geolocation.initial true))) = Some FALLBACK.
Proof. cbn. repeat split. Qed.

(** *** Suspending and resuming the polling timer *)

Ltac tracker_cases :=
  repeat match goal with
         | |- context [match ?x with _ => _ end] => destruct x eqn:?; cbn in *
         | H : context [match ?x with _ => _ end] |- _ => destruct x eqn:?; cbn in *
         end.

Lemma filter_check_emit (e : Effect) (l : list Effect) :
  is_check e = false -> filter is_check (l ++ [e]) = filter is_check l.
Proof. intros H. rewrite filter_app; cbn. rewrite H. apply app_nil_r. Qed.

(** *** The timer discipline *)

Lemma view_getLatLonOnce (g : Geolocation.State) :
  timer_view (fst (getLatLonOnce g)) = timer_view g.
Proof.
  unfold getLatLonOnce. destruct (gpsOverride g) eqn:E; [reflexivity|].
  destruct (negb (geolocationAvailable g)); cbn; unfold timer_view; cbn; now rewrite E.
Qed.

Lemma view_refreshLocationAndTiles (g : Geolocation.State) :
  timer_view (refreshLocationAndTiles g) = timer_view g.
Proof.
  unfold refreshLocationAndTiles. rewrite <- (view_getLatLonOnce g).
  destruct (getLatLonOnce g) as [g1 [[loc|]|]]; reflexivity.
Qed.

Lemma view_tracking_position (p : LatLon) (g : Geolocation.State) :
  timer_view (tracking_position p g) = timer_view g.
Proof.
  unfold tracking_position. destruct (lastKnownPosition g); [|reflexivity].
  destruct (Rlt_dec _ _); [|reflexivity].
  now rewrite view_refreshLocationAndTiles.
Qed.

(** Stopping leaves no interval set. *)
Lemma stopGPSTracking_fields (s : bool) (g : Geolocation.State) :
  timer_ok s (timer_view g) ->
  gpsOverride (stopGPSTracking g) = gpsOverride g /\
  gpsTrackingIntervalId (stopGPSTracking g) = None /\
  timers (stopGPSTracking g) = [] /\
  nextTimerId (stopGPSTracking g) = nextTimerId g.
Proof.
  unfold timer_ok, timer_view, stopGPSTracking. intros [_ H].
  destruct (gpsTrackingIntervalId g) as [[|id]|] eqn:E.
  - destruct H as (_ & Hr & _). lia.
  - destruct H as (Hts & _). cbn.
    destruct (timers g) as [|[i p] [|? ?]]; cbn in Hts; try discriminate.
    injection Hts as ->. unfold clearInterval; cbn. rewrite Nat.eqb_refl. auto.
  - rewrite E. auto.
Qed.

Lemma view_stopGPSTracking (s : bool) (g : Geolocation.State) :
  timer_ok s (timer_view g) ->
  timer_view (stopGPSTracking g) = (gpsOverride g, None, [], nextTimerId g).
Proof.
  intros H. destruct (stopGPSTracking_fields s g H) as (Ho & Hi & Ht & Hn).
  unfold timer_view. now rewrite Ho, Hi, Ht, Hn.
Qed.

(** Starting without an override sets exactly one interval, a fresh one. *)
Lemma view_startGPSTracking (s : bool) (g : Geolocation.State) :
  timer_ok s (timer_view g) -> gpsOverride g = None ->
  exists period,
    timer_view (startGPSTracking g)
    = (None, Some (nextTimerId g), [(nextTimerId g, period)], S (nextTimerId g)).
Proof.
  intros Hok Ho. destruct (stopGPSTracking_fields s g Hok) as (Ho' & _ & Hts & Hn).
  unfold startGPSTracking. rewrite Ho.
  exists (gpsUpdateInterval (stopGPSTracking g) * 1000).
  unfold timer_view, with_timer; cbn. now rewrite Hts, Hn, Ho', Ho.
Qed.

Lemma startGPSTracking_override (g : Geolocation.State) (o : LatLon) :
  gpsOverride g = Some o -> startGPSTracking g = g.
Proof. unfold startGPSTracking. now intros ->. Qed.

Lemma timer_ok_stopped (s : bool) (override : option LatLon) (next : nat) :
  (1 <= next)%nat -> timer_ok s (override, None, [], next).
Proof. unfold timer_ok. auto. Qed.

Lemma timer_ok_started (next : nat) (period : R) :
  (1 <= next)%nat -> timer_ok true (None, Some next, [(next, period)], S next).
Proof. unfold timer_ok; cbn. repeat split; lia. Qed.

Lemma timer_ok_next (s : bool) (g : Geolocation.State) :
  timer_ok s (timer_view g) -> (1 <= nextTimerId g)%nat.
Proof. unfold timer_ok, timer_view. tauto. Qed.

Lemma timer_ok_start_session (s : bool) v : timer_ok s v -> timer_ok true v.
Proof.
  destruct v as [[[override tid] ts] next]. unfold timer_ok.
  destruct tid; tauto.
Qed.

(** Setting the override needs the interval cleared, which [stopGPSTracking]
    does right after. *)
Lemma timer_ok_stop (s : bool) (g : Geolocation.State) :
  timer_ok s (timer_view g) -> timer_ok s (timer_view (stopGPSTracking g)).
Proof.
  intros H. rewrite (view_stopGPSTracking s g H).
  apply timer_ok_stopped, (timer_ok_next s g H).
Qed.

Lemma timer_ok_start (s : bool) (g : Geolocation.State) :
  timer_ok s (timer_view g) -> timer_ok true (timer_view (startGPSTracking g)).
Proof.
  intros H. destruct (gpsOverride g) as [o|] eqn:Ho.
  - rewrite (startGPSTracking_override g o Ho). now apply (timer_ok_start_session s).
  - destruct (view_startGPSTracking s g H Ho) as [period ->].
    apply timer_ok_started, (timer_ok_next s g H).
Qed.

Lemma timer_ok_tick (s : bool) (id : nat) (g : Geolocation.State) :
  timer_ok s (timer_view g) -> timer_ok s (timer_view (tracking_tick id g)).
Proof.
  intros H. unfold tracking_tick.
  destruct (existsb _ _); [|exact H].
  destruct (gpsOverride g); [now apply timer_ok_stop|].
  destruct (negb (geolocationAvailable g)); exact H.
Qed.

Lemma startAR_located_inv (loc : LatLon) (st : UI.State) :
  tracker_inv st -> tracker_inv (startAR_located loc st).
Proof.
  unfold tracker_inv, startAR_located; cbn [geo started]. intros H.
  destruct (_ && _)%bool.
  - apply (timer_ok_start (started st)). exact H.
  - now apply (timer_ok_start_session (started st)).
Qed.

Lemma resume_inv (w : Waiter) (r : Geolocation.State * Settled) (st : UI.State) :
  timer_view (fst r) = timer_view (geo st) ->
  tracker_inv st -> tracker_inv (resume w r st).
Proof.
  intros Hv H. unfold resume. destruct r as [g [loc|]]; cbn [fst snd] in *.
  - destruct w.
    + apply startAR_located_inv. unfold tracker_inv; cbn [geo started]. now rewrite Hv.
    + unfold tracker_inv; cbn [geo started]. change (timer_view (refresh_located loc g))
        with (timer_view g). now rewrite Hv.
  - destruct w; unfold tracker_inv; cbn [geo started]; now rewrite Hv.
Qed.

(** Clearing the override happens with the interval already cleared. *)
Lemma useCurrentGPS_inv (st : UI.State) : tracker_inv st -> tracker_inv (useCurrentGPS st).
Proof.
  unfold tracker_inv, useCurrentGPS; cbn [geo started]. intros H.
  rewrite view_refreshLocationAndTiles.
  assert (H0 : timer_ok (started st)
                 (None, gpsTrackingIntervalId (geo st), timers (geo st),
                  nextTimerId (geo st))).
  { unfold timer_ok, timer_view in *. destruct (gpsTrackingIntervalId (geo st)); tauto. }
  destruct (started st) eqn:Hs.
  - apply (timer_ok_start true). exact H0.
  - exact H0.
Qed.

Lemma applySelectedLocation_inv (st : UI.State) :
  tracker_inv st -> tracker_inv (applySelectedLocation st).
Proof.
  unfold tracker_inv, applySelectedLocation. intros H.
  destruct (selectedLocation (geo st)) as [sel|]; [|exact H].
  cbn [geo started]. rewrite view_refreshLocationAndTiles.
  set (o := Some {| lat := lat sel; lon := lon sel |}).
  assert (Hset : timer_ok (started st) (timer_view (setGpsOverride o (geo st)))
                 \/ gpsTrackingIntervalId (geo st) <> None).
  { destruct (gpsTrackingIntervalId (geo st)) eqn:E; [right; discriminate|].
    left. unfold timer_ok, timer_view in *; cbn. now rewrite E in *. }
  assert (Hstop : gpsTrackingIntervalId (stopGPSTracking (setGpsOverride o (geo st))) = None
                  /\ timers (stopGPSTracking (setGpsOverride o (geo st))) = []
                  /\ nextTimerId (stopGPSTracking (setGpsOverride o (geo st)))
                     = nextTimerId (geo st)).
  { destruct (stopGPSTracking_fields (started st) (geo st) H) as (_ & Hi & Ht & Hn).
    unfold stopGPSTracking in *; cbn in *.
    destruct (gpsTrackingIntervalId (geo st)) as [[|id]|]; cbn in *; auto. }
  destruct Hstop as (Hi & Ht & Hn).
  unfold timer_view.
  change (gpsOverride
            (setModalOriginalSettings _
               (setIsLiveTrackingEnabled false
                  (stopGPSTracking (setGpsOverride o (geo st))))))
    with (gpsOverride (stopGPSTracking (setGpsOverride o (geo st)))).
  change (gpsTrackingIntervalId
            (setModalOriginalSettings _
               (setIsLiveTrackingEnabled false
                  (stopGPSTracking (setGpsOverride o (geo st))))))
    with (gpsTrackingIntervalId (stopGPSTracking (setGpsOverride o (geo st)))).
  change (timers
            (setModalOriginalSettings _
               (setIsLiveTrackingEnabled false
                  (stopGPSTracking (setGpsOverride o (geo st))))))
    with (timers (stopGPSTracking (setGpsOverride o (geo st)))).
  change (nextTimerId
            (setModalOriginalSettings _
               (setIsLiveTrackingEnabled false
                  (stopGPSTracking (setGpsOverride o (geo st))))))
    with (nextTimerId (stopGPSTracking (setGpsOverride o (geo st)))).
  rewrite Hi, Ht, Hn. apply timer_ok_stopped, (timer_ok_next _ _ H).
Qed.

(** The invariant holds when the page loads and after every event. *)
Lemma tracker_inv_initial (available : bool) : tracker_inv (UI.initial available).
Proof. unfold tracker_inv, timer_ok; cbn. auto. Qed.

Lemma tracker_inv_step (st : UI.State) (e : Event) :
  tracker_inv st -> tracker_inv (step st e).
Proof.
  intros H. destruct e; cbn [step].
  - unfold startAR. destruct (started st) eqn:Hs; [exact H|].
    pose proof (view_getLatLonOnce (geo st)) as Hv.
    destruct (getLatLonOnce (geo st)) as [g [[loc|]|]]; cbn [fst] in Hv.
    + apply startAR_located_inv. unfold tracker_inv; cbn [geo started]. now rewrite Hv, <- Hs.
    + unfold tracker_inv; cbn [geo started]. now rewrite Hv, <- Hs.
    + unfold tracker_inv; cbn [geo started]. now rewrite Hv, <- Hs.
  - unfold tracker_inv, startAR_denied; cbn [geo started].
    now apply (timer_ok_start_session (started st)).
  - apply resume_inv; [reflexivity | exact H].
  - apply resume_inv; [reflexivity | exact H].
  - unfold tracker_inv, on_geo; cbn [geo started]. now apply timer_ok_tick.
  - unfold tracker_inv, on_geo; cbn [geo started]. now rewrite view_tracking_position.
  - exact H.
  - unfold tracker_inv, on_geo; cbn [geo started]. now rewrite view_refreshLocationAndTiles.
  - exact H.
  - exact H.
  - exact H.
  - unfold tracker_inv, onLiveTrackingToggle; cbn [geo started].
    destruct (_ && _)%bool eqn:Hg; [|exact H].
    apply andb_true_iff in Hg as [Hs _].
    destruct checked.
    + rewrite Hs. apply (timer_ok_start (started st)). exact H.
    + apply (timer_ok_stop (started st)). exact H.
  - unfold tracker_inv, onUpdateFrequency; cbn [geo started].
    destruct (_ && _)%bool eqn:Hg; [|exact H].
    apply andb_true_iff in Hg as [Hg _]. apply andb_true_iff in Hg as [Hs _].
    rewrite Hs. apply (timer_ok_start (started st)). exact H.
  - now apply useCurrentGPS_inv.
  - now apply applySelectedLocation_inv.
Qed.

Lemma tracker_inv_run (evs : list Event) (st : UI.State) :
  tracker_inv st -> tracker_inv (run evs st).
Proof.
  revert st. induction evs as [|e evs IH]; intros st H; [exact H|].
  unfold run; cbn [fold_left]. apply IH, tracker_inv_step, H.
Qed.

(** In a session that grew out of the loaded page, an interval held by the
    tracker means that live tracking is running. *)
Lemma reachable_tracking_running (available : bool) (evs : list Event) (id : nat) :
  gpsTrackingIntervalId (geo (run evs (UI.initial available))) = Some id ->
  tracking_running (run evs (UI.initial available)) id.
Proof.
  intros Hid.
  pose proof (tracker_inv_run evs _ (tracker_inv_initial available)) as H.
  unfold tracker_inv, timer_ok, timer_view in H. destruct H as [_ H].
  rewrite Hid in H. destruct H as (Hts & Hr & Hs & Ho).
  unfold tracking_running. auto.
Qed.

(** The guard of the timer callback: with the override set, a tick makes no
    position check and stops the interval it belongs to. *)
Lemma tracking_tick_guard (id : nat) (g : Geolocation.State) :
  gpsOverride g <> None ->
  filter is_check (effects (tracking_tick id g)) = filter is_check (effects g) /\
  gpsOverride (tracking_tick id g) = gpsOverride g.
Proof.
  intros Ho. unfold tracking_tick, stopGPSTracking, truthy.
  destruct (gpsOverride g) eqn:E; [|contradiction].
  tracker_cases; auto.
Qed.

Lemma step_suspended (st : UI.State) (e : Event) :
  suspended st -> clears_override e = false ->
  suspended (step st e) /\ position_checks (step st e) = position_checks st /\
  (started st = true -> started (step st e) = true).
Proof.
  destruct st as [g s].
  destruct g as [ov cur sel live intv thr tid last orig avail ts next eff].
  unfold suspended, override_set, position_checks; cbn.
  intros (Ho & Ht & Hid) Hc. subst.
  destruct ov as [o|]; [clear Ho | contradiction].
  destruct e; try discriminate;
    unfold step, startAR, startAR_located, startAR_denied, resume, on_geo,
      openGPSModal, closeGPSModal, onLiveTrackingToggle, onUpdateFrequency,
      applySelectedLocation, refreshLocationAndTiles, refresh_located,
      getLatLonOnce, getLatLonOnce_success, getLatLonOnce_error,
      showFallbackLocationAlert, tracking_tick, tracking_position, tracking_error,
      startGPSTracking, stopGPSTracking, truthy, is_set; cbn;
    tracker_cases;
    rewrite ?filter_app; cbn; rewrite ?app_nil_r;
    repeat split; try discriminate; try reflexivity; auto.
Qed.

Lemma run_suspended (evs : list Event) (st : UI.State) :
  suspended st -> forallb (fun e => negb (clears_override e)) evs = true ->
  suspended (run evs st) /\ position_checks (run evs st) = position_checks st /\
  (started st = true -> started (run evs st) = true).
Proof.
  revert st. induction evs as [|e evs IH]; intros st Hs Hevs; [cbn; auto|].
  cbn in Hevs. apply andb_true_iff in Hevs as [He Hevs].
  apply negb_true_iff in He.
  destruct (step_suspended st e Hs He) as (Hs1 & Hc1 & Hst1).
  destruct (IH (step st e) Hs1 Hevs) as (Hs2 & Hc2 & Hst2).
  unfold run in *; cbn [fold_left]. repeat split; try apply Hs2; [congruence | auto].
Qed.

(** Setting the override while the interval runs clears the interval. *)
Lemma applySelectedLocation_suspends (st : UI.State) (id : nat) (loc : LatLon) :
  tracking_running st id -> selectedLocation (geo st) = Some loc ->
  let st1 := applySelectedLocation st in
  gpsOverride (geo st1) = Some loc /\ suspended st1 /\
  position_checks st1 = position_checks st /\ started st1 = true.
Proof.
  destruct st as [g s].
  destruct g as [ov cur sel live intv thr tid last orig avail ts next eff].
  unfold tracking_running, suspended, override_set, position_checks; cbn.
  intros (Hs & Ho & Hid & Hts & Hrange) Hsel. subst.
  destruct id as [|id]; [lia|].
  destruct ts as [|[i p] [|? ?]]; cbn in Hts; try discriminate.
  injection Hts as ->.
  unfold applySelectedLocation, refreshLocationAndTiles, refresh_located, getLatLonOnce,
    stopGPSTracking, truthy, clearInterval; cbn.
  rewrite Nat.eqb_refl; cbn.
  rewrite !filter_app; cbn. rewrite !app_nil_r.
  destruct loc as [la lo]; cbn.
  repeat split; discriminate || reflexivity.
Qed.

(** Clearing the override in a started session sets a new interval, whose
    ticks check the position again. *)
Lemma useCurrentGPS_resumes (st : UI.State) :
  suspended st -> started st = true ->
  let st3 := useCurrentGPS st in
  gpsOverride (geo st3) = None /\
  exists id, gpsTrackingIntervalId (geo st3) = Some id /\
             List.map fst (timers (geo st3)) = [id] /\
             (geolocationAvailable (geo st3) = true ->
              position_checks (step st3 (Tick id)) = S (position_checks st3)).
Proof.
  destruct st as [g s].
  destruct g as [ov cur sel live intv thr tid last orig avail ts next eff].
  unfold suspended, override_set, position_checks; cbn.
  intros (_ & Hts & Hid) Hs. subst.
  unfold useCurrentGPS, startGPSTracking, stopGPSTracking, refreshLocationAndTiles,
    refresh_located, getLatLonOnce; cbn.
  destruct avail; cbn.
  - split; [reflexivity|]. exists next. repeat split.
    intros _. unfold tracking_tick; cbn. rewrite Nat.eqb_refl; cbn.
    rewrite !filter_app; cbn. rewrite !app_nil_r, length_app; cbn. lia.
  - split; [reflexivity|]. exists next. repeat split. discriminate.
Qed.

(** C8: setting the override while live tracking runs clears the polling
    interval; until the override is cleared it stays set, no interval is
    set again, no position check is made (a stray tick would make none
    either) and every [getLatLonOnce] resolves to the override during the
    call; clearing the override sets a new polling interval. *)
Theorem override_suspends_polling
    (st : UI.State) (id : nat) (loc : LatLon) (evs : list Event) :
  tracking_running st id ->
  selectedLocation (geo st) = Some loc ->
  forallb (fun e => negb (clears_override e)) evs = true ->
  let st1 := step st ApplySelectedLocation in
  let st2 := run evs st1 in
  let st3 := step st2 UseCurrentGPS in
  (gpsOverride (geo st1) = Some loc /\ timers (geo st1) = [] /\
   gpsTrackingIntervalId (geo st1) = None) /\
  ((exists o, gpsOverride (geo st2) = Some o /\
              getLatLonOnce (geo st2) = (geo st2, Now (Resolved o))) /\
   timers (geo st2) = [] /\
   position_checks st2 = position_checks st /\
   (forall k, position_checks (step st2 (Tick k)) = position_checks st2)) /\
  (gpsOverride (geo st3) = None /\
   exists id', gpsTrackingIntervalId (geo st3) = Some id' /\
               List.map fst (timers (geo st3)) = [id'] /\
               (geolocationAvailable (geo st3) = true ->
                position_checks (step st3 (Tick id')) = S (position_checks st3))).
Proof.
  intros Hrun Hsel Hevs st1 st2 st3.
  destruct (applySelectedLocation_suspends st id loc Hrun Hsel)
    as (Ho1 & Hs1 & Hc1 & Hst1).
  fold (step st ApplySelectedLocation) in Ho1, Hs1, Hc1, Hst1. fold st1 in Ho1, Hs1, Hc1, Hst1.
  destruct (run_suspended evs st1 Hs1 Hevs) as (Hs2 & Hc2 & Hst2).
  fold st2 in Hs2, Hc2, Hst2.
  split; [|split].
  - destruct Hs1 as (_ & Ht & Hi). auto.
  - destruct Hs2 as (Ho2 & Ht2 & Hi2). unfold override_set in Ho2.
    destruct (gpsOverride (geo st2)) as [o|] eqn:Eo; [|contradiction].
    repeat split.
    + exists o. split; [reflexivity | now apply getLatLonOnce_override].
    + exact Ht2.
    + congruence.
    + intros k. unfold position_checks. cbn [step on_geo geo].
      f_equal. apply tracking_tick_guard. congruence.
  - apply useCurrentGPS_resumes; auto.
Qed.

Lemma override_suspends_polling_witness :
  let evs := [Tick 1%nat; OpenModal; CheckSucceeds paris; RefreshRequested;
              LiveTrackingToggled true; UpdateFrequencyChanged 10; StartAR;
              SelectLocation FALLBACK; ApplySelectedLocation; CloseModal] in
  let st1 := step live_session ApplySelectedLocation in
  let st2 := run evs st1 in
  let st3 := step st2 UseCurrentGPS in
  (gpsOverride (geo st1) = Some paris /\ timers (geo st1) = [] /\
   gpsTrackingIntervalId (geo st1) = None) /\
  ((exists o, gpsOverride (geo st2) = Some o /\
              getLatLonOnce (geo st2) = (geo st2, Now (Resolved o))) /\
   timers (geo st2) = [] /\
   position_checks st2 = position_checks live_session /\
   (forall k, position_checks (step st2 (Tick k)) = position_checks st2)) /\
  (gpsOverride (geo st3) = None /\
   exists id', gpsTrackingIntervalId (geo st3) = Some id' /\
               List.map fst (timers (geo st3)) = [id'] /\
               (geolocationAvailable (geo st3) = true ->
                position_checks (step st3 (Tick id')) = S (position_checks st3))).
Proof.
  apply (override_suspends_polling live_session 1 paris).
  - unfold tracking_running; cbn. repeat split; lia.
  - reflexivity.
  - reflexivity.
Defined.

End GeolocationFacts.

Module DistanceFacts.
Import JSMath Utils ProjectionSpec UtilsFacts.

Lemma atan2_quadrant (y x : R) : 0 <= y -> 0 <= x -> atan2 y x <= PI / 2.
Proof.
  intros Hy Hx. unfold atan2. pose proof PI_RGT_0 as Hpi.
  destruct (Rlt_dec 0 x) as [Hpos | Hnpos].
  - left. apply atan_bound.
  - destruct (Rlt_dec x 0) as [Hneg | _]; [lra|].
    destruct (Rlt_dec 0 y); [lra|].
    destruct (Rlt_dec y 0); lra.
Qed.

Lemma atan2_zero_inv (y x : R) : 0 <= y -> 0 <= x -> atan2 y x = 0 -> y = 0.
Proof.
  intros Hy Hx. unfold atan2. pose proof PI_RGT_0 as Hpi.
  destruct (Rlt_dec 0 x) as [Hpos | Hnpos].
  - intros H. destruct Hy as [Hy | <-]; [|reflexivity].
    assert (0 < atan (y / x)).
    { rewrite <- atan_0. apply atan_increasing. now apply Rdiv_lt_0_compat. }
    lra.
  - destruct (Rlt_dec x 0) as [Hneg | _]; [lra|].
    destruct (Rlt_dec 0 y); [lra|]. intros _. lra.
Qed.

(** The angle of a point of the first quadrant of the unit circle. *)
Lemma atan2_sin_cos (t : R) : 0 <= t <= PI / 2 -> atan2 (sin t) (cos t) = t.
Proof.
  intros [H0 H1]. unfold atan2.
  destruct (Rlt_dec 0 (cos t)) as [Hc | Hc].
  - fold (tan t). apply atan_tan.
    destruct H1 as [H1 | ->]; [lra|]. rewrite cos_PI2 in Hc. lra.
  - assert (Ht : t = PI / 2).
    { destruct H1 as [H1 | E]; [|exact E]. exfalso. apply Hc. apply cos_gt_0; lra. }
    subst t. rewrite cos_PI2, sin_PI2.
    destruct (Rlt_dec 0 0); [lra|]. destruct (Rlt_dec 0 1); [reflexivity | lra].
Qed.

Lemma sin_Rabs_quadrant (x : R) : - (PI / 2) <= x <= PI / 2 -> Rabs (sin x) = sin (Rabs x).
Proof.
  intros [Hlo Hhi]. pose proof PI_RGT_0 as Hpi.
  unfold Rabs at 2. destruct (Rcase_abs x) as [Hneg | Hpos].
  - rewrite sin_neg. apply Rabs_left1. 
    assert (0 <= sin (- x)) by (apply sin_ge_0; lra). rewrite sin_neg in H. lra.
  - apply Rabs_right. apply Rle_ge, sin_ge_0; lra.
Qed.

Lemma cos_Rabs_quadrant (x : R) : - (PI / 2) <= x <= PI / 2 -> Rabs (cos x) = cos (Rabs x).
Proof.
  intros [Hlo Hhi].
  replace (cos (Rabs x)) with (cos x).
  - apply Rabs_right, Rle_ge, cos_ge_0; lra.
  - unfold Rabs. destruct (Rcase_abs x); [now rewrite cos_neg | reflexivity].
Qed.

(** When the haversine term is the squared sine of a half angle [x], the
    distance is the arc of angle [2 |x|]. *)
Lemma distance_of_half_angle (lat1 lon1 lat2 lon2 x : R) :
  - (PI / 2) <= x <= PI / 2 ->
  haversine_a lat1 lon1 lat2 lon2 = sin x * sin x ->
  calculateDistance lat1 lon1 lat2 lon2 = 6371000 * (2 * Rabs x).
Proof.
  intros Hx Ha. unfold calculateDistance; cbv zeta. rewrite Ha.
  replace (1 - sin x * sin x) with (cos x * cos x)
    by (pose proof (sin2_cos2 x) as H; unfold Rsqr in H; lra).
  change (sin x * sin x) with (Rsqr (sin x)). change (cos x * cos x) with (Rsqr (cos x)).
  rewrite !sqrt_Rsqr_abs, sin_Rabs_quadrant, cos_Rabs_quadrant by assumption.
  rewrite atan2_sin_cos; [reflexivity|].
  split; [apply Rabs_pos|]. unfold Rabs. destruct (Rcase_abs x); lra.
Qed.

Lemma half_angle_degrees (d : R) :
  -180 <= d <= 180 -> - (PI / 2) <= d * PI / 180 / 2 <= PI / 2.
Proof.
  intros [Hlo Hhi]. pose proof PI_RGT_0 as Hpi.
  replace (d * PI / 180 / 2) with (d * (PI / 360)) by field.
  replace (PI / 2) with (180 * (PI / 360)) by field.
  split; [|apply Rmult_le_compat_r; lra].
  replace (- (180 * (PI / 360))) with (-180 * (PI / 360)) by ring.
  apply Rmult_le_compat_r; lra.
Qed.

Lemma Rabs_half_angle (d : R) : 2 * Rabs (d * PI / 180 / 2) = Rabs d * PI / 180.
Proof.
  pose proof PI_RGT_0 as Hpi.
  replace (d * PI / 180 / 2) with (d * (PI / 360)) by field.
  rewrite Rabs_mult, (Rabs_right (PI / 360)) by lra. field.
Qed.

(** X1: no two coordinates are farther apart than half the circumference
    of the sphere of radius 6371 km, whatever the four numbers are. *)
Theorem calculateDistance_at_most_half_circumference (lat1 lon1 lat2 lon2 : R) :
  calculateDistance lat1 lon1 lat2 lon2 <= 6371000 * PI.
Proof.
  unfold calculateDistance; cbv zeta.
  pose proof (atan2_quadrant (sqrt (haversine_a lat1 lon1 lat2 lon2))
                (sqrt (1 - haversine_a lat1 lon1 lat2 lon2))
                (sqrt_pos _) (sqrt_pos _)).
  lra.
Qed.

(** X2: along a meridian, and along the equator, [calculateDistance] is
    the length of the arc: the radius times the difference of the two
    angles in radians, for differences of at most 180 degrees. *)
Theorem calculateDistance_along_meridian_and_equator (a b l : R) :
  -180 <= b - a <= 180 ->
  calculateDistance a l b l = 6371000 * (Rabs (b - a) * PI / 180) /\
  calculateDistance 0 a 0 b = 6371000 * (Rabs (b - a) * PI / 180).
Proof.
  intros Hd. rewrite <- Rabs_half_angle. split.
  - apply distance_of_half_angle; [now apply half_angle_degrees|].
    unfold haversine_a; cbv zeta.
    replace ((l - l) * PI / 180 / 2) with 0 by field. rewrite sin_0. ring.
  - apply distance_of_half_angle; [now apply half_angle_degrees|].
    unfold haversine_a; cbv zeta.
    replace ((0 - 0) * PI / 180 / 2) with 0 by field.
    replace (0 * PI / 180) with 0 by field.
    rewrite sin_0, cos_0. ring.
Qed.

Lemma calculateDistance_along_meridian_and_equator_witness :
  calculateDistance 10 20 55 20 = 6371000 * (Rabs (55 - 10) * PI / 180) /\
  calculateDistance 0 10 0 55 = 6371000 * (Rabs (55 - 10) * PI / 180).
Proof. apply (calculateDistance_along_meridian_and_equator 10 55 20). lra. Defined.

Lemma sin_zero_near (x : R) : - PI < x < PI -> sin x = 0 -> x = 0.
Proof.
  intros [Hlo Hhi] Hs.
  destruct (Rtotal_order x 0) as [Hneg | [E | Hpos]]; [|exact E|].
  - assert (0 < sin (- x)) by (apply sin_gt_0; lra). rewrite sin_neg in H. lra.
  - assert (0 < sin x) by (apply sin_gt_0; lra). lra.
Qed.

Lemma calculateDistance_zero_inv (lat1 lon1 lat2 lon2 : R) :
  -90 < lat1 < 90 -> -90 < lat2 < 90 -> -360 < lon2 - lon1 < 360 ->
  calculateDistance lat1 lon1 lat2 lon2 = 0 ->
  lat1 = lat2 /\ lon1 = lon2.
Proof.
  intros H1 H2 Hl Hd. pose proof PI_RGT_0 as Hpi.
  unfold calculateDistance in Hd; cbv zeta in Hd.
  pose proof (haversine_a_range lat1 lon1 lat2 lon2) as [Ha0 Ha1].
  assert (Hz : sqrt (haversine_a lat1 lon1 lat2 lon2) = 0).
  { apply (atan2_zero_inv _ (sqrt (1 - haversine_a lat1 lon1 lat2 lon2)));
      [apply sqrt_pos | apply sqrt_pos | lra]. }
  apply sqrt_eq_0 in Hz; [|exact Ha0].
  unfold haversine_a in Hz; cbv zeta in Hz.
  assert (Hc1 : 0 < cos (lat1 * PI / 180)).
  { apply cos_gt_0.
    - replace (- (PI / 2)) with (-90 * PI / 180) by field.
      unfold Rdiv. apply Rmult_lt_compat_r; [lra|]. apply Rmult_lt_compat_r; lra.
    - replace (PI / 2) with (90 * PI / 180) by field.
      unfold Rdiv. apply Rmult_lt_compat_r; [lra|]. apply Rmult_lt_compat_r; lra. }
  assert (Hc2 : 0 < cos (lat2 * PI / 180)).
  { apply cos_gt_0.
    - replace (- (PI / 2)) with (-90 * PI / 180) by field.
      unfold Rdiv. apply Rmult_lt_compat_r; [lra|]. apply Rmult_lt_compat_r; lra.
    - replace (PI / 2) with (90 * PI / 180) by field.
      unfold Rdiv. apply Rmult_lt_compat_r; [lra|]. apply Rmult_lt_compat_r; lra. }
  set (sp := sin ((lat2 - lat1) * PI / 180 / 2)) in *.
  set (sl := sin ((lon2 - lon1) * PI / 180 / 2)) in *.
  pose proof (Rle_0_sqr sp) as Hsp. pose proof (Rle_0_sqr sl) as Hsl. unfold Rsqr in Hsp, Hsl.
  assert (Hcc : 0 < cos (lat1 * PI / 180) * cos (lat2 * PI / 180))
    by now apply Rmult_lt_0_compat.
  set (cc := cos (lat1 * PI / 180) * cos (lat2 * PI / 180)) in *.
  assert (Hz' : sp * sp + cc * (sl * sl) = 0) by (rewrite <- Hz; unfold cc; ring).
  assert (Hccsl : 0 <= cc * (sl * sl)) by (apply Rmult_le_pos; lra).
  assert (Esp : sp * sp = 0) by lra.
  assert (Esl : sl * sl = 0).
  { assert (E : cc * (sl * sl) = 0) by lra.
    apply Rmult_integral in E as [E | E]; [lra | exact E]. }
  apply Rsqr_0_uniq in Esp, Esl. unfold sp in Esp. unfold sl in Esl.
  apply sin_zero_near in Esp, Esl.
  - split.
    + assert (lat2 - lat1 = 0); [|lra].
      replace (lat2 - lat1) with ((lat2 - lat1) * PI / 180 / 2 * (360 / PI)) by (field; lra).
      rewrite Esp. ring.
    + assert (lon2 - lon1 = 0); [|lra].
      replace (lon2 - lon1) with ((lon2 - lon1) * PI / 180 / 2 * (360 / PI)) by (field; lra).
      rewrite Esl. ring.
  - replace ((lon2 - lon1) * PI / 180 / 2) with ((lon2 - lon1) * (PI / 360)) by field.
    replace PI with (360 * (PI / 360)) at 1 4 by field.
    split; [replace (- (360 * (PI / 360))) with (-360 * (PI / 360)) by ring|];
      apply Rmult_lt_compat_r; lra.
  - replace ((lat2 - lat1) * PI / 180 / 2) with ((lat2 - lat1) * (PI / 360)) by field.
    replace PI with (360 * (PI / 360)) at 1 4 by field.
    split; [replace (- (360 * (PI / 360))) with (-360 * (PI / 360)) by ring|];
      apply Rmult_lt_compat_r; lra.
Qed.

(** X3: two distinct coordinates away from the poles, whose longitudes
    differ by less than a full turn, are at a positive distance. *)
Theorem calculateDistance_positive_between_distinct_points (lat1 lon1 lat2 lon2 : R) :
  -90 < lat1 < 90 -> -90 < lat2 < 90 -> -360 < lon2 - lon1 < 360 ->
  lat1 <> lat2 \/ lon1 <> lon2 ->
  0 < calculateDistance lat1 lon1 lat2 lon2.
Proof.
  intros H1 H2 Hl Hne.
  assert (H0 : 0 <= calculateDistance lat1 lon1 lat2 lon2).
  { unfold calculateDistance; cbv zeta.
    pose proof (atan2_nonneg (sqrt (haversine_a lat1 lon1 lat2 lon2))
                  (sqrt (1 - haversine_a lat1 lon1 lat2 lon2))
                  (sqrt_pos _) (sqrt_pos _)).
    lra. }
  destruct H0 as [H0 | H0]; [exact H0|].
  symmetry in H0.
  destruct (calculateDistance_zero_inv lat1 lon1 lat2 lon2 H1 H2 Hl H0) as [-> ->].
  destruct Hne as [Hne | Hne]; now elim Hne.
Qed.

Lemma calculateDistance_positive_between_distinct_points_witness :
  0 < calculateDistance 43.642567 (-79.387054) 48 2.
Proof.
  apply calculateDistance_positive_between_distinct_points; lra.
Defined.

End DistanceFacts.

Module ProjectionFacts.
Import JSMath Utils ProjectionSpec UtilsFacts.

Lemma scale_pos (z : R) : 0 < scale z.
Proof. apply exp_pos. Qed.



Lemma tile_index_monotone (u v z : R) : u <= v -> (tile_index u z <= tile_index v z)%Z.
Proof.
  intros H. unfold tile_index. apply Zfloor_le.
  apply Rmult_le_compat_r; [left; apply scale_pos | exact H].
Qed.

Lemma latitude_angle_range (lat : R) :
  -90 < lat < 90 -> 0 < PI / 4 + lat * PI / 360 < PI / 2.
Proof.
  intros [Hlo Hhi]. pose proof PI_RGT_0 as Hpi.
  replace (PI / 4 + lat * PI / 360) with ((90 + lat) * (PI / 360)) by field.
  replace (PI / 2) with (180 * (PI / 360)) by field.
  split; [apply Rmult_lt_0_compat; lra | apply Rmult_lt_compat_r; lra].
Qed.

Lemma norm_y_decreasing (lat1 lat2 : R) :
  -90 < lat1 -> lat1 <= lat2 -> lat2 < 90 -> norm_y lat2 <= norm_y lat1.
Proof.
  intros Hlo [Hlt | ->] Hhi; [|lra]. pose proof PI_RGT_0 as Hpi.
  unfold norm_y.
  destruct (latitude_angle_range lat1 ltac:(lra)) as [Ha1 Hb1].
  destruct (latitude_angle_range lat2 ltac:(lra)) as [Ha2 Hb2].
  set (t1 := PI / 4 + lat1 * PI / 360) in *.
  set (t2 := PI / 4 + lat2 * PI / 360) in *.
  assert (Ht : t1 < t2).
  { unfold t1, t2. apply Rplus_lt_compat_l. unfold Rdiv.
    apply Rmult_lt_compat_r; [lra|]. apply Rmult_lt_compat_r; lra. }
  assert (Htan : tan t1 < tan t2) by (apply tan_increasing; lra).
  assert (Hpos : 0 < tan t1) by (apply tan_gt_0; lra).
  assert (Hln : ln (tan t1) < ln (tan t2)) by (apply ln_increasing; assumption).
  assert (Hq : ln (tan t1) / PI < ln (tan t2) / PI).
  { unfold Rdiv. apply Rmult_lt_compat_r; [apply Rinv_0_lt_compat; lra | exact Hln]. }
  lra.
Qed.

(** X5: going east never lowers the tile column, and going north, between
    the poles, never raises the tile row. *)
Theorem latLonToTile_monotone (lat1 lat2 lon1 lon2 z s : R) :
  lon1 <= lon2 -> -90 < lat1 -> lat1 <= lat2 -> lat2 < 90 ->
  (tileX (latLonToTile lat1 lon1 z s) <= tileX (latLonToTile lat2 lon2 z s))%Z /\
  (tileY (latLonToTile lat2 lon2 z s) <= tileY (latLonToTile lat1 lon1 z s))%Z.
Proof.
  intros Hlon Hlo Hlat Hhi. rewrite !latLonToTile_spec; cbn [tileX tileY]. split.
  - apply tile_index_monotone. unfold norm_x. lra.
  - apply tile_index_monotone. now apply norm_y_decreasing.
Qed.

Lemma latLonToTile_monotone_witness :
  (tileX (latLonToTile 43.642567 (-79.387054) 11 1000) <= tileX (latLonToTile 48 2 11 1000))%Z /\
  (tileY (latLonToTile 48 2 11 1000) <= tileY (latLonToTile 43.642567 (-79.387054) 11 1000))%Z.
Proof. apply latLonToTile_monotone; lra. Defined.


End ProjectionFacts.

Module MouseLookFacts.
Import Three Controls OrientationSpec MouseLook ControlsFacts.

Lemma last_cons {A : Type} (path : list A) (p d : A) : last (p :: path) d = last path p.
Proof.
  revert p d. induction path as [|q path IH]; intros p d; [reflexivity|].
  change (last (p :: q :: path) d) with (last (q :: path) d).
  now rewrite (IH q d), (IH q p).
Qed.

Lemma handle_pitch_clamped (st : State) (e : MouseEvent) :
  (- PI / 2 <= cameraRotationX st <= PI / 2 /\
   camera_rotation st = (cameraRotationX st, cameraRotationY st)) ->
  (- PI / 2 <= cameraRotationX (handle st e) <= PI / 2 /\
   camera_rotation (handle st e) = (cameraRotationX (handle st e), cameraRotationY (handle st e))).
Proof.
  intros [Hp Hc]. destruct e as [x y | | x y]; cbn; try (split; assumption).
  unfold onMouseMove. destruct (negb (isMouseDown st) || hasDeviceOrientation st);
    [split; assumption|].
  cbn. split; [|reflexivity].
  pose proof PI_RGT_0 as Hpi.
  apply (clamp_bounds _ (- PI / 2) (PI / 2)). lra.
Qed.

(** X7: whatever the mouse does after [initMouseControls], the pitch stays
    within a quarter turn of the horizon and the camera's Euler angles are
    the module's pitch and yaw. *)
Theorem mouse_look_keeps_pitch_clamped (evs : list MouseEvent) (st : State) :
  let s := dispatch evs (initMouseControls st) in
  - PI / 2 <= cameraRotationX s <= PI / 2 /\
  camera_rotation s = (cameraRotationX s, cameraRotationY s).
Proof.
  cbv zeta. unfold dispatch.
  assert (H0 : - PI / 2 <= cameraRotationX (initMouseControls st) <= PI / 2 /\
               camera_rotation (initMouseControls st)
               = (cameraRotationX (initMouseControls st),
                  cameraRotationY (initMouseControls st))).
  { cbn. pose proof PI_RGT_0. split; [lra | reflexivity]. }
  revert H0. generalize (initMouseControls st). clear st.
  induction evs as [|e evs IH]; intros st H0; [exact H0|].
  cbn [fold_left]. apply IH. now apply handle_pitch_clamped.
Qed.

Lemma moves_ignored (path : list (R * R)) (st : State) :
  isMouseDown st = false \/ hasDeviceOrientation st = true ->
  dispatch (List.map (fun p => MouseMove (fst p) (snd p)) path) st = st.
Proof.
  intros H. induction path as [|p path IH]; [reflexivity|].
  unfold dispatch in *; cbn [List.map fold_left handle].
  assert (E : onMouseMove (fst p) (snd p) st = st).
  { unfold onMouseMove. destruct H as [-> | ->]; [reflexivity|].
    now rewrite orb_true_r. }
  rewrite E. exact IH.
Qed.

Lemma moves_yaw (path : list (R * R)) (st : State) :
  isMouseDown st = true -> hasDeviceOrientation st = false ->
  let s := dispatch (List.map (fun p => MouseMove (fst p) (snd p)) path) st in
  cameraRotationY s
    = cameraRotationY st - (fst (last path (mouseX st, mouseY st)) - mouseX st) * 0.002 /\
  isMouseDown s = true /\ hasDeviceOrientation s = false /\
  (mouseX s, mouseY s) = last path (mouseX st, mouseY st).
Proof.
  cbv zeta. revert st. induction path as [|p path IH]; intros st Hd Ho.
  - cbn. repeat split; auto. ring.
  - unfold dispatch in *; cbn [List.map fold_left handle].
    assert (E : onMouseMove (fst p) (snd p) st
                = {| hasDeviceOrientation := hasDeviceOrientation st; controls := controls st;
                     orientationProxy := orientationProxy st; smoothQ := smoothQ st;
                     orientationInitialized := orientationInitialized st; lastT := lastT st;
                     camera_quaternion := camera_quaternion st;
                     isMouseDown := isMouseDown st; mouseX := fst p; mouseY := snd p;
                     cameraRotationX :=
                       JSMath.max (- PI / 2)
                         (JSMath.min (PI / 2) (cameraRotationX st - (snd p - mouseY st) * 0.002));
                     cameraRotationY := cameraRotationY st - (fst p - mouseX st) * 0.002;
                     camera_rotation :=
                       (JSMath.max (- PI / 2)
                          (JSMath.min (PI / 2) (cameraRotationX st - (snd p - mouseY st) * 0.002)),
                        cameraRotationY st - (fst p - mouseX st) * 0.002) |}).
    { unfold onMouseMove. rewrite Hd, Ho. reflexivity. }
    rewrite E. clear E.
    match goal with |- context [fold_left handle _ ?s1] => set (st1 := s1) end.
    destruct (IH st1 Hd Ho) as (Ey & Ed & Eo & Em).
    rewrite Ey, Ed, Eo, Em. cbn [st1 cameraRotationY mouseX mouseY].
    assert (El : last (p :: path) (mouseX st, mouseY st) = last path (fst p, snd p)).
    { rewrite <- surjective_pairing. apply last_cons. }
    rewrite El. repeat split; auto. ring.
Qed.

(** X8: only a drag turns the camera, and by the net horizontal
    displacement: pointer moves with the button up change nothing; after a
    drag from [start] along any path the yaw has changed by 0.002 rad per
    pixel between [start] and the last point of the path. *)
Theorem drag_yaw_is_net_displacement (start : R * R) (path : list (R * R)) (st : State) :
  hasDeviceOrientation st = false ->
  cameraRotationY (dispatch (drag start path) st)
    = cameraRotationY st - (fst (last path start) - fst start) * 0.002 /\
  dispatch (List.map (fun p => MouseMove (fst p) (snd p)) path) (onMouseUp st) = onMouseUp st.
Proof.
  intros Ho. split.
  - unfold drag, dispatch; cbn [fold_left handle].
    destruct (moves_yaw path (onMouseDown (fst start) (snd start) st) eq_refl Ho)
      as (Ey & _).
    unfold dispatch in Ey. rewrite Ey. cbn [onMouseDown cameraRotationY mouseX mouseY].
    now destruct start.
  - apply moves_ignored. now left.
Qed.

Lemma drag_yaw_is_net_displacement_witness :
  cameraRotationY (dispatch (drag (100, 50) [(120, 40); (90, 45); (400, 300)])
                     (initMouseControls (Controls.initial 0)))
    = cameraRotationY (initMouseControls (Controls.initial 0))
      - (fst (last [(120, 40); (90, 45); (400, 300)] (100, 50)) - fst (100, 50)) * 0.002 /\
  dispatch (List.map (fun p => MouseMove (fst p) (snd p)) [(120, 40); (90, 45); (400, 300)])
    (onMouseUp (initMouseControls (Controls.initial 0)))
  = onMouseUp (initMouseControls (Controls.initial 0)).
Proof.
  apply (drag_yaw_is_net_displacement (100, 50) [(120, 40); (90, 45); (400, 300)]
           (initMouseControls (Controls.initial 0))).
  reflexivity.
Defined.

(** X9: in device-orientation mode the camera is set to the slerp of the
    previous rotation toward the raw sample by a weight [alpha] that lies
    between [dt / (0.12 + dt)] and [dt / (0.03 + dt)], hence in
    [[1/121, 1)]; it is the upper value once the angle to the sample is
    0.25 rad or more and the lower one when the angle is 0. *)
Theorem updateControls_blend_weight_range
    (slerp : Quaternion -> Quaternion -> R -> Quaternion)
    (currentTime : R) (raw : Quaternion) (st : State) :
  hasDeviceOrientation st = true -> controls st = true ->
  let previous := if orientationInitialized st then smoothQ st else raw in
  let dt := Rmax 0.001 ((currentTime - lastT st) / 1000) in
  let angle := 2 * acos (Rabs (clamp (dot previous raw) (-1) 1)) in
  exists alpha,
    camera_quaternion (updateControls slerp currentTime raw st) = slerp previous raw alpha /\
    dt / (0.12 + dt) <= alpha <= dt / (0.03 + dt) /\
    1 / 121 <= alpha < 1 /\
    (0.25 <= angle -> alpha = dt / (0.03 + dt)) /\
    (angle = 0 -> alpha = dt / (0.12 + dt)).
Proof.
  intros Hmode Hctl previous dt angle.
  exists (blend_weight dt previous raw).
  assert (Hdt : 0.001 <= dt) by apply Rmax_l.
  pose proof (time_constant_bounds previous raw) as [Hlo Hhi].
  unfold Config.TAU_BASE, Config.TAU_SLOW in Hlo, Hhi.
  split; [|split; [|split; [|split]]].
  - unfold updateControls. rewrite Hmode, Hctl. reflexivity.
  - unfold blend_weight. set (tau := time_constant previous raw) in *.
    assert (E : forall c, 0 < c -> dt / (c + dt) = 1 - c / (c + dt)) by (intros; field; lra).
    rewrite (E 0.12), (E 0.03), (E tau) by lra.
    assert (M : forall a b, 0 < a -> a <= b -> a / (a + dt) <= b / (b + dt)).
    { intros a b Ha Hab.
      apply Rmult_le_reg_r with ((a + dt) * (b + dt)); [apply Rmult_lt_0_compat; lra|].
      replace (a / (a + dt) * ((a + dt) * (b + dt))) with (a * (b + dt)) by (field; lra).
      replace (b / (b + dt) * ((a + dt) * (b + dt))) with (b * (a + dt)) by (field; lra).
      nra. }
    pose proof (M 0.03 tau ltac:(lra) Hlo). pose proof (M tau 0.12 ltac:(lra) Hhi). lra.
  - now apply blend_weight_bounds.
  - intros Hbig. unfold blend_weight, time_constant, blend_factor.
    fold angle.
    assert (Ek : clamp (angularDelta previous raw / 0.25) 0 1 = 1).
    { unfold clamp, JSMath.max, JSMath.min. change (angularDelta previous raw) with angle.
      assert (Hq : 1 <= angle / 0.25) by lra.
      rewrite Rmin_left by exact Hq. apply Rmax_right. lra. }
    rewrite Ek. unfold lerp, Config.TAU_BASE, Config.TAU_SLOW. f_equal. lra.
  - intros Hz. unfold blend_weight, time_constant, blend_factor.
    change (angularDelta previous raw) with angle. rewrite Hz.
    replace (0 / 0.25) with 0 by lra.
    rewrite clamp_inside by lra.
    unfold lerp, Config.TAU_BASE, Config.TAU_SLOW. f_equal. lra.
Qed.

Lemma updateControls_blend_weight_range_witness :
  let previous := if orientationInitialized running_filter
                  then smoothQ running_filter else half_turn in
  let dt := Rmax 0.001 ((16 - lastT running_filter) / 1000) in
  let angle := 2 * acos (Rabs (clamp (dot previous half_turn) (-1) 1)) in
  exists alpha,
    camera_quaternion (updateControls slerp_shortest_arc 16 half_turn running_filter)
    = slerp_shortest_arc previous half_turn alpha /\
    dt / (0.12 + dt) <= alpha <= dt / (0.03 + dt) /\
    1 / 121 <= alpha < 1 /\
    (0.25 <= angle -> alpha = dt / (0.03 + dt)) /\
    (angle = 0 -> alpha = dt / (0.12 + dt)).
Proof.
  apply (updateControls_blend_weight_range slerp_shortest_arc 16 half_turn running_filter);
    reflexivity.
Defined.

End MouseLookFacts.

Module SliderFacts.
Import Store StoreFacts Tiles GridSpec TilesFacts.

(** How a batch of updates by an idempotent function acts on the object of
    any identity. *)
Lemma update_all_nth {A : Type} (f : A -> A) (ids : list nat) (l : list A) (j : nat) :
  (forall a, f (f a) = f a) ->
  nth_error (update_all ids f l) j =
  if existsb (Nat.eqb j) ids then option_map f (nth_error l j) else nth_error l j.
Proof.
  intros Hf. unfold update_all. revert l.
  induction ids as [|i ids IH]; intros l; cbn [fold_left existsb]; [reflexivity|].
  rewrite IH, update_nth, (Nat.eqb_sym j i).
  destruct (Nat.eqb i j), (existsb (Nat.eqb j) ids); cbn [orb]; try reflexivity.
  destruct (nth_error l j) as [a|]; cbn; [now rewrite Hf | reflexivity].
Qed.

Lemma existsb_eqb_In (j : nat) (ids : list nat) :
  existsb (Nat.eqb j) ids = true <-> In j ids.
Proof.
  rewrite existsb_exists. split.
  - intros (x & Hx & E). apply Nat.eqb_eq in E. now subst.
  - intros H. exists j. split; [assumption | apply Nat.eqb_refl].
Qed.

Lemma set_plane_y_idem (h : R) (p : Plane) : set_plane_y h (set_plane_y h p) = set_plane_y h p.
Proof. reflexivity. Qed.

Lemma set_opacity_idem (v : R) (m : Material) : set_opacity v (set_opacity v m) = set_opacity v m.
Proof. reflexivity. Qed.

(** The meshes of the cells of a freshly loaded grid, at the height of the
    state the rebuild started from. *)
Lemma loaded_cell_height (lat lon : R) (st : State) (e : Key * TileData) :
  In e (tileGrid (loaded lat lon st)) ->
  exists p, nth_error (planes (loaded lat lon st)) (plane (snd e)) = Some p /\
            snd (fst (pl_position p)) = SKY_HEIGHT st.
Proof.
  intros He. cbn [loaded tileGrid] in He.
  apply new_entries_in in He as (i & o & Ho & ->). cbn [snd plane].
  destruct (new_cells_nth (length (planes st)) (length (materials st)) 0 0
              (SKY_HEIGHT st)
              (Utils.pixelX (Utils.latLonToTile lat lon Config.ZOOM_LEVEL Config.TILE_SIZE),
               Utils.pixelY (Utils.latLonToTile lat lon Config.ZOOM_LEVEL Config.TILE_SIZE))
              offsets9 i o Ho) as [_ Hp].
  eexists. split.
  - cbn [loaded planes]. rewrite nth_error_app2 by lia.
    replace (length (planes st) + i - length (planes st))%nat with i by lia.
    exact Hp.
  - reflexivity.
Qed.

(** X10: [setSkyHeight h] moves the mesh of every cell of the current grid
    to height [h], keeping its x and z and everything else about it; a mesh
    that belongs to no cell of the grid stays where it is; materials, groups
    and the scene are untouched; and the cells of the next rebuild are
    created at height [h]. *)
Theorem setSkyHeight_moves_the_grid (h : R) (st : State) :
  let s := setSkyHeight h st in
  SKY_HEIGHT s = h /\ tileGrid s = tileGrid st /\
  materials s = materials st /\ groups s = groups st /\ scene s = scene st /\
  (forall e p0, In e (tileGrid st) -> nth_error (planes st) (plane (snd e)) = Some p0 ->
     nth_error (planes s) (plane (snd e))
     = Some {| pl_material := pl_material p0;
               pl_position := (fst (fst (pl_position p0)), h, snd (pl_position p0));
               pl_rotation_x := pl_rotation_x p0;
               geometry_disposed := geometry_disposed p0 |}) /\
  (forall i, ~ In i (List.map (fun e => plane (snd e)) (tileGrid st)) ->
     nth_error (planes s) i = nth_error (planes st) i) /\
  (forall lat lon e, In e (tileGrid (loadTileGridTextures lat lon s)) ->
     exists p, nth_error (planes (loadTileGridTextures lat lon s)) (plane (snd e)) = Some p /\
               snd (fst (pl_position p)) = h).
Proof.
  cbv zeta. repeat split.
  - intros e p0 He Hp. cbn [setSkyHeight planes].
    rewrite update_all_nth by apply set_plane_y_idem.
    assert (Hin : existsb (Nat.eqb (plane (snd e)))
                    (List.map (fun e => plane (snd e)) (tileGrid st)) = true).
    { apply existsb_eqb_In, in_map_iff. exists e. auto. }
    rewrite Hin, Hp. reflexivity.
  - intros i Hi. cbn [setSkyHeight planes].
    rewrite update_all_nth by apply set_plane_y_idem.
    destruct (existsb _ _) eqn:E; [|reflexivity].
    apply existsb_eqb_In in E. contradiction.
  - intros lat lon e. rewrite loadTileGridTextures_loaded.
    apply loaded_cell_height.
Qed.

(** X11: [updateTileOpacity v] gives opacity [v] to the material of every
    cell of the current grid, leaving its texture and its disposal flag
    alone; a material of no cell of the grid is unchanged, and so are all
    meshes, groups and the scene. *)
Theorem updateTileOpacity_sets_the_grid (v : R) (st : State) :
  let s := updateTileOpacity v st in
  tileGrid s = tileGrid st /\ planes s = planes st /\
  groups s = groups st /\ scene s = scene st /\
  (forall e m0, In e (tileGrid st) -> nth_error (materials st) (material (snd e)) = Some m0 ->
     nth_error (materials s) (material (snd e))
     = Some {| opacity := v; map := map m0; transparent := transparent m0;
               mat_disposed := mat_disposed m0 |}) /\
  (forall i, ~ In i (List.map (fun e => material (snd e)) (tileGrid st)) ->
     nth_error (materials s) i = nth_error (materials st) i).
Proof.
  cbv zeta. repeat split.
  - intros e m0 He Hm. cbn [updateTileOpacity with_objects materials].
    rewrite update_all_nth by apply set_opacity_idem.
    assert (Hin : existsb (Nat.eqb (material (snd e)))
                    (List.map (fun e => material (snd e)) (tileGrid st)) = true).
    { apply existsb_eqb_In, in_map_iff. exists e. auto. }
    rewrite Hin, Hm. reflexivity.
  - intros i Hi. cbn [updateTileOpacity with_objects materials].
    rewrite update_all_nth by apply set_opacity_idem.
    destruct (existsb _ _) eqn:E; [|reflexivity].
    apply existsb_eqb_In in E. contradiction.
Qed.

(** X12: while a rebuild is waiting for its fetches, the height and
    opacity sliders act on the incoming grid alone: its cells get the new
    opacity and height at once, before the swap, and the objects that
    existed before the rebuild keep theirs. *)
Theorem sliders_reach_only_the_incoming_grid
    (lat lon v h : R) (st : State) (evs : list (nat * bool)) :
  settlements st evs -> ~ all_settled st evs ->
  let s := setSkyHeight h (updateTileOpacity v (run evs (loadTileGridTextures lat lon st))) in
  old_untouched st s /\
  (forall e, In e (tileGrid s) ->
     cell_opacity s v e /\
     exists p, nth_error (planes s) (plane (snd e)) = Some p /\
               snd (fst (pl_position p)) = h).
Proof.
  intros Hev Hnot s.
  pose proof (all_settled_iff st evs Hev) as Hiff.
  pose proof (settlements_at_most_9 st evs Hev) as Hle.
  assert (Hlt : (length evs < 9)%nat).
  { destruct (Nat.eq_dec (length evs) 9) as [E|E]; [|lia].
    exfalso. apply Hnot, Hiff, E. }
  destruct (run_pending lat lon st evs 0 (repeat createAlphaFogMaterial 9)
              (proj1 Hev) Hlt (fresh_materials_hidden 9)) as (ms & Hlen & _ & E).
  rewrite repeat_length in Hlen.
  subst s. rewrite loadTileGridTextures_loaded, loaded_pending, E. clear E.
  set (P := pending lat lon st (0 + length evs) ms).
  set (tc := Utils.latLonToTile lat lon Config.ZOOM_LEVEL Config.TILE_SIZE).
  assert (Egrid : tileGrid P
                  = new_entries (length (planes st)) (length (materials st))
                      (Utils.tileX tc) (Utils.tileY tc) offsets9) by reflexivity.
  assert (Emat : materials P = materials st ++ ms) by reflexivity.
  assert (Epl : planes P = planes st ++ new_planes (length (materials st)) (SKY_HEIGHT st)
                                         (Utils.pixelX tc, Utils.pixelY tc) offsets9)
    by reflexivity.
  assert (Eplen : length (new_planes (length (materials st)) (SKY_HEIGHT st)
                            (Utils.pixelX tc, Utils.pixelY tc) offsets9) = 9%nat)
    by reflexivity.
  assert (Hmids : List.map (fun e => material (snd e)) (tileGrid P)
                  = seq (length (materials st)) 9).
  { rewrite Egrid. apply new_entries_materials. }
  assert (Hpids : List.map (fun e => plane (snd e)) (tileGrid P)
                  = seq (length (planes st)) 9).
  { rewrite Egrid. apply new_entries_planes. }
  destruct (update_all_app_r (seq (length (materials st)) 9) (set_opacity v)
              (materials st) ms) as (ms' & Ems & Hlen' & _).
  { apply Forall_forall. intros i Hi. apply in_seq in Hi. lia. }
  destruct (update_all_app_r (seq (length (planes st)) 9) (set_plane_y h)
              (planes st)
              (new_planes (length (materials st)) (SKY_HEIGHT st)
                 (Utils.pixelX tc, Utils.pixelY tc) offsets9)) as (ps' & Eps & Hplen' & _).
  { apply Forall_forall. intros i Hi. apply in_seq in Hi. lia. }
  assert (Fm : materials (setSkyHeight h (updateTileOpacity v P)) = materials st ++ ms').
  { cbn [setSkyHeight updateTileOpacity with_objects materials].
    rewrite Hmids, Emat. exact Ems. }
  assert (Fp : planes (setSkyHeight h (updateTileOpacity v P)) = planes st ++ ps').
  { cbn [setSkyHeight updateTileOpacity with_objects planes tileGrid].
    rewrite Hpids, Epl. exact Eps. }
  split.
  - unfold old_untouched. rewrite Fm, Fp. repeat split; eauto.
    + eexists. cbn [setSkyHeight updateTileOpacity with_objects groups].
      reflexivity.
    + eexists. cbn [setSkyHeight updateTileOpacity with_objects scene].
      reflexivity.
  - intros e He.
    change (tileGrid (setSkyHeight h (updateTileOpacity v P))) with (tileGrid P) in He.
    assert (Hm : In (material (snd e)) (seq (length (materials st)) 9)).
    { rewrite <- Hmids. apply in_map_iff. exists e. auto. }
    assert (Hp : In (plane (snd e)) (seq (length (planes st)) 9)).
    { rewrite <- Hpids. apply in_map_iff. exists e. auto. }
    split.
    + unfold cell_opacity.
      destruct (update_all_sets (fun m => opacity m = v) (seq (length (materials st)) 9)
                  (set_opacity v) (materials st ++ ms) (material (snd e))
                  ltac:(reflexivity) Hm) as (m & Hm1 & Hm2).
      { rewrite length_app. apply in_seq in Hm. lia. }
      exists m. split; [|exact Hm2].
      cbn [setSkyHeight updateTileOpacity with_objects materials].
      rewrite Hmids, Emat. exact Hm1.
    + destruct (update_all_sets (fun p => snd (fst (pl_position p)) = h)
                  (seq (length (planes st)) 9) (set_plane_y h)
                  (planes st ++ new_planes (length (materials st)) (SKY_HEIGHT st)
                                  (Utils.pixelX tc, Utils.pixelY tc) offsets9)
                  (plane (snd e)) ltac:(reflexivity) Hp) as (p & Hp1 & Hp2).
      { rewrite length_app, Eplen. apply in_seq in Hp. lia. }
      exists p. split; [|exact Hp2].
      cbn [setSkyHeight updateTileOpacity with_objects planes tileGrid].
      rewrite Hpids, Epl. exact Hp1.
Qed.

Lemma sliders_reach_only_the_incoming_grid_witness :
  let st := loadTileGridTextures 0 0 initial in
  let evs := [(9, true); (12, false); (17, true)]%nat in
  let s := setSkyHeight 350 (updateTileOpacity 0.8 (run evs (loadTileGridTextures 43 (-79) st))) in
  old_untouched st s /\
  (forall e, In e (tileGrid s) ->
     cell_opacity s 0.8 e /\
     exists p, nth_error (planes s) (plane (snd e)) = Some p /\
               snd (fst (pl_position p)) = 350).
Proof.
  intros st evs.
  apply (sliders_reach_only_the_incoming_grid 43 (-79) 0.8 350 st evs).
  - assert (Hf : length (fetches st) = 9%nat).
    { subst st. rewrite loadTileGridTextures_loaded. reflexivity. }
    split.
    + unfold fetch_of_rebuild. rewrite Hf.
      repeat (constructor; [cbn; lia|]). constructor.
    + cbn. repeat (constructor; [cbn; intuition lia|]). constructor.
  - intros Hall.
    assert (Hf : length (fetches st) = 9%nat).
    { subst st. rewrite loadTileGridTextures_loaded. reflexivity. }
    specialize (Hall 10%nat). unfold fetch_of_rebuild in Hall. rewrite Hf in Hall.
    specialize (Hall ltac:(lia)). cbn in Hall. intuition lia.
Defined.

End SliderFacts.

Module OverlapFacts.
Import Store StoreFacts Tiles GridSpec TilesFacts SliderFacts OverlapSpec.

Lemma fades_refl (s : State) : fades s s.
Proof.
  unfold fades. repeat split; eauto using incl_refl.
Qed.

Lemma fades_trans (s1 s2 s3 : State) : fades s1 s2 -> fades s2 s3 -> fades s1 s3.
Proof.
  intros (Hp & Hm & Hg & Hs) (Hp' & Hm' & Hg' & Hs'). repeat split.
  - intros i p H. destruct (Hp i p H) as (p2 & H2 & E2 & D2).
    destruct (Hp' i p2 H2) as (p3 & H3 & E3 & D3).
    exists p3. repeat split; [assumption | congruence | auto].
  - intros i m H. destruct (Hm i m H) as (m2 & H2 & D2).
    destruct (Hm' i m2 H2) as (m3 & H3 & D3). exists m3. auto.
  - intros g c3 H. destruct (Hg' g c3 H) as (c2 & H2 & I2).
    destruct (Hg g c2 H2) as (c1 & H1 & I1). exists c1. split; [assumption|].
    eapply incl_tran; eassumption.
  - eapply incl_tran; eassumption.
Qed.

Lemma fades_same_objects (s s' : State) :
  planes s' = planes s -> materials s' = materials s ->
  groups s' = groups s -> scene s' = scene s -> fades s s'.
Proof.
  intros Ep Em Eg Es. unfold fades. rewrite Ep, Em, Eg, Es.
  repeat split; eauto using incl_refl.
Qed.

Lemma fades_released (og : option nat) (s s' : State) (e : Key * TileData) :
  fades s s' -> cell_released og s e -> cell_released og s' e.
Proof.
  intros (Hp & Hm & Hg & _) [(p & Hpe & Hd & m & Hme & Hmd) Hdet]. split.
  - destruct (Hp _ _ Hpe) as (p' & Hp' & Ep & Dp).
    destruct (Hm _ _ Hme) as (m' & Hm' & Dm).
    exists p'. split; [assumption|]. split; [auto|].
    exists m'. rewrite Ep. auto.
  - intros g ch' Hog Hch. destruct (Hg _ _ Hch) as (ch & Hc & Hi).
    intros Hin. apply (Hdet g ch Hog Hc). now apply Hi.
Qed.

Lemma fades_grid_released (og : option nat) (L : Grid) (s s' : State) :
  fades s s' -> grid_released og L s -> grid_released og L s'.
Proof.
  intros Hf [Hc Hs]. split.
  - intros e He. eapply fades_released; eauto.
  - intros g Hg Hin. apply (Hs g Hg). destruct Hf as (_ & _ & _ & Hi). now apply Hi.
Qed.

Lemma dispose_geometry_idem (p : Plane) :
  dispose_geometry (dispose_geometry p) = dispose_geometry p.
Proof. reflexivity. Qed.

Lemma dispose_material_idem (m : Material) :
  dispose_material (dispose_material m) = dispose_material m.
Proof. reflexivity. Qed.

Lemma fades_swap (c : Rebuild) (s : State) : fades s (swap c s).
Proof.
  destruct (swap_fields c s) as (Epl & Emat & Egr & Esc & _).
  unfold fades. rewrite Epl, Emat, Egr, Esc. repeat split.
  - intros i p Hp. rewrite update_all_nth by apply dispose_geometry_idem.
    rewrite Hp. destruct (existsb _ _); eexists; (split; [reflexivity|]); cbn; auto.
  - intros i m Hm.
    rewrite update_all_nth by apply set_opacity_idem.
    rewrite update_all_nth by apply dispose_material_idem.
    rewrite Hm. destruct (existsb _ _), (existsb _ _);
      eexists; (split; [reflexivity|]); cbn; auto.
  - intros g ch' Hch. destruct (oldTileGroup c) as [og|].
    + apply (detach_all_shrinks og (oldTileGrid c)). exact Hch.
    + exists ch'. split; [exact Hch | apply incl_refl].
  - destruct (oldTileGroup c) as [og|]; [|apply incl_refl].
    intros x Hx. now apply remove_id_subset in Hx.
Qed.

Lemma fades_onLoadCallback (rid : nat) (s : State) : fades s (onLoadCallback rid s).
Proof.
  unfold onLoadCallback. destruct (nth_error (rebuilds s) rid) as [r|]; [|apply fades_refl].
  destruct (Nat.eqb _ _).
  - eapply fades_trans; [|apply fades_swap]. now apply fades_same_objects.
  - now apply fades_same_objects.
Qed.

Lemma fades_settle (f : nat) (b : bool) (s : State) : fades s (settle f b s).
Proof.
  unfold settle. destruct (nth_error (fetches s) f) as [fe|]; [|apply fades_refl].
  eapply fades_trans; [|apply fades_onLoadCallback].
  destruct b; [|apply fades_refl].
  unfold fades, with_objects; cbn [planes materials groups scene].
  repeat split; eauto using incl_refl.
  intros i m Hm. rewrite update_nth, Hm.
  destruct (Nat.eqb _ _); eexists; (split; [reflexivity|]); cbn; auto.
Qed.

(** *** Opacities *)

Lemma opacity_swap_other (c : Rebuild) (s : State) (i : nat) :
  ~ In i (newTileMaterials c) -> opacity_at (swap c s) i = opacity_at s i.
Proof.
  intros Hi. destruct (swap_fields c s) as (_ & Emat & _).
  unfold opacity_at. rewrite Emat.
  rewrite update_all_nth by apply set_opacity_idem.
  destruct (existsb (Nat.eqb i) (newTileMaterials c)) eqn:E.
  - apply existsb_eqb_In in E. contradiction.
  - clear E. rewrite update_all_nth by apply dispose_material_idem.
    destruct (existsb _ _); [|reflexivity].
    now destruct (nth_error (materials s) i).
Qed.

Lemma opacity_swap_new (c : Rebuild) (s : State) (i : nat) :
  In i (newTileMaterials c) -> (i < length (materials s))%nat ->
  opacity_at (swap c s) i = Some (callback_opacity s).
Proof.
  intros Hi Hlt. destruct (swap_fields c s) as (_ & Emat & _).
  unfold opacity_at. rewrite Emat.
  rewrite update_all_nth by apply set_opacity_idem.
  apply existsb_eqb_In in Hi. rewrite Hi. clear Hi.
  rewrite update_all_nth by apply dispose_material_idem.
  destruct (nth_error (materials s) i) as [m|] eqn:Em;
    [|apply nth_error_None in Em; lia].
  destruct (existsb _ _); reflexivity.
Qed.

Lemma opacity_settle_other (f : nat) (b : bool) (s : State) (i : nat) :
  (forall fe r, nth_error (fetches s) f = Some fe ->
                nth_error (rebuilds s) (f_rebuild fe) = Some r ->
                S (loadedCount r) = totalTiles r ->
                ~ In i (newTileMaterials r)) ->
  opacity_at (settle f b s) i = opacity_at s i.
Proof.
  intros H. unfold settle. destruct (nth_error (fetches s) f) as [fe|] eqn:Ef; [|reflexivity].
  set (s1 := if b then _ else s).
  assert (E1 : opacity_at s1 i = opacity_at s i).
  { subst s1. destruct b; [|reflexivity].
    unfold opacity_at, with_objects; cbn [materials]. rewrite update_nth.
    destruct (Nat.eqb _ _); [|reflexivity]. now destruct (nth_error (materials s) i). }
  assert (Er : rebuilds s1 = rebuilds s) by (subst s1; destruct b; reflexivity).
  rewrite <- E1. unfold onLoadCallback. rewrite Er.
  destruct (nth_error (rebuilds s) (f_rebuild fe)) as [r|] eqn:Hr; [|reflexivity].
  destruct (Nat.eqb _ _) eqn:Eq; [|reflexivity].
  apply Nat.eqb_eq in Eq. cbn [count_loaded loadedCount totalTiles] in Eq.
  rewrite opacity_swap_other; [reflexivity|].
  cbn [count_loaded newTileMaterials]. exact (H fe r eq_refl Hr Eq).
Qed.

(** *** What a swap releases *)

Lemma swap_releases (c : Rebuild) (s : State) :
  refs_valid (oldTileGrid c) s ->
  grid_released (oldTileGroup c) (oldTileGrid c) (swap c s).
Proof.
  intros Hv. destruct (swap_fields c s) as (Epl & Emat & Egr & Esc & _).
  split.
  - intros e He. destruct (Hv e He) as (p & Hp & Hlt). split.
    + exists (dispose_geometry p). split; [|split; [reflexivity|]].
      * rewrite Epl, update_all_nth by apply dispose_geometry_idem.
        assert (Hin : existsb (Nat.eqb (plane (snd e)))
                        (List.map (fun e => plane (snd e)) (oldTileGrid c)) = true).
        { apply existsb_eqb_In, in_map_iff. exists e. auto. }
        now rewrite Hin, Hp.
      * cbn [dispose_geometry pl_material].
        destruct (nth_error (materials s) (pl_material p)) as [m|] eqn:Em;
          [|apply nth_error_None in Em; lia].
        rewrite Emat, update_all_nth by apply set_opacity_idem.
        rewrite update_all_nth by apply dispose_material_idem.
        assert (Hin : existsb (Nat.eqb (pl_material p))
                        (cell_material_ids (planes s) (oldTileGrid c)) = true).
        { apply existsb_eqb_In. now apply (cell_material_ids_in _ _ e p). }
        rewrite Hin, Em. clear Hin.
        destruct (existsb _ _); eexists; (split; [reflexivity|]); reflexivity.
    + intros g children Hg Hch. rewrite Egr, Hg in Hch.
      exact (detach_all_detaches g (oldTileGrid c) _ e children He Hch).
  - intros g Hg. rewrite Esc, Hg. apply remove_id_not_in.
Qed.


(** *** One callback, as it acts on the rebuild it belongs to *)

Lemma settle_rebuilds (f : nat) (b : bool) (s : State) (fe : Fetch) :
  nth_error (fetches s) f = Some fe ->
  rebuilds (settle f b s) = update (f_rebuild fe) count_loaded (rebuilds s).
Proof.
  intros Hf. unfold settle. rewrite Hf.
  set (s1 := if b then _ else s).
  assert (Er : rebuilds s1 = rebuilds s) by (subst s1; destruct b; reflexivity).
  unfold onLoadCallback. rewrite Er.
  destruct (nth_error (rebuilds s) (f_rebuild fe)) as [r|] eqn:Hr.
  - destruct (Nat.eqb _ _).
    + destruct (swap_fields (count_loaded r)
                  (with_rebuilds (update (f_rebuild fe) count_loaded (rebuilds s))
                     (fetches s1) s1)) as (_ & _ & _ & _ & _ & _ & _ & _ & _ & _ & E & _).
      rewrite E. reflexivity.
    + reflexivity.
  - rewrite Er. clear -Hr.
    revert Hr. generalize (f_rebuild fe) as i. generalize (rebuilds s) as l.
    induction l as [|a l IH]; intros [|i] H; cbn in *; try discriminate; auto.
    now rewrite <- IH.
Qed.

(** The callback that completes a rebuild runs its swap, on a state that
    differs from the one before by at most a texture and a counter. *)
Lemma settle_swaps (f : nat) (b : bool) (s : State) (fe : Fetch) (r : Rebuild) :
  nth_error (fetches s) f = Some fe ->
  nth_error (rebuilds s) (f_rebuild fe) = Some r ->
  S (loadedCount r) = totalTiles r ->
  exists s2, settle f b s = swap (count_loaded r) s2 /\ same_frame s s2.
Proof.
  intros Hf Hr Hn. unfold settle. rewrite Hf.
  set (s1 := if b then _ else s).
  assert (Er : rebuilds s1 = rebuilds s) by (subst s1; destruct b; reflexivity).
  assert (Fr : same_frame s s1).
  { subst s1. destruct b; [|apply same_frame_refl].
    unfold same_frame, with_objects; cbn. rewrite update_length. repeat split; reflexivity. }
  unfold onLoadCallback. rewrite Er, Hr.
  cbn [count_loaded loadedCount totalTiles]. rewrite Hn, Nat.eqb_refl.
  eexists. split; [reflexivity|].
  eapply same_frame_trans; [exact Fr|].
  unfold same_frame, with_rebuilds; cbn. repeat split; reflexivity.
Qed.

(** *** The cells of an earlier grid are still referred to correctly *)

Lemma refs_persist (X Y s : State) :
  wf X -> (exists ps, planes Y = planes X ++ ps) ->
  (length (materials X) <= length (materials Y))%nat ->
  same_frame Y s -> refs_valid (tileGrid X) s.
Proof.
  intros [Hcells _] [ps Eps] Hlen (_ & _ & _ & _ & _ & _ & Epm & _ & Elm & _) e He.
  destruct (Hcells e He) as (p & Hp & Hpm & Hlt).
  assert (Hn : nth_error (List.map pl_material (planes s)) (plane (snd e))
               = Some (pl_material p)).
  { rewrite Epm, Eps, nth_error_map, nth_error_app1, Hp; [reflexivity|].
    apply nth_error_Some. congruence. }
  rewrite nth_error_map in Hn.
  destruct (nth_error (planes s) (plane (snd e))) as [p'|]; [|discriminate].
  injection Hn as Hn. exists p'. split; [reflexivity|]. lia.
Qed.

Lemma wf_pending (lat lon : R) (st : State) (k : nat) (ms : list Material) :
  length ms = 9%nat -> wf (pending lat lon st k ms).
Proof.
  intros Hlen. apply (wf_frame (loaded lat lon st)); [|apply wf_loaded].
  unfold same_frame, pending, loaded, with_rebuilds, with_objects; cbn.
  rewrite !length_app, Hlen, ?repeat_length. repeat split; reflexivity.
Qed.


(** *** The two rebuilds, callback by callback *)

Section TwoRebuilds.

Variables (a1 b1 a2 b2 : R) (st0 : State) (k : nat) (ms : list Material).
Hypothesis wf0 : wf st0.
Hypothesis ms_length : length ms = 9%nat.

Lemma overlap_fetch_first (s : State) (f : nat) :
  same_frame (loaded a2 b2 (pending a1 b1 st0 k ms)) s ->
  fetch_of_rebuild st0 f ->
  exists fe, nth_error (fetches s) f = Some fe /\
             f_rebuild fe = length (rebuilds st0).
Proof.
  intros (_ & _ & _ & _ & _ & _ & _ & _ & _ & _ & Ef) Hf.
  destruct (fetch_lookup a1 b1 st0 k ms f Hf) as (fe & Hfe & Hr & _).
  exists fe. split; [|exact Hr].
  rewrite Ef. cbn [loaded fetches]. rewrite nth_error_app1; [exact Hfe|].
  apply nth_error_Some. congruence.
Qed.

Lemma overlap_fetch_second (s : State) (f : nat) :
  same_frame (loaded a2 b2 (pending a1 b1 st0 k ms)) s ->
  fetch_of_rebuild (pending a1 b1 st0 k ms) f ->
  exists fe, nth_error (fetches s) f = Some fe /\
             f_rebuild fe = S (length (rebuilds st0)).
Proof.
  intros (_ & _ & _ & _ & _ & _ & _ & _ & _ & _ & Ef) Hf.
  destruct (fetch_lookup a2 b2 (pending a1 b1 st0 k ms) 0 (repeat createAlphaFogMaterial 9)
              f Hf) as (fe & Hfe & Hr & _).
  exists fe. split; [rewrite Ef; exact Hfe|].
  rewrite Hr. unfold pending, with_rebuilds; cbn [rebuilds].
  rewrite length_app; cbn. lia.
Qed.

Lemma overlap_refs_first (s : State) :
  same_frame (loaded a2 b2 (pending a1 b1 st0 k ms)) s -> refs_valid (tileGrid st0) s.
Proof.
  apply (refs_persist st0); [exact wf0 | |].
  - eexists. cbn [loaded pending with_rebuilds with_objects planes].
    rewrite <- app_assoc. reflexivity.
  - cbn [loaded pending with_rebuilds with_objects materials].
    rewrite !length_app. lia.
Qed.

Lemma overlap_refs_second (s : State) :
  same_frame (loaded a2 b2 (pending a1 b1 st0 k ms)) s ->
  refs_valid (tileGrid (pending a1 b1 st0 k ms)) s.
Proof.
  apply (refs_persist (pending a1 b1 st0 k ms)); [now apply wf_pending | |].
  - eexists. cbn [loaded planes]. reflexivity.
  - cbn [loaded materials]. rewrite length_app. lia.
Qed.

Lemma overlap_callback (s : State) :
  same_frame (loaded a2 b2 (pending a1 b1 st0 k ms)) s ->
  callback_opacity s = callback_opacity st0.
Proof.
  intros (_ & _ & _ & _ & _ & Eo & _). unfold callback_opacity. now rewrite Eo.
Qed.

Lemma overlap_initial :
  (k < 9)%nat ->
  overlap_inv st0 (pending a1 b1 st0 k ms) (loaded a2 b2 (pending a1 b1 st0 k ms))
    (loaded a2 b2 (pending a1 b1 st0 k ms)) k 0.
Proof.
  intros Hk. unfold overlap_inv. split; [apply same_frame_refl|].
  split; [|split; [|split; [|lia]]].
  - cbn [loaded pending with_rebuilds with_objects rebuilds].
    rewrite nth_error_app1 by (rewrite length_app; cbn; lia).
    rewrite nth_error_app2 by lia. now rewrite Nat.sub_diag.
  - cbn [loaded rebuilds].
    assert (El : length (rebuilds (pending a1 b1 st0 k ms)) = S (length (rebuilds st0))).
    { unfold pending, with_rebuilds; cbn [rebuilds]. rewrite length_app; cbn. lia. }
    rewrite nth_error_app2 by lia. rewrite El, Nat.sub_diag. reflexivity.
  - lia.
Qed.

Lemma overlap_step_first (s : State) (n1 n2 f : nat) (b : bool) :
  overlap_inv st0 (pending a1 b1 st0 k ms) (loaded a2 b2 (pending a1 b1 st0 k ms)) s n1 n2 ->
  fetch_of_rebuild st0 f ->
  overlap_inv st0 (pending a1 b1 st0 k ms) (loaded a2 b2 (pending a1 b1 st0 k ms))
    (settle f b s) (S n1) n2.
Proof.
  intros (Hfr & Hr1 & Hr2 & H1 & H2) Hf.
  destruct (overlap_fetch_first s f Hfr Hf) as (fe & Hfe & Hrid).
  assert (Hfr' : same_frame (loaded a2 b2 (pending a1 b1 st0 k ms)) (settle f b s)).
  { eapply same_frame_trans; [exact Hfr | apply settle_frame]. }
  split; [exact Hfr'|].
  split; [|split; [|split]].
  - rewrite (settle_rebuilds f b s fe Hfe), Hrid.
    now rewrite (update_nth_same _ _ _ _ Hr1).
  - rewrite (settle_rebuilds f b s fe Hfe), Hrid.
    rewrite update_nth_other by lia. exact Hr2.
  - intros Hn. destruct (Nat.eq_dec n1 8) as [-> | Hne].
    + destruct (settle_swaps f b s fe (closure st0 8) Hfe) as (s2 & E & Hfr2).
      { now rewrite Hrid. }
      { reflexivity. }
      rewrite E.
      apply (swap_releases (count_loaded (closure st0 8)) s2).
      cbn [count_loaded closure oldTileGrid].
      apply overlap_refs_first. exact (same_frame_trans _ _ _ Hfr Hfr2).
    + apply (fades_grid_released _ _ s); [apply fades_settle | apply H1; lia].
  - intros Hn. destruct (H2 Hn) as [Hrel Hop]. split.
    + apply (fades_grid_released _ _ s); [apply fades_settle | exact Hrel].
    + intros i Hi. rewrite opacity_settle_other; [now apply Hop|].
      intros fe' r Hfe' Hr' _. rewrite Hfe in Hfe'. injection Hfe' as <-.
      rewrite Hrid, Hr1 in Hr'. injection Hr' as <-.
      cbn [closure newTileMaterials]. intros Hin.
      apply in_seq in Hi, Hin.
      unfold pending, with_rebuilds, with_objects in Hi; cbn [materials] in Hi.
      rewrite length_app in Hi. lia.
Qed.

Lemma overlap_step_second (s : State) (n1 n2 f : nat) (b : bool) :
  overlap_inv st0 (pending a1 b1 st0 k ms) (loaded a2 b2 (pending a1 b1 st0 k ms)) s n1 n2 ->
  fetch_of_rebuild (pending a1 b1 st0 k ms) f ->
  overlap_inv st0 (pending a1 b1 st0 k ms) (loaded a2 b2 (pending a1 b1 st0 k ms))
    (settle f b s) n1 (S n2).
Proof.
  intros (Hfr & Hr1 & Hr2 & H1 & H2) Hf.
  destruct (overlap_fetch_second s f Hfr Hf) as (fe & Hfe & Hrid).
  assert (Hfr' : same_frame (loaded a2 b2 (pending a1 b1 st0 k ms)) (settle f b s)).
  { eapply same_frame_trans; [exact Hfr | apply settle_frame]. }
  split; [exact Hfr'|].
  split; [|split; [|split]].
  - rewrite (settle_rebuilds f b s fe Hfe), Hrid.
    rewrite update_nth_other by lia. exact Hr1.
  - rewrite (settle_rebuilds f b s fe Hfe), Hrid.
    now rewrite (update_nth_same _ _ _ _ Hr2).
  - intros Hn. apply (fades_grid_released _ _ s); [apply fades_settle | now apply H1].
  - intros Hn. destruct (Nat.eq_dec n2 8) as [-> | Hne].
    + destruct (settle_swaps f b s fe (closure (pending a1 b1 st0 k ms) 8) Hfe)
        as (s2 & E & Hfr2).
      { now rewrite Hrid. }
      { reflexivity. }
      assert (Hfr3 : same_frame (loaded a2 b2 (pending a1 b1 st0 k ms)) s2).
      { exact (same_frame_trans _ _ _ Hfr Hfr2). }
      rewrite E. split.
      * apply (swap_releases (count_loaded (closure (pending a1 b1 st0 k ms) 8)) s2).
        cbn [count_loaded closure oldTileGrid]. now apply overlap_refs_second.
      * intros i Hi. rewrite <- (overlap_callback s2 Hfr3).
        apply opacity_swap_new; [exact Hi|].
        destruct Hfr3 as (_ & _ & _ & _ & _ & _ & _ & _ & Elm & _).
        rewrite Elm. cbn [loaded materials]. rewrite length_app, repeat_length.
        apply in_seq in Hi. lia.
    + destruct (H2 ltac:(lia)) as [Hrel Hop]. split.
      * apply (fades_grid_released _ _ s); [apply fades_settle | exact Hrel].
      * intros i Hi. rewrite opacity_settle_other; [now apply Hop|].
        intros fe' r Hfe' Hr' Hcount. rewrite Hfe in Hfe'. injection Hfe' as <-.
        rewrite Hrid, Hr2 in Hr'. injection Hr' as <-.
        cbn [closure loadedCount totalTiles] in Hcount. lia.
Qed.

Lemma overlap_run (evs : list (nat * bool)) :
  forall (s : State) (n1 n2 : nat),
  overlap_inv st0 (pending a1 b1 st0 k ms) (loaded a2 b2 (pending a1 b1 st0 k ms)) s n1 n2 ->
  Forall (fun e => fetch_of_rebuild st0 (fst e)
                   \/ fetch_of_rebuild (pending a1 b1 st0 k ms) (fst e)) evs ->
  overlap_inv st0 (pending a1 b1 st0 k ms) (loaded a2 b2 (pending a1 b1 st0 k ms))
    (run evs s)
    (n1 + length (filter (first_rebuild st0) evs))
    (n2 + length (filter (fun e => negb (first_rebuild st0 e)) evs)).
Proof.
  induction evs as [|[f b] evs IH]; intros s n1 n2 Hinv Hall.
  - cbn. now rewrite !Nat.add_0_r.
  - inversion Hall as [|? ? Hf Hrest]; subst. cbn [fst] in Hf.
    change (run ((f, b) :: evs) s) with (run evs (settle f b s)).
    assert (Hlen : length (fetches (pending a1 b1 st0 k ms)) = (length (fetches st0) + 9)%nat).
    { unfold pending, loaded, with_rebuilds, with_objects; cbn [fetches].
      rewrite length_app, length_map, new_entries_length. reflexivity. }
    cbn [filter].
    destruct Hf as [Hf | Hf].
    + assert (E : first_rebuild st0 (f, b) = true).
      { apply Nat.ltb_lt. unfold fetch_of_rebuild in Hf. cbn [fst]. lia. }
      rewrite E. cbn [negb length]. rewrite <- (Nat.add_succ_comm n1).
      apply (IH _ (S n1) n2); [|exact Hrest]. now apply overlap_step_first.
    + assert (E : first_rebuild st0 (f, b) = false).
      { apply Nat.ltb_ge. unfold fetch_of_rebuild in Hf. cbn [fst]. lia. }
      rewrite E. cbn [negb length]. rewrite <- (Nat.add_succ_comm n2).
      apply (IH _ n1 (S n2)); [|exact Hrest]. now apply overlap_step_second.
Qed.

End TwoRebuilds.

(** *** Counting the callbacks still to come *)

Lemma remaining_fetches (lo n : nat) (done todo : list nat) (p : nat -> bool) :
  NoDup done -> incl done (seq lo n) ->
  (forall f, In f (seq lo n) -> In f done \/ In f todo) ->
  (forall f, In f (seq lo n) -> p f = true) ->
  (n <= length done + length (filter p todo))%nat.
Proof.
  intros Hnd Hincl Hcover Hp.
  set (q := fun f => existsb (Nat.eqb f) done).
  pose proof (filter_length q (seq lo n)) as Hsplit. rewrite length_seq in Hsplit.
  assert (H1 : (length (filter q (seq lo n)) <= length done)%nat).
  { apply NoDup_incl_length; [apply NoDup_filter, seq_NoDup|].
    intros f Hf. apply filter_In in Hf as [_ Hq]. now apply existsb_eqb_In in Hq. }
  assert (H2 : (length (filter (fun f => negb (q f)) (seq lo n))
                <= length (filter p todo))%nat).
  { apply NoDup_incl_length; [apply NoDup_filter, seq_NoDup|].
    intros f Hf. apply filter_In in Hf as [Hin Hq].
    apply filter_In. split; [|now apply Hp].
    destruct (Hcover f Hin) as [Hd | Ht]; [|exact Ht].
    apply existsb_eqb_In in Hd. unfold q in Hq. rewrite Hd in Hq. discriminate. }
  lia.
Qed.


(** X13: two rebuilds under way at once leave nothing behind.  When a
    second rebuild starts before the fetches of the first have all settled,
    then, in whatever order the remaining fetches of both settle, loaded or
    failed, in the end the grid from before the first rebuild and the grid
    of the first rebuild are both released, their groups are off the scene,
    and every cell of the second rebuild's grid has the opacity the
    callback returns. *)
Theorem overlapping_rebuilds_release_both_grids
    (a1 b1 a2 b2 : R) (st : State) (evs1 evs2 : list (nat * bool)) :
  wf st -> settlements st evs1 -> ~ all_settled st evs1 ->
  let s1 := run evs1 (loadTileGridTextures a1 b1 st) in
  let s2 := loadTileGridTextures a2 b2 s1 in
  Forall (fun e => fetch_of_rebuild st (fst e) \/ fetch_of_rebuild s1 (fst e)) evs2 ->
  (forall f, fetch_of_rebuild st f -> In f (List.map fst evs1) \/ In f (List.map fst evs2)) ->
  (forall f, fetch_of_rebuild s1 f -> In f (List.map fst evs2)) ->
  let s := run evs2 s2 in
  grid_released (tileGroup st) (tileGrid st) s /\
  grid_released (tileGroup s1) (tileGrid s1) s /\
  (forall e, In e (tileGrid s) -> cell_opacity s (callback_opacity st) e).
Proof.
  intros Hwf Hev Hnot s1 s2.
  pose proof (all_settled_iff st evs1 Hev) as Hiff.
  pose proof (settlements_at_most_9 st evs1 Hev) as Hle.
  assert (Hlt : (length evs1 < 9)%nat).
  { destruct (Nat.eq_dec (length evs1) 9) as [E|E]; [|lia].
    exfalso. apply Hnot, Hiff, E. }
  destruct (run_pending a1 b1 st evs1 0 (repeat createAlphaFogMaterial 9)
              (proj1 Hev) Hlt (fresh_materials_hidden 9)) as (ms & Hlen & _ & E).
  rewrite repeat_length in Hlen.
  assert (Es1 : s1 = pending a1 b1 st (length evs1) ms).
  { subst s1. now rewrite loadTileGridTextures_loaded, loaded_pending, E. }
  clearbody s1. subst s1. subst s2. rewrite loadTileGridTextures_loaded.
  set (P := pending a1 b1 st (length evs1) ms).
  intros Hall Hcov1 Hcov2 s.
  assert (HlenP : length (fetches P) = (length (fetches st) + 9)%nat).
  { unfold P, pending, loaded, with_rebuilds, with_objects; cbn [fetches].
    rewrite length_app, length_map, new_entries_length. reflexivity. }
  assert (Hinit : overlap_inv st P (loaded a2 b2 P) (loaded a2 b2 P) (length evs1) 0)
    by (apply overlap_initial; assumption).
  assert (Hinv : overlap_inv st P (loaded a2 b2 P) (run evs2 (loaded a2 b2 P))
                   (length evs1 + length (filter (first_rebuild st) evs2))
                   (0 + length (filter (fun e => negb (first_rebuild st e)) evs2)))
    by (apply overlap_run; assumption).
  fold P in Hinv. fold s in Hinv.
  destruct Hinv as (Hfr & _ & _ & H1 & H2).
  assert (C1 : (9 <= length evs1 + length (filter (first_rebuild st) evs2))%nat).
  { pose proof (remaining_fetches (length (fetches st)) 9 (List.map fst evs1)
                  (List.map fst evs2) (fun f => (f <? length (fetches st) + 9)%nat)
                  (proj2 Hev) (settlements_fetches_incl st evs1 Hev)) as Hc.
    rewrite filter_map_swap, !length_map in Hc. apply Hc.
    - intros f Hf. apply Hcov1. apply in_seq in Hf. exact Hf.
    - intros f Hf. apply in_seq in Hf. apply Nat.ltb_lt. lia. }
  assert (C2 : (9 <= 0 + length (filter (fun e => negb (first_rebuild st e)) evs2))%nat).
  { pose proof (remaining_fetches (length (fetches st) + 9) 9 [] (List.map fst evs2)
                  (fun f => negb (f <? length (fetches st) + 9)%nat)
                  (NoDup_nil _) (incl_nil_l _)) as Hc.
    rewrite filter_map_swap, !length_map in Hc. apply Hc.
    - intros f Hf. right. apply Hcov2. apply in_seq in Hf.
      unfold fetch_of_rebuild. rewrite HlenP. exact Hf.
    - intros f Hf. apply in_seq in Hf. apply negb_true_iff, Nat.ltb_ge. lia. }
  specialize (H1 C1). destruct (H2 C2) as [H2r H2o].
  split; [exact H1|]. split; [exact H2r|].
  intros e He.
  destruct Hfr as (Etg & _ & _ & _ & _ & _ & _ & _ & Elm & _).
  rewrite Etg in He. cbn [loaded tileGrid] in He.
  assert (Hin : In (material (snd e)) (seq (length (materials P)) 9)).
  { change 9%nat with (length offsets9).
    erewrite <- new_entries_materials. apply in_map_iff. exists e. eauto. }
  specialize (H2o _ Hin). unfold opacity_at in H2o. unfold cell_opacity.
  destruct (nth_error (materials s) (material (snd e))) as [m|]; [|discriminate].
  injection H2o as H2o. eauto.
Qed.

Lemma overlap_witness_fetches :
  length (fetches (run [(0, true); (3, false)]%nat (loadTileGridTextures 0 0 initial)))
  = 9%nat.
Proof.
  destruct (run_frame [(0, true); (3, false)]%nat (loadTileGridTextures 0 0 initial))
    as (_ & _ & _ & _ & _ & _ & _ & _ & _ & _ & E).
  rewrite E, loadTileGridTextures_loaded. reflexivity.
Qed.

Lemma overlapping_rebuilds_release_both_grids_witness :
  let evs1 := [(0, true); (3, false)]%nat in
  let evs2 := [(9, true); (1, true); (10, false); (2, true); (11, true); (4, true);
               (12, true); (13, true); (14, true); (15, true); (16, false); (17, true);
               (5, true); (6, false); (7, true); (8, true)]%nat in
  let s1 := run evs1 (loadTileGridTextures 0 0 initial) in
  let s2 := loadTileGridTextures 43 (-79) s1 in
  let s := run evs2 s2 in
  grid_released (tileGroup initial) (tileGrid initial) s /\
  grid_released (tileGroup s1) (tileGrid s1) s /\
  (forall e, In e (tileGrid s) -> cell_opacity s (callback_opacity initial) e).
Proof.
  intros evs1 evs2 s1 s2 s.
  apply (overlapping_rebuilds_release_both_grids 0 0 43 (-79) initial evs1 evs2).
  - apply wf_initial.
  - split.
    + unfold fetch_of_rebuild. repeat (constructor; [cbn; lia|]). constructor.
    + cbn. repeat (constructor; [cbn; intuition lia|]). constructor.
  - intros Hall. specialize (Hall 1%nat). unfold fetch_of_rebuild in Hall.
    specialize (Hall ltac:(cbn; lia)). cbn in Hall. intuition lia.
  - unfold fetch_of_rebuild. fold s1. unfold s1, evs1. rewrite overlap_witness_fetches.
    cbn [initial fetches length].
    repeat (constructor; [cbn [fst]; lia|]). constructor.
  - unfold fetch_of_rebuild. cbn [initial fetches length]. intros f Hf.
    assert (Hc : (f = 0 \/ f = 1 \/ f = 2 \/ f = 3 \/ f = 4 \/ f = 5 \/ f = 6 \/ f = 7
                  \/ f = 8)%nat) by lia.
    cbn. intuition subst; auto 30.
  - unfold fetch_of_rebuild. fold s1. unfold s1, evs1. rewrite overlap_witness_fetches.
    intros f Hf.
    assert (Hc : (f = 9 \/ f = 10 \/ f = 11 \/ f = 12 \/ f = 13 \/ f = 14 \/ f = 15
                  \/ f = 16 \/ f = 17)%nat) by lia.
    cbn. intuition subst; auto 30.
Defined.

End OverlapFacts.

Module SessionFacts.
Import Config Geolocation UI TrackerSpec SessionSpec GeolocationFacts.

Lemma settings_getLatLonOnce (g : Geolocation.State) :
  settings_view (fst (getLatLonOnce g)) = settings_view g.
Proof.
  unfold getLatLonOnce. destruct (gpsOverride g); [reflexivity|].
  destruct (negb (geolocationAvailable g)); reflexivity.
Qed.

Lemma settings_refreshLocationAndTiles (g : Geolocation.State) :
  settings_view (refreshLocationAndTiles g) = settings_view g.
Proof.
  unfold refreshLocationAndTiles. rewrite <- (settings_getLatLonOnce g).
  destruct (getLatLonOnce g) as [g1 [[loc|]|]]; reflexivity.
Qed.

Lemma settings_tracking_position (p : LatLon) (g : Geolocation.State) :
  settings_view (tracking_position p g) = settings_view g.
Proof.
  unfold tracking_position. destruct (lastKnownPosition g); [|reflexivity].
  destruct (Rlt_dec _ _); [|reflexivity].
  now rewrite settings_refreshLocationAndTiles.
Qed.

Lemma settings_stopGPSTracking (s : bool) (g : Geolocation.State) :
  timer_ok s (timer_view g) ->
  settings_view (stopGPSTracking g)
  = (isLiveTrackingEnabled g, gpsUpdateInterval g, modalOriginalSettings g, []).
Proof.
  intros H. destruct (stopGPSTracking_fields s g H) as (_ & _ & Ht & _).
  unfold settings_view. rewrite Ht.
  unfold stopGPSTracking. destruct (gpsTrackingIntervalId g) as [[|id]|]; reflexivity.
Qed.

Lemma settings_startGPSTracking (s : bool) (g : Geolocation.State) :
  timer_ok s (timer_view g) -> gpsOverride g = None ->
  settings_view (startGPSTracking g)
  = (isLiveTrackingEnabled g, gpsUpdateInterval g, modalOriginalSettings g,
     [(nextTimerId g, gpsUpdateInterval g * 1000)]).
Proof.
  intros H Ho. pose proof (settings_stopGPSTracking s g H) as Es.
  destruct (stopGPSTracking_fields s g H) as (_ & _ & _ & Hn).
  unfold settings_view in *. injection Es as El Ei Eo Et.
  unfold startGPSTracking. rewrite Ho. cbn. now rewrite El, Ei, Eo, Et, Hn.
Qed.

Lemma settings_ok_stopped (live : bool) (interval : R) (original : Settings) ts :
  settings_ok (live, interval, original, ts) -> settings_ok (live, interval, original, []).
Proof. unfold settings_ok. intros (H1 & H2 & _). repeat split; auto; contradiction. Qed.

Lemma settings_ok_started (interval : R) (original : Settings) ts (id : nat) :
  settings_ok (true, interval, original, ts) ->
  settings_ok (true, interval, original, [(id, interval * 1000)]).
Proof.
  unfold settings_ok. intros (H1 & H2 & _). repeat split; auto;
    destruct H as [<- | []]; reflexivity.
Qed.

(** Where no interval can be set, none is. *)
Lemma idle_timers (st : UI.State) :
  tracker_inv st -> started st = false \/ gpsOverride (geo st) <> None ->
  timers (geo st) = [].
Proof.
  unfold tracker_inv, timer_ok, timer_view. intros [_ H] Hidle.
  destruct (gpsTrackingIntervalId (geo st)); [|exact H].
  destruct H as (_ & _ & Hs & Ho). destruct Hidle; congruence.
Qed.

Lemma settings_startAR_located (loc : LatLon) (st : UI.State) :
  session_inv st -> settings_ok (settings_view (geo (startAR_located loc st))).
Proof.
  intros [Ht Hs]. unfold startAR_located; cbn [geo].
  destruct (isLiveTrackingEnabled (emit (LoadTiles loc) (geo st))
            && negb (is_set (gpsOverride (emit (LoadTiles loc) (geo st)))))%bool eqn:Hg;
    [|exact Hs].
  apply andb_true_iff in Hg as [Hlive Hno].
  rewrite (settings_startGPSTracking (started st)).
  - cbn [emit isLiveTrackingEnabled gpsUpdateInterval modalOriginalSettings nextTimerId] in *.
    unfold settings_view in Hs. rewrite Hlive in *. now apply settings_ok_started with (ts := timers (geo st)).
  - exact Ht.
  - cbn in *. destruct (gpsOverride (geo st)); [discriminate | reflexivity].
Qed.

Lemma session_inv_resume (w : Waiter) (r : Geolocation.State * Settled) (st : UI.State) :
  timer_view (fst r) = timer_view (geo st) ->
  settings_view (fst r) = settings_view (geo st) ->
  session_inv st -> session_inv (resume w r st).
Proof.
  intros Hv Hsv [Ht Hs]. split; [now apply resume_inv; [exact Hv | exact Ht]|].
  unfold resume. destruct r as [g [loc|]]; cbn [fst snd] in *.
  - destruct w.
    + apply settings_startAR_located. split.
      * unfold tracker_inv; cbn [geo started]. now rewrite Hv.
      * cbn [geo]. now rewrite Hsv.
    + cbn [geo]. change (settings_view (refresh_located loc g)) with (settings_view g).
      now rewrite Hsv.
  - destruct w; cbn [geo]; now rewrite Hsv.
Qed.

Lemma session_inv_initial (available : bool) : session_inv (UI.initial available).
Proof.
  split; [apply tracker_inv_initial|].
  unfold settings_ok; cbn. repeat split; contradiction.
Qed.

Lemma session_inv_step (st : UI.State) (e : Event) :
  session_inv st -> session_inv (step st e).
Proof.
  intros H. split; [apply tracker_inv_step, H|].
  destruct H as [Ht Hs]. destruct e; cbn [step].
  - (* StartAR *)
    unfold startAR. destruct (started st) eqn:Hst; [exact Hs|].
    pose proof (view_getLatLonOnce (geo st)) as Hv.
    pose proof (settings_getLatLonOnce (geo st)) as Hsv.
    destruct (getLatLonOnce (geo st)) as [g [[loc|]|]]; cbn [fst geo] in *.
    + apply settings_startAR_located. split.
      * unfold tracker_inv; cbn [geo started]. now rewrite Hv, <- Hst.
      * cbn [geo]. now rewrite Hsv.
    + now rewrite Hsv.
    + now rewrite Hsv.
  - exact Hs.
  - apply (session_inv_resume w (getLatLonOnce_success p (geo st)) st); try reflexivity.
    now split.
  - apply (session_inv_resume w (getLatLonOnce_error (geo st)) st); try reflexivity.
    now split.
  - (* Tick *)
    unfold on_geo; cbn [geo]. unfold tracking_tick.
    destruct (existsb _ _); [|exact Hs].
    destruct (gpsOverride (geo st)).
    + rewrite (settings_stopGPSTracking (started st)) by exact Ht.
      now apply settings_ok_stopped with (ts := timers (geo st)).
    + destruct (negb (geolocationAvailable (geo st))); exact Hs.
  - unfold on_geo; cbn [geo]. now rewrite settings_tracking_position.
  - exact Hs.
  - unfold on_geo; cbn [geo]. now rewrite settings_refreshLocationAndTiles.
  - exact Hs.
  - (* OpenModal *)
    unfold settings_ok, settings_view in *. cbn. tauto.
  - (* CloseModal *)
    unfold settings_ok, settings_view in *. cbn.
    destruct Hs as (H1 & H2 & H3). rewrite H1, H2. auto.
  - (* LiveTrackingToggled *)
    unfold onLiveTrackingToggle; cbn [geo].
    set (g1 := setModalOriginalSettings _ _).
    assert (Ht1 : timer_ok (started st) (timer_view g1)) by exact Ht.
    assert (Hs1 : settings_view g1
                  = (checked, gpsUpdateInterval (geo st),
                     {| s_isLiveTrackingEnabled := checked;
                        s_gpsUpdateInterval := s_gpsUpdateInterval (modalOriginalSettings (geo st));
                        s_selectedLocation := s_selectedLocation (modalOriginalSettings (geo st)) |},
                     timers (geo st))) by reflexivity.
    destruct Hs as (H1 & H2 & H3).
    destruct (started st && negb (is_set (gpsOverride g1)))%bool eqn:Hg.
    + apply andb_true_iff in Hg as [Hst Hno].
      destruct checked.
      * rewrite (settings_startGPSTracking (started st)); [|exact Ht1|].
        -- cbn. repeat split; auto; destruct H as [<- | []]; reflexivity.
        -- destruct (gpsOverride g1); [discriminate | reflexivity].
      * rewrite (settings_stopGPSTracking (started st)) by exact Ht1.
        cbn. repeat split; auto; contradiction.
    + rewrite Hs1.
      assert (Hidle : timers (geo st) = []).
      { apply idle_timers; [exact Ht|].
        apply andb_false_iff in Hg as [Hg | Hg]; [now left | right].
        change (gpsOverride g1) with (gpsOverride (geo st)) in Hg.
        destruct (gpsOverride (geo st)); [discriminate | discriminate]. }
      rewrite Hidle. cbn. repeat split; auto; contradiction.
  - (* UpdateFrequencyChanged *)
    unfold onUpdateFrequency; cbn [geo].
    set (g1 := setModalOriginalSettings _ _).
    assert (Ht1 : timer_ok (started st) (timer_view g1)) by exact Ht.
    assert (Hs1 : settings_view g1
                  = (isLiveTrackingEnabled (geo st), interval,
                     {| s_isLiveTrackingEnabled := s_isLiveTrackingEnabled (modalOriginalSettings (geo st));
                        s_gpsUpdateInterval := interval;
                        s_selectedLocation := s_selectedLocation (modalOriginalSettings (geo st)) |},
                     timers (geo st))) by reflexivity.
    destruct Hs as (H1 & H2 & H3).
    destruct (started st && isLiveTrackingEnabled g1 && negb (is_set (gpsOverride g1)))%bool eqn:Hg.
    + apply andb_true_iff in Hg as [Hg Hno]. apply andb_true_iff in Hg as [Hst Hlive].
      change (isLiveTrackingEnabled g1) with (isLiveTrackingEnabled (geo st)) in Hlive.
      rewrite (settings_startGPSTracking (started st)); [|exact Ht1|].
      * cbn. repeat split; auto; destruct H as [<- | []]; auto.
      * destruct (gpsOverride g1); [discriminate | reflexivity].
    + rewrite Hs1.
      assert (Hidle : timers (geo st) = []).
      { destruct (timers (geo st)) as [|t ts] eqn:Ets; [reflexivity|]. exfalso.
        destruct (H3 t (or_introl eq_refl)) as [Hlive _].
        assert (Hne : timers (geo st) <> []) by (rewrite Ets; discriminate).
        apply Hne. apply idle_timers; [exact Ht|].
        change (isLiveTrackingEnabled g1) with (isLiveTrackingEnabled (geo st)) in Hg.
        change (gpsOverride g1) with (gpsOverride (geo st)) in Hg.
        rewrite Hlive, andb_true_r in Hg.
        apply andb_false_iff in Hg as [Hg | Hg]; [now left | right].
        destruct (gpsOverride (geo st)); [discriminate | discriminate]. }
      rewrite Hidle. cbn. repeat split; auto; contradiction.
  - (* UseCurrentGPS *)
    unfold useCurrentGPS; cbn [geo]. rewrite settings_refreshLocationAndTiles.
    set (g2 := setModalOriginalSettings _ _).
    destruct (started st) eqn:Hst.
    + rewrite (settings_startGPSTracking true); [| |reflexivity].
      * cbn. repeat split; auto; destruct H as [<- | []]; reflexivity.
      * unfold tracker_inv, timer_ok, timer_view in *. cbn.
        destruct (gpsTrackingIntervalId (geo st)); tauto.
    + assert (Hidle : timers (geo st) = []) by (apply idle_timers; auto).
      subst g2. unfold settings_view; cbn. rewrite Hidle. cbn.
      repeat split; auto; contradiction.
  - (* ApplySelectedLocation *)
    unfold applySelectedLocation.
    destruct (selectedLocation (geo st)) as [sel|]; [|exact Hs].
    cbn [geo]. rewrite settings_refreshLocationAndTiles.
    set (o := Some {| lat := lat sel; lon := lon sel |}).
    assert (Hstop : timers (stopGPSTracking (setGpsOverride o (geo st))) = []).
    { destruct (stopGPSTracking_fields (started st) (geo st) Ht) as (_ & _ & Hts & _).
      unfold stopGPSTracking in *; cbn in *.
      destruct (gpsTrackingIntervalId (geo st)) as [[|id]|]; cbn in *; auto. }
    unfold settings_view.
    change (timers (setModalOriginalSettings _ (setIsLiveTrackingEnabled false
                     (stopGPSTracking (setGpsOverride o (geo st))))))
      with (timers (stopGPSTracking (setGpsOverride o (geo st)))).
    rewrite Hstop. cbn. repeat split; auto; contradiction.
Qed.

Lemma session_inv_run (evs : list Event) (st : UI.State) :
  session_inv st -> session_inv (run evs st).
Proof.
  revert st. induction evs as [|e evs IH]; intros st H; [exact H|].
  unfold run; cbn [fold_left]. apply IH, session_inv_step, H.
Qed.


(** X14: in every state a session can reach from the loaded page, at most
    one polling interval is set; it is the one [gpsTrackingIntervalId]
    records, its identifier is positive, the session has started and no
    override is set; and when no interval is recorded none is set. *)
Theorem at_most_one_polling_interval (available : bool) (evs : list Event) :
  let st := run evs (UI.initial available) in
  (length (timers (geo st)) <= 1)%nat /\
  (forall t, In t (timers (geo st)) ->
     gpsTrackingIntervalId (geo st) = Some (fst t) /\ (0 < fst t)%nat /\
     started st = true /\ gpsOverride (geo st) = None) /\
  (gpsTrackingIntervalId (geo st) = None \/ gpsOverride (geo st) <> None \/
   started st = false -> timers (geo st) = []).
Proof.
  intros st.
  pose proof (tracker_inv_run evs _ (tracker_inv_initial available)) as H.
  fold st in H. unfold tracker_inv, timer_ok, timer_view in H. destruct H as [_ H].
  destruct (gpsTrackingIntervalId (geo st)) as [id|] eqn:Eid.
  - destruct H as (Hts & Hr & Hs & Ho).
    destruct (timers (geo st)) as [|[i p] [|? ?]]; cbn in Hts; try discriminate.
    injection Hts as ->. split; [cbn; lia|]. split.
    + intros t [<- | []]. cbn. repeat split; auto; lia.
    + intros [Hn | [Hn | Hn]]; congruence.
  - rewrite H. split; [cbn; lia|]. split; [contradiction | reflexivity].
Qed.

(** X15: in every reachable state an interval that is set polls with the
    period [gpsUpdateInterval * 1000] of the frequency now selected, and
    live tracking is enabled. *)
Theorem polling_period_matches_settings (available : bool) (evs : list Event) :
  let g := geo (run evs (UI.initial available)) in
  forall t, In t (timers g) ->
    isLiveTrackingEnabled g = true /\ snd t = gpsUpdateInterval g * 1000.
Proof.
  intros g.
  destruct (session_inv_run evs _ (session_inv_initial available)) as [_ (_ & _ & H)].
  exact H.
Qed.

Lemma polling_period_matches_settings_witness :
  let g := geo (run [StartAR; OnceSucceeds ForStartAR FALLBACK] (UI.initial true)) in
  isLiveTrackingEnabled g = true /\
  snd (1%nat, GPS_UPDATE_INTERVAL * 1000) = gpsUpdateInterval g * 1000.
Proof.
  apply (polling_period_matches_settings true [StartAR; OnceSucceeds ForStartAR FALLBACK]
           (1%nat, GPS_UPDATE_INTERVAL * 1000)).
  left. reflexivity.
Defined.

(** X16: in every reachable state the settings saved for cancellation are
    the settings in force, so closing the modal restores the selected
    location and changes nothing else. *)
Theorem cancel_only_restores_the_selection (available : bool) (evs : list Event) :
  let st := run evs (UI.initial available) in
  s_isLiveTrackingEnabled (modalOriginalSettings (geo st)) = isLiveTrackingEnabled (geo st) /\
  s_gpsUpdateInterval (modalOriginalSettings (geo st)) = gpsUpdateInterval (geo st) /\
  step st CloseModal
  = on_geo (setSelectedLocation (s_selectedLocation (modalOriginalSettings (geo st)))) st.
Proof.
  intros st.
  destruct (session_inv_run evs _ (session_inv_initial available)) as [_ (H1 & H2 & _)].
  fold st in H1, H2. split; [exact H1|]. split; [exact H2|].
  cbn [step]. unfold closeGPSModal, on_geo. f_equal.
  rewrite H1, H2. now destruct (geo st).
Qed.

Lemma select_locations (locs : list LatLon) (st : UI.State) (d : option LatLon) :
  on_geo (setSelectedLocation d) (run (List.map SelectLocation locs) st)
  = on_geo (setSelectedLocation d) st.
Proof.
  revert st. induction locs as [|loc locs IH]; intros st; [reflexivity|].
  unfold run in *; cbn [List.map fold_left step]. now rewrite IH.
Qed.

Lemma select_locations_settings (locs : list LatLon) (s0 : UI.State) :
  modalOriginalSettings (geo (run (List.map SelectLocation locs) s0))
  = modalOriginalSettings (geo s0) /\
  isLiveTrackingEnabled (geo (run (List.map SelectLocation locs) s0))
  = isLiveTrackingEnabled (geo s0) /\
  gpsUpdateInterval (geo (run (List.map SelectLocation locs) s0))
  = gpsUpdateInterval (geo s0).
Proof.
  revert s0. induction locs as [|loc locs IH]; intros s0; [repeat split|].
  unfold run in *; cbn [List.map fold_left step].
  destruct (IH (on_geo (setSelectedLocation (Some loc)) s0)) as (E1 & E2 & E3).
  rewrite E1, E2, E3. repeat split.
Qed.

(** X17: opening the modal, picking any number of places on the map and
    closing it again leaves the tracker as opening alone does: the places
    picked are discarded and the selection is the one from before. *)
Theorem modal_cancel_discards_map_clicks (locs : list LatLon) (st : UI.State) :
  run (OpenModal :: List.map SelectLocation locs ++ [CloseModal]) st = openGPSModal st /\
  selectedLocation (geo (openGPSModal st)) = selectedLocation (geo st).
Proof.
  split; [|reflexivity].
  unfold run. cbn [fold_left step]. rewrite fold_left_app. cbn [fold_left step].
  fold (run (List.map SelectLocation locs) (openGPSModal st)).
  set (s := run (List.map SelectLocation locs) (openGPSModal st)).
  assert (Hs : modalOriginalSettings (geo s) = modalOriginalSettings (geo (openGPSModal st))
               /\ isLiveTrackingEnabled (geo s) = isLiveTrackingEnabled (geo st)
               /\ gpsUpdateInterval (geo s) = gpsUpdateInterval (geo st)).
  { subst s. apply (select_locations_settings locs (openGPSModal st)). }
  destruct Hs as (Ho & Hl & Hi).
  unfold closeGPSModal.
  transitivity (on_geo (setSelectedLocation (selectedLocation (geo st))) s).
  - unfold on_geo. f_equal. rewrite Ho.
    cbn [openGPSModal on_geo geo setModalOriginalSettings modalOriginalSettings
         s_isLiveTrackingEnabled s_gpsUpdateInterval s_selectedLocation].
    rewrite <- Hl, <- Hi. now destruct (geo s).
  - subst s. rewrite (select_locations locs (openGPSModal st)).
    unfold openGPSModal, on_geo; cbn. now destruct (geo st).
Qed.


Lemma tracking_position_within (p last : LatLon) (g : Geolocation.State) :
  lastKnownPosition g = Some last ->
  Utils.calculateDistance (lat last) (lon last) (lat p) (lon p) <= gpsDistanceThreshold g ->
  tracking_position p g = g.
Proof.
  intros Hl Hd. unfold tracking_position. rewrite Hl.
  destruct (Rlt_dec _ _) as [Hlt | _]; [lra | reflexivity].
Qed.

(** X18: the distance a poll reports is measured from the position of the
    last reload, not from the previous poll.  Polls that stay within the
    threshold of that position change nothing, however many there are; a
    poll beyond it becomes the new reference and the current location, and
    then, instead of reloading the tiles where the poll was, the position is
    asked for once more, or with an override set the tiles are reloaded at
    the override. *)
Theorem polls_measure_from_the_last_reload
    (ps : list LatLon) (last : LatLon) (g : Geolocation.State) :
  lastKnownPosition g = Some last -> geolocationAvailable g = true ->
  (Forall (fun p => Utils.calculateDistance (lat last) (lon last) (lat p) (lon p)
                    <= gpsDistanceThreshold g) ps ->
   fold_left (fun g p => tracking_position p g) ps g = g) /\
  (forall p, gpsDistanceThreshold g
             < Utils.calculateDistance (lat last) (lon last) (lat p) (lon p) ->
     lastKnownPosition (tracking_position p g) = Some p /\
     currentLocation (tracking_position p g) = Some p /\
     (gpsOverride g = None ->
      effects (tracking_position p g) = effects g ++ [PositionQueryOnce]) /\
     (forall o, gpsOverride g = Some o ->
      effects (tracking_position p g) = effects g ++ [RefreshTiles o; UpdateDisplay])).
Proof.
  intros Hl Ha. split.
  - induction 1 as [|p ps Hp _ IH]; [reflexivity|].
    cbn [fold_left]. now rewrite (tracking_position_within p last g Hl Hp).
  - intros p Hp. unfold tracking_position. rewrite Hl.
    destruct (Rlt_dec _ _) as [_ | Hn]; [|lra].
    destruct p as [la lo]; cbn [lat lon].
    set (g1 := setCurrentLocation _ _).
    assert (E1 : gpsOverride g1 = gpsOverride g) by reflexivity.
    assert (E2 : geolocationAvailable g1 = true) by exact Ha.
    unfold refreshLocationAndTiles, getLatLonOnce. rewrite E1, E2.
    destruct (gpsOverride g) as [o|]; subst g1; cbn;
      repeat split; intros; try congruence.
    injection H as <-. now rewrite <- app_assoc.
Qed.

Lemma polls_measure_from_the_last_reload_witness :
  (Forall (fun p => Utils.calculateDistance (lat FALLBACK) (lon FALLBACK) (lat p) (lon p)
                    <= gpsDistanceThreshold (geo live_session)) [FALLBACK; FALLBACK] ->
   fold_left (fun g p => tracking_position p g) [FALLBACK; FALLBACK] (geo live_session)
   = geo live_session) /\
  (forall p, gpsDistanceThreshold (geo live_session)
             < Utils.calculateDistance (lat FALLBACK) (lon FALLBACK) (lat p) (lon p) ->
     lastKnownPosition (tracking_position p (geo live_session)) = Some p /\
     currentLocation (tracking_position p (geo live_session)) = Some p /\
     (gpsOverride (geo live_session) = None ->
      effects (tracking_position p (geo live_session))
      = effects (geo live_session) ++ [PositionQueryOnce]) /\
     (forall o, gpsOverride (geo live_session) = Some o ->
      effects (tracking_position p (geo live_session))
      = effects (geo live_session) ++ [RefreshTiles o; UpdateDisplay])).
Proof.
  apply (polls_measure_from_the_last_reload [FALLBACK; FALLBACK] FALLBACK (geo live_session));
    reflexivity.
Defined.

(** X19: in every reachable state the tracking settings take effect at
    once.  Switching live tracking off leaves no interval set; switching it
    on in a started session without override sets exactly one, with the
    period of the frequency selected; and changing the frequency while an
    interval is set replaces it by one with the new period. *)
Theorem tracking_settings_take_effect_at_once
    (available : bool) (evs : list Event) (interval : R) :
  let st := run evs (UI.initial available) in
  timers (geo (step st (LiveTrackingToggled false))) = [] /\
  (started st = true -> gpsOverride (geo st) = None ->
   exists id, timers (geo (step st (LiveTrackingToggled true)))
              = [(id, gpsUpdateInterval (geo st) * 1000)]) /\
  (timers (geo st) <> [] ->
   exists id, timers (geo (step st (UpdateFrequencyChanged interval)))
              = [(id, interval * 1000)]).
Proof.
  intros st.
  destruct (session_inv_run evs _ (session_inv_initial available)) as [Ht Hs].
  fold st in Ht, Hs. split; [|split].
  - cbn [step]. unfold onLiveTrackingToggle; cbn [geo].
    set (g1 := setModalOriginalSettings _ _).
    assert (Ht1 : timer_ok (started st) (timer_view g1)) by exact Ht.
    destruct (started st && negb (is_set (gpsOverride g1)))%bool eqn:Hg.
    + now destruct (stopGPSTracking_fields (started st) g1 Ht1) as (_ & _ & E & _).
    + change (timers g1) with (timers (geo st)).
      apply idle_timers; [exact Ht|].
      change (gpsOverride g1) with (gpsOverride (geo st)) in Hg.
      apply andb_false_iff in Hg as [Hg | Hg]; [now left | right].
      destruct (gpsOverride (geo st)); discriminate.
  - intros Hst Ho. cbn [step]. unfold onLiveTrackingToggle; cbn [geo].
    set (g1 := setModalOriginalSettings _ _).
    assert (Ht1 : timer_ok (started st) (timer_view g1)) by exact Ht.
    change (gpsOverride g1) with (gpsOverride (geo st)). rewrite Hst, Ho. cbn [is_set negb andb].
    pose proof (settings_startGPSTracking (started st) g1 Ht1 Ho) as E.
    unfold settings_view in E. injection E as _ _ _ E.
    exists (nextTimerId g1). exact E.
  - intros Hne. cbn [step]. unfold onUpdateFrequency; cbn [geo].
    set (g1 := setModalOriginalSettings _ _).
    assert (Ht1 : timer_ok (started st) (timer_view g1)) by exact Ht.
    destruct (timers (geo st)) as [|t ts] eqn:Ets; [now elim Hne|].
    destruct Hs as (_ & _ & H3). unfold settings_view in H3.
    destruct (H3 t ltac:(rewrite Ets; now left)) as [Hlive _].
    assert (Hrun : started st = true /\ gpsOverride (geo st) = None).
    { unfold tracker_inv, timer_ok, timer_view in Ht. destruct Ht as [_ Ht].
      destruct (gpsTrackingIntervalId (geo st)); [tauto | congruence]. }
    destruct Hrun as [Hst Ho].
    change (gpsOverride g1) with (gpsOverride (geo st)).
    change (isLiveTrackingEnabled g1) with (isLiveTrackingEnabled (geo st)).
    rewrite Hst, Ho, Hlive. cbn [is_set negb andb].
    pose proof (settings_startGPSTracking (started st) g1 Ht1 Ho) as E.
    unfold settings_view in E. injection E as _ _ _ E.
    exists (nextTimerId g1). exact E.
Qed.




(** X21: a location query that is under way when the override is applied
    still reloads the tiles when it succeeds.  After a refresh was asked
    for without override, a place picked and applied, and then the pending
    query answered with [p], the override is the place picked, but the last
    reload of the tiles is at [p], which is also the current location. *)
Theorem late_query_reloads_despite_override (p q : LatLon) (st : UI.State) :
  gpsOverride (geo st) = None -> geolocationAvailable (geo st) = true ->
  let s := run [RefreshRequested; SelectLocation q; ApplySelectedLocation;
                OnceSucceeds ForRefresh p] st in
  gpsOverride (geo s) = Some q /\
  refreshed_at (geo s) = refreshed_at (geo st) ++ [q; p] /\
  currentLocation (geo s) = Some p.
Proof.
  intros Ho Ha s. subst s.
  destruct st as [g s].
  destruct g as [ov cur sel live intv thr tid last orig avail ts next eff].
  cbn in Ho, Ha. subst ov avail. destruct p as [pla plo], q as [qla qlo].
  unfold refreshed_at, run, step, fold_left, on_geo, applySelectedLocation, resume,
    refreshLocationAndTiles, refresh_located, getLatLonOnce, getLatLonOnce_success,
    stopGPSTracking, truthy.
  destruct tid as [[|id]|]; cbn;
    rewrite !flat_map_app; cbn; rewrite <- !app_assoc; cbn;
    repeat split; reflexivity.
Qed.

Lemma late_query_reloads_despite_override_witness :
  let s := run [RefreshRequested; SelectLocation paris; ApplySelectedLocation;
                OnceSucceeds ForRefresh FALLBACK] live_session in
  gpsOverride (geo s) = Some paris /\
  refreshed_at (geo s) = refreshed_at (geo live_session) ++ [paris; FALLBACK] /\
  currentLocation (geo s) = Some FALLBACK.
Proof.
  apply (late_query_reloads_despite_override FALLBACK paris live_session); reflexivity.
Defined.

End SessionFacts.

Module LocationMapFacts.
Import Config Geolocation UI LocationMap.

Lemma or_number_nonzero (a : option R) (b : R) : b <> 0 -> or_number a b <> 0.
Proof.
  intros Hb. unfold or_number. destruct a as [v|]; [|exact Hb].
  destruct (Req_dec_T v 0); assumption.
Qed.

Lemma or_undefined_first (v : R) (b : option R) : v <> 0 -> or_undefined (Some v) b = Some v.
Proof. intros H. unfold or_undefined. destruct (Req_dec_T v 0); [contradiction | reflexivity]. Qed.

Lemma or_number_first (v b : R) : v <> 0 -> or_number (Some v) b = v.
Proof. intros H. unfold or_number. destruct (Req_dec_T v 0); [contradiction | reflexivity]. Qed.

Lemma or_undefined_zero (b : option R) : or_undefined (Some 0) b = b.
Proof. unfold or_undefined. destruct (Req_dec_T 0 0); [reflexivity | contradiction]. Qed.

Lemma FALLBACK_nonzero : lat FALLBACK <> 0 /\ lon FALLBACK <> 0.
Proof. cbn. split; lra. Qed.

(** X22: [initializeMap] centres the map, puts the marker and sets the
    selected location coordinate by coordinate on the first of override,
    current location and fallback whose coordinate is not 0.  So the result
    never has a zero coordinate; it is the override, or without one the
    current location, when both their coordinates are non-zero; it is the
    fallback when neither is known; and for an override on the equator the
    latitude is the current location's. *)
Theorem initializeMap_takes_first_nonzero_coordinates (g : Geolocation.State) (m : State) :
  let g' := fst (initializeMap g m) in
  let m' := snd (initializeMap g m) in
  (exists c, selectedLocation g' = Some c /\ locationMarker m' = Some c /\
             option_map fst (locationMap m') = Some c /\
             selectedCoordsDisplay m' = Some c /\
             lat c <> 0 /\ lon c <> 0) /\
  (forall o, gpsOverride g = Some o -> lat o <> 0 -> lon o <> 0 ->
             selectedLocation g' = Some o) /\
  (forall c, gpsOverride g = None -> currentLocation g = Some c ->
             lat c <> 0 -> lon c <> 0 -> selectedLocation g' = Some c) /\
  (gpsOverride g = None -> currentLocation g = None -> selectedLocation g' = Some FALLBACK) /\
  (forall l c, gpsOverride g = Some {| lat := 0; lon := l |} -> l <> 0 ->
               currentLocation g = Some c -> lat c <> 0 ->
               selectedLocation g' = Some {| lat := lat c; lon := l |}).
Proof.
  cbv zeta. unfold initializeMap. cbn [fst snd setSelectedLocation selectedLocation].
  destruct FALLBACK_nonzero as [Hfa Hfo].
  split; [|split; [|split; [|split]]].
  - exists (map_center g). split; [reflexivity|].
    split; [destruct (locationMap m) as [[? ?]|]; reflexivity|].
    split; [destruct (locationMap m) as [[? ?]|]; reflexivity|].
    split; [reflexivity|].
    unfold map_center; cbn [lat lon]. split; now apply or_number_nonzero.
  - intros [la lo] Ho Hla Hlo. cbn [lat lon] in *. unfold map_center. rewrite Ho; cbn [option_map lat lon].
    now rewrite !or_undefined_first, !or_number_first.
  - intros [la lo] Ho Hc Hla Hlo. cbn [lat lon] in *. unfold map_center.
    rewrite Ho, Hc; cbn [option_map lat lon or_undefined].
    now rewrite !or_number_first.
  - intros Ho Hc. unfold map_center. rewrite Ho, Hc. reflexivity.
  - intros l [la lo] Ho Hl Hc Hla. cbn [lat lon] in *. unfold map_center.
    rewrite Ho, Hc; cbn [option_map lat lon].
    now rewrite or_undefined_zero, or_undefined_first, !or_number_first.
Qed.


Lemma on_click_twice (la lo : R) (g : Geolocation.State) (m : State) :
  on_click la lo (fst (on_click la lo g m)) (snd (on_click la lo g m)) = on_click la lo g m.
Proof. reflexivity. Qed.

(** X23: every opening of the modal registers one more [click] listener on
    the map, and a click runs them all; the outcome is that of a single
    listener however many there are: the place clicked is selected, shown
    and marked, and the tracking controls are switched off on the page. *)
Theorem click_listeners_pile_up_harmlessly
    (la lo : R) (g : Geolocation.State) (m : State) :
  listeners (snd (initializeMap g m)) = S (listeners m) /\
  click la lo (fst (initializeMap g m)) (snd (initializeMap g m))
  = on_click la lo (fst (initializeMap g m)) (snd (initializeMap g m)) /\
  selectedLocation (fst (click la lo (fst (initializeMap g m)) (snd (initializeMap g m))))
  = Some {| lat := la; lon := lo |}.
Proof.
  assert (El : listeners (snd (initializeMap g m)) = S (listeners m)).
  { unfold initializeMap. destruct (locationMap m) as [[c z]|]; reflexivity. }
  split; [exact El|].
  assert (E : click la lo (fst (initializeMap g m)) (snd (initializeMap g m))
              = on_click la lo (fst (initializeMap g m)) (snd (initializeMap g m))).
  { unfold click. rewrite El.
    generalize (fst (initializeMap g m)) (snd (initializeMap g m)). intros g1 m1.
    clear El. generalize (listeners m). intros n.
    induction n as [|n IH]; [reflexivity|].
    rewrite Nat.iter_succ, IH. apply on_click_twice. }
  split; [exact E|]. rewrite E. reflexivity.
Qed.

Lemma applyManualCoordinates_accepts (la lo : R) (g : Geolocation.State) (m : State) :
  gpsLatInput m = Some la -> gpsLonInput m = Some lo ->
  -90 <= la <= 90 -> -180 <= lo <= 180 ->
  let r := applyManualCoordinates g m in
  snd r = None /\
  fst (fst r) = setSelectedLocation (Some {| lat := la; lon := lo |}) g /\
  selectedCoordsDisplay (snd (fst r)) = Some {| lat := la; lon := lo |} /\
  manualInputs_hidden (snd (fst r)) = true /\
  toggle_disabled (snd (fst r)) = true /\ frequency_disabled (snd (fst r)) = true /\
  (locationMap m <> None -> locationMarker m <> None ->
   locationMarker (snd (fst r)) = Some {| lat := la; lon := lo |}).
Proof.
  intros Hla Hlo [Ha1 Ha2] [Ho1 Ho2]. cbv zeta. unfold applyManualCoordinates.
  rewrite Hla, Hlo.
  destruct (Rlt_dec la (-90)); [lra|]. destruct (Rlt_dec 90 la); [lra|].
  destruct (Rlt_dec lo (-180)); [lra|]. destruct (Rlt_dec 180 lo); [lra|].
  cbn. repeat split.
  intros Hm Hk. destruct (locationMap m) as [[c z]|]; [|contradiction].
  destruct (locationMarker m); [reflexivity | contradiction].
Qed.

(** X24: [applyManualCoordinates] changes something only for a latitude in
    [[-90, 90]] and a longitude in [[-180, 180]], both numbers: then the
    pair typed becomes the selected location, with no alert; otherwise an
    alert is shown and neither the tracker nor the map changes. *)
Theorem applyManualCoordinates_validates (g : Geolocation.State) (m : State) :
  let r := applyManualCoordinates g m in
  (snd r = None <->
   exists la lo, gpsLatInput m = Some la /\ gpsLonInput m = Some lo /\
                 -90 <= la <= 90 /\ -180 <= lo <= 180) /\
  (forall la lo, snd r = None -> gpsLatInput m = Some la -> gpsLonInput m = Some lo ->
     selectedLocation (fst (fst r)) = Some {| lat := la; lon := lo |}) /\
  (snd r <> None -> fst r = (g, m)).
Proof.
  cbv zeta. unfold applyManualCoordinates.
  destruct (gpsLatInput m) as [la|]; [destruct (gpsLonInput m) as [lo|]|].
  - destruct (Rlt_dec la (-90)) as [H1|H1]; [|destruct (Rlt_dec 90 la) as [H2|H2];
      [|destruct (Rlt_dec lo (-180)) as [H3|H3]; [|destruct (Rlt_dec 180 lo) as [H4|H4]]]];
      cbn [fst snd]; (split; [split|split]);
      try discriminate; try reflexivity;
      try (intros (la' & lo' & [= <-] & [= <-] & Ha & Ho); lra);
      try (intros; exfalso; congruence).
    + intros _. exists la, lo. repeat split; lra.
    + intros la' lo' _ [= <-] [= <-]. reflexivity.
  - cbn [fst snd]. split; [split|split]; try discriminate; try reflexivity.
    intros (la' & lo' & _ & E & _). discriminate.
  - cbn [fst snd]. split; [split|split]; try discriminate; try reflexivity.
    intros (la' & lo' & E & _). discriminate.
Qed.


(** X25: showing the manual inputs fills them with the selected location,
    and applying them untouched selects that location again when it is a
    valid pair; when it is not -- a place picked on the map is not checked
    -- the apply is refused with an alert and the inputs stay shown. *)
Theorem manual_prefill_round_trip (sel : LatLon) (g : Geolocation.State) (m : State) :
  manualInputs_hidden m = true -> selectedLocation g = Some sel ->
  let r := applyManualCoordinates g (toggleManualInput g m) in
  (-90 <= lat sel <= 90 -> -180 <= lon sel <= 180 ->
   snd r = None /\ selectedLocation (fst (fst r)) = Some sel /\
   manualInputs_hidden (snd (fst r)) = true) /\
  (lat sel < -90 \/ 90 < lat sel \/ lon sel < -180 \/ 180 < lon sel ->
   snd r <> None /\ fst (fst r) = g /\ manualInputs_hidden (snd (fst r)) = false).
Proof.
  intros Hh Hs r.
  assert (Em : toggleManualInput g m = with_manual false (Some (lat sel)) (Some (lon sel)) m).
  { unfold toggleManualInput. now rewrite Hh, Hs. }
  subst r. rewrite Em. split.
  - intros Hla Hlo.
    destruct (applyManualCoordinates_accepts (lat sel) (lon sel) g
                (with_manual false (Some (lat sel)) (Some (lon sel)) m)
                eq_refl eq_refl Hla Hlo) as (Hr & Hg & _ & Hhid & _).
    split; [exact Hr|]. split; [|exact Hhid].
    rewrite Hg. cbn. now destruct sel.
  - intros Hout. unfold applyManualCoordinates.
    cbn [with_manual gpsLatInput gpsLonInput].
    destruct (Rlt_dec (lat sel) (-90)); [cbn; repeat split; discriminate|].
    destruct (Rlt_dec 90 (lat sel)); [cbn; repeat split; discriminate|].
    destruct (Rlt_dec (lon sel) (-180)); [cbn; repeat split; discriminate|].
    destruct (Rlt_dec 180 (lon sel)); [cbn; repeat split; discriminate|].
    lra.
Qed.

Lemma manual_prefill_round_trip_witness :
  let g := setSelectedLocation (Some FALLBACK) (Geolocation.initial true) in
  let r := applyManualCoordinates g (toggleManualInput g LocationMap.initial) in
  (-90 <= lat FALLBACK <= 90 -> -180 <= lon FALLBACK <= 180 ->
   snd r = None /\ selectedLocation (fst (fst r)) = Some FALLBACK /\
   manualInputs_hidden (snd (fst r)) = true) /\
  (lat FALLBACK < -90 \/ 90 < lat FALLBACK \/ lon FALLBACK < -180 \/ 180 < lon FALLBACK ->
   snd r <> None /\ fst (fst r) = g /\ manualInputs_hidden (snd (fst r)) = false).
Proof.
  intros g.
  apply (manual_prefill_round_trip FALLBACK g LocationMap.initial); reflexivity.
Defined.

End LocationMapFacts.

Module AntimeridianFacts.
Import Config Geolocation UI SessionSpec LocationMap.

Lemma zoom_level_nat : ZOOM_LEVEL = INR 11.
Proof. unfold ZOOM_LEVEL. simpl. lra. Qed.

Lemma center_column_at_180 (lat : R) :
  Utils.tileX (Utils.latLonToTile lat 180 ZOOM_LEVEL TILE_SIZE) = 2048%Z.
Proof. rewrite zoom_level_nat. apply UtilsFacts.latLonToTile_antimeridian. Qed.

(** X26: longitude 180 passes the check of the manual inputs; once
    applied it becomes the override and the tiles are reloaded there, around
    the centre column 2048, which is not below [2^ZOOM_LEVEL]. *)
Theorem manual_longitude_180_is_accepted_and_leaves_the_map
    (la : R) (g : Geolocation.State) (m : LocationMap.State) (s : bool) (t : Tiles.State) :
  -90 <= la <= 90 -> gpsLatInput m = Some la -> gpsLonInput m = Some 180 ->
  let r := applyManualCoordinates g m in
  let st := applySelectedLocation {| geo := fst (fst r); started := s |} in
  snd r = None /\
  gpsOverride (geo st) = Some {| lat := la; lon := 180 |} /\
  refreshed_at (geo st) = refreshed_at g ++ [{| lat := la; lon := 180 |}] /\
  Tiles.centerTile (Tiles.loadTileGridTextures la 180 t)
  = (2048%Z, Utils.tileY (Utils.latLonToTile la 180 ZOOM_LEVEL TILE_SIZE)) /\
  ~ (IZR 2048 < Rpower 2 ZOOM_LEVEL).
Proof.
  intros Hlat Hla Hlo r st.
  destruct (LocationMapFacts.applyManualCoordinates_accepts la 180 g m Hla Hlo Hlat ltac:(lra))
    as (Hr & Hg & _).
  fold r in Hr, Hg. subst st. rewrite Hg.
  split; [exact Hr|].
  assert (Happly :
    gpsOverride (geo (applySelectedLocation
                        {| geo := setSelectedLocation (Some {| lat := la; lon := 180 |}) g;
                           started := s |}))
    = Some {| lat := la; lon := 180 |} /\
    refreshed_at (geo (applySelectedLocation
                         {| geo := setSelectedLocation (Some {| lat := la; lon := 180 |}) g;
                            started := s |}))
    = refreshed_at g ++ [{| lat := la; lon := 180 |}]).
  { clear. destruct g as [ov cur sel live intv thr tid last orig avail ts next eff].
    unfold applySelectedLocation, refreshLocationAndTiles, refresh_located, getLatLonOnce,
      stopGPSTracking, truthy, refreshed_at.
    destruct tid as [[|id]|]; cbn; rewrite !flat_map_app; cbn;
      rewrite <- app_assoc; split; reflexivity. }
  destruct Happly as [Ho Href].
  split; [exact Ho|]. split; [exact Href|]. split.
  - rewrite TilesFacts.loadTileGridTextures_loaded. cbn [GridSpec.loaded Tiles.centerTile].
    now rewrite center_column_at_180.
  - rewrite zoom_level_nat, Rpower_pow by lra. simpl. lra.
Qed.

Lemma manual_longitude_180_is_accepted_and_leaves_the_map_witness :
  let m := with_manual false (Some 45) (Some 180) LocationMap.initial in
  let g := Geolocation.initial true in
  let r := applyManualCoordinates g m in
  let st := applySelectedLocation {| geo := fst (fst r); started := true |} in
  snd r = None /\
  gpsOverride (geo st) = Some {| lat := 45; lon := 180 |} /\
  refreshed_at (geo st) = refreshed_at g ++ [{| lat := 45; lon := 180 |}] /\
  Tiles.centerTile (Tiles.loadTileGridTextures 45 180 Tiles.initial)
  = (2048%Z, Utils.tileY (Utils.latLonToTile 45 180 ZOOM_LEVEL TILE_SIZE)) /\
  ~ (IZR 2048 < Rpower 2 ZOOM_LEVEL).
Proof.
  intros m g.
  apply (manual_longitude_180_is_accepted_and_leaves_the_map 45 g m true Tiles.initial).
  - lra.
  - reflexivity.
  - reflexivity.
Defined.

End AntimeridianFacts.

Module CaptureFacts.
Import Capture.

Lemma clicks_set_snap (n : nat) (st : State) :
  run (repeat Click (S n)) st = {| snap := true; captured := captured st |}.
Proof.
  revert st. induction n as [|n IH]; intros st; [reflexivity|].
  change (run (repeat Click (S (S n))) st) with (run (repeat Click (S n)) (capturePhoto st)).
  now rewrite IH.
Qed.

(** X27: clicks on the photo button between two frames save one photo, at
    the next frame, and frames without a click before them save none. *)
Theorem one_photo_per_request (n : nat) (st : State) :
  run (repeat Click (S n) ++ [Frame]) st = {| snap := false; captured := S (captured st) |} /\
  (snap st = false -> run (repeat Frame n) st = st) /\
  snap (run [Frame] st) = false.
Proof.
  split; [|split].
  - unfold run. rewrite fold_left_app. fold (run (repeat Click (S n)) st).
    now rewrite clicks_set_snap.
  - intros Hs. induction n as [|n IH]; [reflexivity|].
    unfold run in *; cbn [repeat fold_left step]. unfold checkAndCapture. rewrite Hs.
    exact IH.
  - cbn. unfold checkAndCapture. destruct (snap st) eqn:E; [reflexivity | exact E].
Qed.

End CaptureFacts.

Module DeviceFacts.
Import Device Controls.

Lemma ensureMotionPermission_mobile (b : Browser) :
  ensureMotionPermission b = true -> isMobileDevice b = true.
Proof.
  unfold ensureMotionPermission. destruct (isMobileDevice b); [reflexivity | discriminate].
Qed.

(** X28: [startAR] picks the controls from the device alone.  Motion
    permission is only ever granted on a mobile device; off a mobile device
    the mouse controls are set up, looking straight up, and the setup goes
    on; on a mobile device with permission the device-orientation controls
    are, and the setup goes on; on a mobile device without permission
    nothing is set up and the setup stops.  On a mobile device permission is
    refused when a request throws, granted when there is nothing to ask, and
    otherwise granted when one of the requests is fulfilled with 'granted'. *)
Theorem startAR_picks_the_controls (b : Browser) (c : Controls.State) :
  let c' := fst (startAR_controls b c) in
  let proceed := snd (startAR_controls b c) in
  (ensureMotionPermission b = true -> isMobileDevice b = true) /\
  (isMobileDevice b = false ->
     proceed = true /\ hasDeviceOrientation c' = false /\ controls c' = controls c /\
     cameraRotationX c' = PI / 2 /\ cameraRotationY c' = 0) /\
  (isMobileDevice b = true -> ensureMotionPermission b = true ->
     proceed = true /\ hasDeviceOrientation c' = true /\ controls c' = true /\
     camera_rotation c' = camera_rotation c) /\
  (isMobileDevice b = true -> ensureMotionPermission b = false ->
     proceed = false /\ c' = setHasDeviceOrientation false c) /\
  (isMobileDevice b = true ->
     ensureMotionPermission b =
     match DM b, DO b with
     | Throws, _ | _, Throws => false
     | NoFunction, NoFunction => true
     | Settles (Some granted), _ | _, Settles (Some granted) => true
     | _, _ => false
     end).
Proof.
  cbv zeta. split; [apply ensureMotionPermission_mobile|].
  unfold startAR_controls, ensureMotionPermission.
  destruct (isMobileDevice b); cbn [negb andb orb fst snd].
  - split; [intros H; discriminate H|]. split; [|split].
    + intros _ ->. cbn. repeat split.
    + intros _ ->. cbn. repeat split.
    + intros _. destruct (DM b) as [| |[[|]|]], (DO b) as [| |[[|]|]]; reflexivity.
  - split; [intros _; cbn; repeat split|].
    split; [|split]; intros H; discriminate H.
Qed.

End DeviceFacts.
